(** * Dynamic programming programs of src/

    A shallow embedding of the five programs of the repository and the
    properties of what they compute:
    - src/binary_tree.cpp: [optimalBST] and [printOptimalStructure], the
      three tables of an optimal binary search tree and the structure
      report;
    - src/lcs-length.cpp: [lcsLength] and [printLCS] (module [LCS]);
    - src/knapsack_problem.cpp: [knapsack01] and [printSelectedItems]
      (module [Knapsack]);
    - src/rod_cutting.cpp: [cutRod] (module [RodCutting]);
    - src/matrix_chain.cpp: [matrixChainOrder] (module [MatrixChain]).

    Modelling choices:
    - The search tree code works on [double]. It is embedded over a
      small arithmetic interface, [Number], and runs on its instance
      [binary64], Rocq's primitive IEEE 754 binary64 numbers with
      round-to-nearest-even (a [double] on the usual targets, every
      intermediate result being a [double]). The expected cost of a tree
      is a rational number, the sum on the values of the binary64 inputs
      ([exact_value], [exact_cost]). A second instance, [exactQc], the
      rationals, runs no code: the proofs compare the binary64 tables
      with the recurrence over it when no sum is rounded.
    - [std::vector::operator[]] does not check its index: an access out
      of range is undefined behaviour, embedded as the failure [None].
    - The other programs compute on [int], taken as 32 bits wide. An
      [int] is an integer of [Z] between [INT_MIN] and [INT_MAX]; an
      operation whose mathematical result leaves that range is undefined
      behaviour, again [None] (see [int]).
    - Table sizes and the loop indices that run on non-negative values
      only are natural numbers; an index the code computes by a
      subtraction that may go below 0, or reads from its input, is an
      integer.
    - Tables passed by reference are passed in and returned: a function
      that resizes its tables keeps the rows they already hold.
    - The recursion of the search tree reporter and of [printLCS] is
      bounded by a fuel; [None] is also the result of a call that needs
      more calls than the fuel.

    Part I holds the definitions: the embedding of the source, the inputs
    of [main] and of the counterexamples, the notions the properties are
    stated with, and the recurrences and invariants the proofs use.
    Part II holds the lemmas and theorems. *)

From Stdlib Require Import ZArith Floats QArith Qpower Qcanon Lia String.
From stdpp Require Import base option list.

Set Warnings "-inexact-float".

(** * Part I: definitions *)

(** ** Arithmetic of the table entries *)

Class Number (D : Type) := {
  add : D -> D -> D;        (* operator+ *)
  ltb : D -> D -> bool;     (* operator< *)
  dmax : D;                 (* std::numeric_limits<double>::max() *)
  dzero : D                 (* the value of a value-initialised entry *)
}.

(** The largest finite binary64 number, (2^53 - 1) * 2^971. *)
Definition DBL_MAX : float := Eval vm_compute in
  SF2Prim (S754_finite false (2 ^ 53 - 1)%positive 971).

#[export] Instance binary64 : Number float := {
  add := PrimFloat.add;
  ltb := PrimFloat.ltb;
  dmax := DBL_MAX;
  dzero := 0%float
}.

(** The rational number a finite binary64 number stands for. *)
Definition exact_value (x : float) : Q :=
  match Prim2SF x with
  | S754_finite s m e =>
      (if s then -1 else 1) * inject_Z (Zpos m) * Qpower 2 e
  | _ => 0
  end.

Definition Qcltb (x y : Qc) : bool :=
  match (x ?= y)%Qc with Lt => true | _ => false end.

(** The rationals, with the value of DBL_MAX as sentinel. No code runs on
    them: they are the numbers the expected cost of a tree is a sum of,
    and the recurrence over them is what the proofs compare the binary64
    tables with when no sum is rounded. *)
#[export] Instance exactQc : Number Qc := {
  add := Qcplus;
  ltb := Qcltb;
  dmax := Q2Qc (exact_value DBL_MAX);
  dzero := 0%Qc
}.

(** ** Vectors *)

(** [v.resize(k, x)]: keeps the first [k] elements and pads with copies
    of [x]. *)
Definition resize {A} (k : nat) (x : A) (v : list A) : list A :=
  take k v ++ replicate (k - length v) x.

(** [t[i][j]] as an rvalue. *)
Definition get2 {A} (t : list (list A)) (i j : nat) : option A :=
  match t !! i with
  | Some row => row !! j
  | None => None
  end.

(** [t[i][j] = x]. *)
Definition set2 {A} (t : list (list A)) (i j : nat) (x : A)
  : option (list (list A)) :=
  match t !! i with
  | Some row =>
      if decide (j < length row) then Some (<[i := <[j := x]> row]> t)
      else None
  | None => None
  end.

(** [for (int k = ...; ...; ++k) body], over the values [ks] the index
    takes. *)
Fixpoint for_each {S} (ks : list nat) (body : nat -> S -> option S) (s : S)
  : option S :=
  match ks with
  | [] => Some s
  | k :: ks' =>
      match body k s with
      | Some s' => for_each ks' body s'
      | None => None
      end
  end.

(** ** The table builder *)

Section Builder.
Context {D : Type} `{Number D}.

(** The three tables the function fills through its reference
    parameters. *)
Record tables := Tables {
  tab_e : list (list D);
  tab_w : list (list D);
  tab_root : list (list nat)
}.

Variables (p q : list D).

(** Body of the loop of the base cases (lines 42-45). *)
Definition base_step (i : nat) (t : tables) : option tables :=
  qi ← q !! (i - 1);
  e' ← set2 (tab_e t) i (i - 1) qi;
  w' ← set2 (tab_w t) i (i - 1) qi;
  Some (Tables e' w' (tab_root t)).

(** Body of the loop over the candidate roots [r] (lines 67-78): the
    cost is [(e[i][r-1] + e[r+1][j]) + w[i][j]], compared with [<]. *)
Definition root_step (i j r : nat) (t : tables) : option tables :=
  el ← get2 (tab_e t) i (r - 1);
  er ← get2 (tab_e t) (r + 1) j;
  wij ← get2 (tab_w t) i j;
  let cost := add (add el er) wij in
  eij ← get2 (tab_e t) i j;
  if ltb cost eij then
    e' ← set2 (tab_e t) i j cost;
    root' ← set2 (tab_root t) i j r;
    Some (Tables e' (tab_w t) root')
  else Some t.

(** Body of the loop over the first key [i] of the intervals of
    length [l] (lines 52-79), with [j = i + l - 1]; the weight is
    [(w[i][j-1] + p[j]) + q[j]]. *)
Definition interval_step (l i : nat) (t : tables) : option tables :=
  let j := i + l - 1 in
  e' ← set2 (tab_e t) i j dmax;
  wprev ← get2 (tab_w t) i (j - 1);
  pj ← p !! j;
  qj ← q !! j;
  w' ← set2 (tab_w t) i j (add (add wprev pj) qj);
  for_each (seq i (j + 1 - i)) (root_step i j) (Tables e' w' (tab_root t)).

(** Body of the loop over the interval length [l] (lines 49-80). *)
Definition length_step (n l : nat) (t : tables) : option tables :=
  for_each (seq 1 (n - l + 1)) (interval_step l) t.

(** [optimalBST] (lines 24-81): the three [resize], the base cases, the
    loop over the lengths. *)
Definition optimalBST (n : nat) (e w : list (list D))
    (root : list (list nat)) : option tables :=
  let e := resize (n + 2) (replicate (n + 2) dzero) e in
  let w := resize (n + 2) (replicate (n + 2) dzero) w in
  let root := resize (n + 2) (replicate (n + 2) 0) root in
  t ← for_each (seq 1 (n + 1)) base_step (Tables e w root);
  for_each (seq 1 n) (length_step n) t.

(** The call of [main] (line 165): the three tables are empty vectors, so
    that [resize] allocates them anew, filled with zeros. *)
Definition BuildOptimalBST (n : nat) : option tables :=
  optimalBST n [] [] [].

(** The cost [e[i][r-1] + e[r+1][j] + w[i][j]] of the candidate root [r],
    read from filled tables. *)
Definition candidate (t : tables) (i j r : nat) : option D :=
  el ← get2 (tab_e t) i (r - 1);
  er ← get2 (tab_e t) (r + 1) j;
  wij ← get2 (tab_w t) i j;
  Some (add (add el er) wij).

End Builder.

Arguments tables D : clear implicits.

(** ** The structure reporter *)

(** One line of the report. The labels are looked up when the line is
    printed ([render]); the fact keeps the indices. *)
Inductive fact :=
| KeyRoot (r : Z)
| KeyChild (r : Z) (is_left_child : bool) (parent_r : Z)
| GapChild (j : Z) (is_left_child : bool) (parent_r : Z).

(** [v[i]] for an [int] index. *)
Definition lookupZ {A} (v : list A) (i : Z) : option A :=
  if (i <? 0)%Z then None else v !! Z.to_nat i.

Definition getZ (root : list (list nat)) (i j : Z) : option Z :=
  row ← lookupZ root i; r ← lookupZ row j; Some (Z.of_nat r).

(** The recursion of [printOptimalStructure] (lines 95-127); [fuel] bounds
    the depth of the calls. *)
Fixpoint reportStructure (fuel : nat) (root : list (list nat))
    (i j parent_r : Z) (is_left_child : bool) : option (list fact) :=
  match fuel with
  | O => None
  | S fuel' =>
      if (j <? i)%Z then
        if (j =? i - 1)%Z then Some [GapChild j is_left_child parent_r]
        else Some []
      else
        r ← getZ root i j;
        let here :=
          if (parent_r =? 0)%Z then KeyRoot r
          else KeyChild r is_left_child parent_r in
        ls ← reportStructure fuel' root i (r - 1) r true;
        rs ← reportStructure fuel' root (r + 1) j r false;
        Some (here :: ls ++ rs)
  end.

Definition side_text (is_left_child : bool) : string :=
  if is_left_child then "filho esquerdo"%string else "filho direito"%string.

Definition tab : string := String (Ascii.ascii_of_nat 9) EmptyString.

(** The text of a line. *)
Definition render (keys dummies : list string) (f : fact) : option string :=
  match f with
  | KeyRoot r =>
      k ← lookupZ keys r; Some (k ++ " e a raiz da arvore.")%string
  | KeyChild r s parent_r =>
      k ← lookupZ keys r; pk ← lookupZ keys parent_r;
      Some (k ++ " e o " ++ side_text s ++ " de " ++ pk)%string
  | GapChild j s parent_r =>
      d ← lookupZ dummies j; pk ← lookupZ keys parent_r;
      Some (tab ++ d ++ " e o " ++ side_text s ++ " de " ++ pk)%string
  end.

Definition printOptimalStructure (fuel : nat) (root : list (list nat))
    (keys dummies : list string) (i j parent_r : Z) (is_left_child : bool)
  : option (list string) :=
  facts ← reportStructure fuel root i j parent_r is_left_child;
  mapM (render keys dummies) facts.

(** ** The inputs of [main] (lines 139-151) and of the counterexamples *)

Definition keys5 : list string := [""; "k1"; "k2"; "k3"; "k4"; "k5"]%string.
Definition dummies5 : list string := ["d0"; "d1"; "d2"; "d3"; "d4"; "d5"]%string.
Definition p5 : list float := [0.0; 0.15; 0.10; 0.05; 0.10; 0.20]%float.
Definition q5 : list float := [0.05; 0.10; 0.05; 0.05; 0.05; 0.10]%float.

(** Inputs on which a rounding error shows: 0.5 + 2^-54 rounds to 0.5. *)
Definition p_rounding : list float := [0; 0.5]%float.
Definition q_rounding : list float := [0x1p-54; 0x1p-54]%float.

(** Inputs on which the costs overflow: 1e308 + 1e308 is infinite. *)
Definition p_overflow : list float := [0; 1e308]%float.
Definition q_overflow : list float := [1e308; 1e308]%float.

(** Inputs whose sums are not rounded: multiples of 2^-4 that add up
    to 1. *)
Definition p_dyadic : list float :=
  [0; 0.125; 0.125; 0.0625; 0.125; 0.1875]%float.
Definition q_dyadic : list float :=
  [0.0625; 0.0625; 0.0625; 0.0625; 0.0625; 0.0625]%float.

(** ** The recurrence of the tables *)

Section RecurrenceDefs.
Context {D : Type} `{Number D}.
Variables (p q : list D).

(** [p[k]] and [q[k]] inside the vectors. *)
Definition pv (k : nat) : D := default dzero (p !! k).
Definition qv (k : nat) : D := default dzero (q !! k).

(** Weight of the interval of [l] keys that starts at key [i]. *)
Fixpoint W (i l : nat) : D :=
  match l with
  | O => qv (i - 1)
  | S l' => add (add (W i l') (pv (i + l'))) (qv (i + l'))
  end.

(** One step of the scan for the best root: [acc] is the pair of
    [e[i][j]] and [root[i][j]]. *)
Definition scan_step (cost : nat -> D) (acc : D * nat) (r : nat) : D * nat :=
  if ltb (cost r) acc.1 then (cost r, r) else acc.

Definition scan (cost : nat -> D) (i l : nat) : D * nat :=
  fold_left (scan_step cost) (seq i l) (dmax, 0).

(** Cost and root of the interval of [l] keys that starts at key [i]. *)
Fixpoint ER (fuel i l : nat) : D * nat :=
  match fuel, l with
  | S fuel', S _ =>
      scan (fun r => add (add (ER fuel' i (r - i)).1
                              (ER fuel' (r + 1) (i + l - 1 - r)).1) (W i l)) i l
  | _, _ => (qv (i - 1), 0)
  end.

Definition E (i l : nat) : D := (ER l i l).1.
Definition R (i l : nat) : nat := (ER l i l).2.

Definition cand (i l r : nat) : D :=
  add (add (E i (r - i)) (E (r + 1) (i + l - 1 - r))) (W i l).

End RecurrenceDefs.

(** ** Valid probabilities *)

(** [0 <= x]: not negative and no NaN. *)
Definition nonneg (x : float) : bool := (0 <=? x)%float.

(** The probabilities [p[1..n]] and [q[0..n]] are non-negative (and so no
    NaN). *)
Definition valid_probabilities (p q : list float) (n : nat) : bool :=
  forallb nonneg (take n (drop 1 p)) && forallb nonneg (take (n + 1) q).

(** ** Weights *)

(** The terms [p[i]; q[i]; ...; p[j]; q[j]] that follow [q[i-1]] in the
    weight of the interval [i..j]. *)
Definition weight_terms {D} `{Number D} (p q : list D) (i j : nat) : list D :=
  flat_map (fun k => [pv p k; qv q k]) (seq i (j + 1 - i)).

(** [sum(v[a..b])], added up from left to right. *)
Definition sum_range {D} `{Number D} (v : list D) (a b : nat) : D :=
  fold_left add (map (fun k => default dzero (v !! k)) (seq (a + 1) (b - a)))
    (default dzero (v !! a)).

(** ** Facts of a report *)

Definition fact_key (f : fact) : option Z :=
  match f with
  | KeyRoot r | KeyChild r _ _ => Some r
  | GapChild _ _ _ => None
  end.

Definition fact_gap (f : fact) : option Z :=
  match f with
  | GapChild j _ _ => Some j
  | _ => None
  end.

Definition fact_parent (f : fact) : option Z :=
  match f with
  | KeyRoot _ => None
  | KeyChild _ _ parent_r | GapChild _ _ parent_r => Some parent_r
  end.

(** The key indices, and the gap indices, of a report, in its order. *)
Definition key_facts (out : list fact) : list Z := omap fact_key out.
Definition gap_facts (out : list fact) : list Z := omap fact_gap out.

(** The first line the reporter prints for [i..j] under [parent_r]. *)
Definition first_fact (root : list (list nat)) (i j parent_r : Z)
    (is_left_child : bool) : option fact :=
  if (j <? i)%Z then Some (GapChild j is_left_child parent_r)
  else
    r ← getZ root i j;
    Some (if (parent_r =? 0)%Z then KeyRoot r
          else KeyChild r is_left_child parent_r).

(** Every fact but the first names as its parent a key reported before
    it. *)
Definition parents_first (out : list fact) : Prop :=
  forall pre f post, out = pre ++ f :: post -> pre <> [] ->
    exists x, fact_parent f = Some x /\ x ∈ key_facts pre.

(** [i <= root[i][j] <= j] for every interval of [1..n]. *)
Definition roots_in_range (root : list (list nat)) (n : nat) : bool :=
  forallb (fun a =>
    forallb (fun b =>
      match get2 root a b with
      | Some r => (a <=? r) && (r <=? b)
      | None => false
      end) (seq a (n + 1 - a))) (seq 1 n).

(** ** Tree shapes and their expected cost *)

(** A binary search tree on consecutive keys: its shape fixes which key
    is where, the gaps are its leaves. *)
Inductive shape :=
| Gap
| Key (l r : shape).

Fixpoint keys_in (s : shape) : nat :=
  match s with
  | Gap => 0
  | Key l r => keys_in l + 1 + keys_in r
  end.

(** Depths of the keys, and of the gaps, from left to right, for a tree
    whose root is at depth [d]. *)
Fixpoint key_depths (s : shape) (d : nat) : list nat :=
  match s with
  | Gap => []
  | Key l r => key_depths l (S d) ++ d :: key_depths r (S d)
  end.

Fixpoint gap_depths (s : shape) (d : nat) : list nat :=
  match s with
  | Gap => [d]
  | Key l r => gap_depths l (S d) ++ gap_depths r (S d)
  end.

Section ExpectedCost.
Context {D : Type} `{Number D}.
Variable times : nat -> D -> D.

(** [sum(depths[k] * v[first + k])]. *)
Fixpoint weighted_depths (depths : list nat) (v : nat -> D) (first : nat) : D :=
  match depths with
  | [] => dzero
  | d :: ds => add (times d (v first)) (weighted_depths ds v (S first))
  end.

(** [sum(depth(key_i) * p[i]) + sum(depth(gap_j) * q[j])] for the tree of
    shape [s] on the keys from [i] on, its root at depth [d]. *)
Definition depth_cost (p q : list D) (s : shape) (d i : nat) : D :=
  add (weighted_depths (key_depths s d) (pv p) i)
      (weighted_depths (gap_depths s d) (qv q) (i - 1)).

(** The root counts one comparison. *)
Definition expected_cost (p q : list D) (s : shape) : D :=
  depth_cost p q s 1 1.

End ExpectedCost.

Definition times_Qc (d : nat) (x : Qc) : Qc :=
  (Q2Qc (inject_Z (Z.of_nat d)) * x)%Qc.

Definition times_binary64 (d : nat) (x : float) : float :=
  (of_uint63 (Uint63.of_Z (Z.of_nat d)) * x)%float.

Section ShapeOfRoots.
Context {D : Type} `{Number D}.
Variables (p q : list D).

(** The shape the root table describes. *)
Fixpoint best_shape (fuel i l : nat) : shape :=
  match fuel, l with
  | S fuel', S _ =>
      let r := R p q i l in
      Key (best_shape fuel' i (r - i)) (best_shape fuel' (r + 1) (i + l - 1 - r))
  | _, _ => Gap
  end.

End ShapeOfRoots.

Section RecurrenceCost.
Variables (p q : list Qc).

(** The cost of a shape by the recurrence: the costs of the two
    subtrees and the weight of the interval. *)
Fixpoint recurrence_cost (s : shape) (i : nat) : Qc :=
  match s with
  | Gap => qv q (i - 1)
  | Key l r =>
      (recurrence_cost l i + recurrence_cost r (i + keys_in l + 1)
       + W p q i (keys_in s))%Qc
  end.

End RecurrenceCost.

(** ** Invariants of the loops *)

Section InvariantDefs.
Context {D : Type} `{Number D}.
Variables (p q : list D) (n : nat).

(** The cells of the interval of [k] keys from [a] hold the values of
    the recurrence. *)
Definition cell_ok (t : tables D) (a k : nat) : Prop :=
  get2 (tab_e t) a (a + k - 1) = Some (E p q a k) /\
  get2 (tab_w t) a (a + k - 1) = Some (W p q a k) /\
  (1 <= k -> get2 (tab_root t) a (a + k - 1) = Some (R p q a k)).

Definition allocated (t : tables D) : Prop :=
  forall a b, a <= n + 1 -> b <= n + 1 ->
    is_Some (get2 (tab_e t) a b) /\ is_Some (get2 (tab_w t) a b) /\
    is_Some (get2 (tab_root t) a b).

(** The state of the tables when the intervals of fewer than [l] keys,
    and those of [l] keys that start before [i], have been filled. *)
Definition filled (l i : nat) (t : tables D) : Prop :=
  allocated t /\
  (forall a k, 1 <= a -> a + k <= n + 1 -> k < l \/ (k = l /\ a < i) ->
     cell_ok t a k) /\
  (forall a k, 1 <= a -> a + k <= n + 1 -> 1 <= k ->
     l < k \/ (k = l /\ i <= a) ->
     get2 (tab_root t) a (a + k - 1) = Some 0).

(** The state inside the scan of the interval of [l] keys from [i],
    before candidate [r]. *)
Definition scanning (l i r : nat) (t : tables D) : Prop :=
  allocated t /\
  (forall a k, 1 <= a -> a + k <= n + 1 -> k < l \/ (k = l /\ a < i) ->
     cell_ok t a k) /\
  (forall a k, 1 <= a -> a + k <= n + 1 -> 1 <= k ->
     l < k \/ (k = l /\ i < a) ->
     get2 (tab_root t) a (a + k - 1) = Some 0) /\
  get2 (tab_w t) i (i + l - 1) = Some (W p q i l) /\
  get2 (tab_e t) i (i + l - 1) = Some (scan (cand p q i l) i (r - i)).1 /\
  get2 (tab_root t) i (i + l - 1) = Some (scan (cand p q i l) i (r - i)).2.

End InvariantDefs.

(** ** binary64 numbers by their specification *)

Definition SFis_nan (x : spec_float) : bool :=
  match x with S754_nan => true | _ => false end.

Definition SFnonneg (x : spec_float) : bool :=
  match x with
  | S754_zero _ | S754_infinity false | S754_finite false _ _ => true
  | _ => false
  end.

(** Case analysis on the comparisons of exponents and mantissas. *)
Ltac cmp_cases :=
  repeat match goal with
  | |- context [Z.compare ?a ?b] => destruct (Z.compare_spec a b); subst
  | H : context [Z.compare ?a ?b] |- _ => destruct (Z.compare_spec a b); subst
  | |- context [Pos.compare_cont Eq ?a ?b] =>
      change (Pos.compare_cont Eq a b) with (Pos.compare a b);
      destruct (Pos.compare_spec a b); subst
  | H : context [Pos.compare_cont Eq ?a ?b] |- _ =>
      change (Pos.compare_cont Eq a b) with (Pos.compare a b) in H;
      destruct (Pos.compare_spec a b); subst
  end.

(** ** Tables passed in from an earlier run *)

(** The tables as [optimalBST] has them after its three [resize]. *)
Definition resized {D} `{Number D} (n : nat) (e w : list (list D))
    (root : list (list nat)) : tables D :=
  Tables (resize (n + 2) (replicate (n + 2) dzero) e)
         (resize (n + 2) (replicate (n + 2) dzero) w)
         (resize (n + 2) (replicate (n + 2) 0) root).

(** Every row the vector already has holds at least [k] entries. *)
Definition rows_hold {A} (k : nat) (t : list (list A)) : Prop :=
  Forall (fun row => k <= length row) t.

(** The cell of an interval, empty or not, of the keys [1..n]. *)
Definition interval_cell (n a b : nat) : Prop :=
  1 <= a /\ a <= b + 1 /\ b <= n.

(** [root[i][j]] after the scan: the root the scan assigned, or what the
    cell held before the call when it assigned none. *)
Definition root_after (before : option nat) (r : nat) : option nat :=
  if decide (r = 0) then before else Some r.

Section ReuseDefs.
Context {D : Type} `{Number D}.
Variables (p q : list D) (n : nat) (root0 : list (list nat)).

Definition cell_ok_from (t : tables D) (a k : nat) : Prop :=
  get2 (tab_e t) a (a + k - 1) = Some (E p q a k) /\
  get2 (tab_w t) a (a + k - 1) = Some (W p q a k) /\
  (1 <= k -> get2 (tab_root t) a (a + k - 1)
             = root_after (get2 root0 a (a + k - 1)) (R p q a k)).

(** The cells the run indexes exist. *)
Definition holds_cells (t : tables D) : Prop :=
  forall a b, 1 <= a <= n + 1 -> b <= n ->
    is_Some (get2 (tab_e t) a b) /\ is_Some (get2 (tab_w t) a b) /\
    is_Some (get2 (tab_root t) a b).

Definition filled_from (l i : nat) (t : tables D) : Prop :=
  holds_cells t /\
  (forall a k, 1 <= a -> a + k <= n + 1 -> k < l \/ (k = l /\ a < i) ->
     cell_ok_from t a k) /\
  (forall a k, 1 <= a -> a + k <= n + 1 -> 1 <= k ->
     l < k \/ (k = l /\ i <= a) ->
     get2 (tab_root t) a (a + k - 1) = get2 root0 a (a + k - 1)).

Definition scanning_from (l i r : nat) (t : tables D) : Prop :=
  holds_cells t /\
  (forall a k, 1 <= a -> a + k <= n + 1 -> k < l \/ (k = l /\ a < i) ->
     cell_ok_from t a k) /\
  (forall a k, 1 <= a -> a + k <= n + 1 -> 1 <= k ->
     l < k \/ (k = l /\ i < a) ->
     get2 (tab_root t) a (a + k - 1) = get2 root0 a (a + k - 1)) /\
  get2 (tab_w t) i (i + l - 1) = Some (W p q i l) /\
  get2 (tab_e t) i (i + l - 1) = Some (scan (cand p q i l) i (r - i)).1 /\
  get2 (tab_root t) i (i + l - 1)
  = root_after (get2 root0 i (i + l - 1)) (scan (cand p q i l) i (r - i)).2.

End ReuseDefs.

Section FrameDefs.
Context {D : Type}.

(** The tables [t'] differ from [t] at most in the cells that [touched]
    names, in [tab_e] and [tab_w], and that [rooted] names, in
    [tab_root]; the rows keep their lengths. *)
Definition differ_in (touched rooted : nat -> nat -> Prop) (t t' : tables D)
  : Prop :=
  (forall a b, ~ touched a b ->
     get2 (tab_e t') a b = get2 (tab_e t) a b /\
     get2 (tab_w t') a b = get2 (tab_w t) a b) /\
  (forall a b, ~ rooted a b ->
     get2 (tab_root t') a b = get2 (tab_root t) a b) /\
  map length (tab_e t') = map length (tab_e t) /\
  map length (tab_w t') = map length (tab_w t) /\
  map length (tab_root t') = map length (tab_root t).

End FrameDefs.

(** The tables of [main] after a first run on the reference inputs, as a
    second call would receive them. *)
Definition tables5 : tables float :=
  default (Tables [] [] []) (BuildOptimalBST p5 q5 5).

(** ** The tree a report lists *)

(** The report of the search tree of shape [s] on the keys from [i] on,
    as the child on the side [is_left_child] of [parent_r]: the key at
    the root of a tree is the one that has the keys of the left subtree
    before it, and the gap at a leaf is the one before the next key. *)
Fixpoint shape_facts (s : shape) (i parent_r : Z) (is_left_child : bool)
  : list fact :=
  match s with
  | Gap => [GapChild (i - 1) is_left_child parent_r]
  | Key l r =>
      let k := (i + Z.of_nat (keys_in l))%Z in
      (if (parent_r =? 0)%Z then KeyRoot k
       else KeyChild k is_left_child parent_r)
      :: shape_facts l i k true ++ shape_facts r (k + 1) k false
  end.

(** The shape a root table describes for the [l] keys from [i] on. *)
Fixpoint shape_of_roots (fuel : nat) (root : list (list nat)) (i l : nat)
  : shape :=
  match fuel, l with
  | S fuel', S _ =>
      match get2 root i (i + l - 1) with
      | Some r =>
          Key (shape_of_roots fuel' root i (r - i))
              (shape_of_roots fuel' root (r + 1) (i + l - 1 - r))
      | None => Gap
      end
  | _, _ => Gap
  end.

(** A child is on the side of its parent where its index belongs: a key
    to the left is smaller and a key to the right larger than the
    parent; the gap to the left of key [k] is gap [k - 1], the gap to its
    right is gap [k]. *)
Definition on_its_side (f : fact) : Prop :=
  match f with
  | KeyRoot _ => True
  | KeyChild r true parent_r => (r < parent_r)%Z
  | KeyChild r false parent_r => (parent_r < r)%Z
  | GapChild j true parent_r => j = (parent_r - 1)%Z
  | GapChild j false parent_r => j = parent_r
  end.

(** The tree of shape [s] on the keys from [i] on has the key
    [root[a][b]] at the root of its subtree for the keys [a..b]. *)
Fixpoint follows_roots (root : list (list nat)) (s : shape) (i : nat)
  : Prop :=
  match s with
  | Gap => True
  | Key l r =>
      get2 root i (i + (keys_in l + 1 + keys_in r) - 1)
      = Some (i + keys_in l) /\
      follows_roots root l i /\
      follows_roots root r (i + keys_in l + 1)
  end.

(** ** Sums without rounding *)

(** The integer [N] with [x = N * 2^-k], for a binary64 number [x] that
    is 0 (not -0.0) or a positive multiple of [2^-k]: [x] being
    [m * 2^e], it is [m / 2^z] for [z = -(e + k)]. *)
Definition units (k : Z) (x : float) : option Z :=
  match Prim2SF x with
  | S754_zero false => Some 0%Z
  | S754_finite false m e =>
      let z := (- (e + k))%Z in
      if (0 <=? z)%Z && (Z.pos m mod 2 ^ z =? 0)%Z
      then Some (Z.pos m / 2 ^ z)%Z
      else None
  | _ => None
  end.

(** The weight of the interval of [l] keys from key [i] in units of
    [2^-k], when [q[i-1]] and the [p[j]], [q[j]] of its keys are 0 or
    positive multiples of [2^-k]. *)
Fixpoint unit_weight (k : Z) (p q : list float) (i l : nat) : option Z :=
  match l with
  | O => units k (qv q (i - 1))
  | S l' =>
      w ← unit_weight k p q i l';
      a ← units k (pv p (i + l'));
      b ← units k (qv q (i + l'));
      Some (w + a + b)%Z
  end.

(** No sum of the run is rounded: for some [0 <= k <= 1074] the inputs
    [p[1..n]] and [q[0..n]] are 0 or positive multiples of [2^-k], and
    their total, taken [2 n + 1] times, is less than [2^53] units. *)
Definition exact_inputs (k : Z) (p q : list float) (n : nat) : bool :=
  (0 <=? k)%Z && (k <=? 1074)%Z &&
  match unit_weight k p q 1 n with
  | Some total => (Z.of_nat (2 * n + 1) * total <? 2 ^ 53)%Z
  | None => false
  end.

(** [sum(depths[k] * v[first + k])] on the values of the binary64
    numbers [v[..]], as a rational number. *)
Fixpoint exact_weighted_depths (depths : list nat) (v : nat -> float)
    (first : nat) : Q :=
  match depths with
  | [] => 0
  | d :: ds =>
      inject_Z (Z.of_nat d) * exact_value (v first)
      + exact_weighted_depths ds v (S first)
  end.

(** [sum(depth(key_i) * p[i]) + sum(depth(gap_j) * q[j])] for the tree of
    shape [s] on the keys from 1 on, the root at depth 1, on the values
    of the binary64 numbers [p[i]] and [q[j]], as a rational number. *)
Definition exact_cost (p q : list float) (s : shape) : Q :=
  exact_weighted_depths (key_depths s 1) (pv p) 1
  + exact_weighted_depths (gap_depths s 1) (qv q) 0.

(** *** Notions of the proofs *)

(** The binary64 number [N * 2^-k], for [0 <= N < 2^53] and
    [0 <= k <= 1074], by its specification. *)
Definition repr (k N : Z) : spec_float :=
  match N with
  | Z.pos _ =>
      let f := fexp prec emax (Z.log2 N + 1 - k) in
      S754_finite false (Z.to_pos (N * 2 ^ (- k - f))) f
  | _ => S754_zero false
  end.

(** The rational number [N * 2^-k]. *)
Definition unit_value (k N : Z) : Q := inject_Z N * Qpower 2 (- k).

(** The values of binary64 numbers. *)
Definition exact_values (v : list float) : list Qc :=
  (fun x => Q2Qc (exact_value x)) <$> v.

(** A binary64 number that is [N * 2^-k] for some [0 <= N < 2^53], and
    its value. *)
Definition unrounded (k : Z) (x : float) (c : Qc) : Prop :=
  exists N, (0 <= N < 2 ^ 53)%Z /\ Prim2SF x = repr k N /\
            c = Q2Qc (unit_value k N).

(** The shapes of the trees on [n] keys, for [n <= fuel]. *)
Fixpoint shapes (fuel n : nat) : list shape :=
  match fuel, n with
  | S fuel', S m =>
      flat_map (fun a =>
        flat_map (fun l => map (Key l) (shapes fuel' (m - a)))
          (shapes fuel' a)) (seq 0 (S m))
  | _, _ => [Gap]
  end.

(** [x < cost(s)] for every shape [s] of the list, the cost on the
    values of the inputs. *)
Definition all_above (p q : list float) (x : Q) (l : list shape) : bool :=
  forallb (fun s => match (x ?= exact_cost p q s)%Q with
                    | Lt => true
                    | _ => false
                    end) l.

(** * The sibling programs *)

(** ** [int] arithmetic *)

Definition INT_MAX : Z := 2147483647.
Definition INT_MIN : Z := (-2147483648)%Z.

(** The value of an [int] expression whose mathematical value is [z]:
    signed overflow is undefined behaviour, the failure [None]. *)
Definition int (z : Z) : option Z :=
  if decide (INT_MIN <= z <= INT_MAX)%Z then Some z else None.

(** ** Longest common subsequence (src/lcs-length.cpp) *)

Module LCS.

Inductive Direction := NONE | DIAGONAL | UP | LEFT.

(** The two tables the function leaves in its reference parameters. *)
Record tables := Tables {
  tab_c : list (list Z);
  tab_b : list (list Direction)
}.

(** Body of the loop over [j] (lines 63-95). *)
Definition cell_step (X Y : list Ascii.ascii) (i j : nat) (t : tables)
  : option tables :=
  x ← X !! (i - 1);
  y ← Y !! (j - 1);
  if Ascii.eqb x y then
    diag ← get2 (tab_c t) (i - 1) (j - 1);
    v ← int (diag + 1);
    c' ← set2 (tab_c t) i j v;
    b' ← set2 (tab_b t) i j DIAGONAL;
    Some (Tables c' b')
  else
    up ← get2 (tab_c t) (i - 1) j;
    left ← get2 (tab_c t) i (j - 1);
    if (left <=? up)%Z then
      c' ← set2 (tab_c t) i j up;
      b' ← set2 (tab_b t) i j UP;
      Some (Tables c' b')
    else
      c' ← set2 (tab_c t) i j left;
      b' ← set2 (tab_b t) i j LEFT;
      Some (Tables c' b').

(** [lcsLength] (lines 30-99). The tables passed in are replaced by new
    ones of (m + 1) x (n + 1) entries, so the function has no table
    argument here; [m + 1] and [n + 1] are [int] values. *)
Definition lcsLength (X Y : list Ascii.ascii) : option tables :=
  let m := length X in
  let n := length Y in
  _ ← int (Z.of_nat m + 1);
  _ ← int (Z.of_nat n + 1);
  let c := replicate (m + 1) (replicate (n + 1) 0%Z) in
  let b := replicate (m + 1) (replicate (n + 1) NONE) in
  c ← for_each (seq 0 (m + 1)) (fun i c => set2 c i 0 0%Z) c;
  c ← for_each (seq 0 (n + 1)) (fun j c => set2 c 0 j 0%Z) c;
  for_each (seq 1 m) (fun i => for_each (seq 1 n) (cell_step X Y i))
    (Tables c b).

(** [printLCS] (lines 110-138), for indices that are not negative; the
    result is the text printed. [fuel] bounds the depth of the calls. *)
Fixpoint printLCS (fuel : nat) (b : list (list Direction)) (X : list Ascii.ascii)
    (i j : nat) : option (list Ascii.ascii) :=
  match fuel with
  | O => None
  | S fuel' =>
      if (i =? 0) || (j =? 0) then Some []
      else
        d ← get2 b i j;
        match d with
        | DIAGONAL =>
            out ← printLCS fuel' b X (i - 1) (j - 1);
            x ← X !! (i - 1);
            Some (out ++ [x])
        | UP => printLCS fuel' b X (i - 1) j
        | _ => printLCS fuel' b X i (j - 1)
        end
  end.

(** The recurrence of the table [c], on the prefixes of [i] and [j]
    characters. *)
Fixpoint lcs (X Y : list Ascii.ascii) (i : nat) : nat -> Z :=
  match i with
  | O => fun _ => 0%Z
  | S i' =>
      fix row (j : nat) : Z :=
        match j with
        | O => 0%Z
        | S j' =>
            match X !! i', Y !! j' with
            | Some x, Some y =>
                if Ascii.eqb x y then (lcs X Y i' j' + 1)%Z
                else if (row j' <=? lcs X Y i' j)%Z then lcs X Y i' j
                else row j'
            | _, _ => 0%Z
            end
        end
  end.

(** The arrow of the cell [(i, j)]. *)
Definition arrow (X Y : list Ascii.ascii) (i j : nat) : Direction :=
  match i, j with
  | S i', S j' =>
      match X !! i', Y !! j' with
      | Some x, Some y =>
          if Ascii.eqb x y then DIAGONAL
          else if (lcs X Y i j' <=? lcs X Y i' j)%Z then UP
          else LEFT
      | _, _ => NONE
      end
  | _, _ => NONE
  end.

(** The state of the tables when the rows before [i], and the cells of
    row [i] before column [j], have been filled. *)
Definition filled (X Y : list Ascii.ascii) (i j : nat) (t : tables) : Prop :=
  (forall a b, a <= length X -> b <= length Y ->
     is_Some (get2 (tab_c t) a b) /\ is_Some (get2 (tab_b t) a b)) /\
  (forall a b, a <= length X -> b <= length Y ->
     a = 0 \/ b = 0 \/ a < i \/ (a = i /\ b < j) ->
     get2 (tab_c t) a b = Some (lcs X Y a b) /\
     get2 (tab_b t) a b = Some (arrow X Y a b)) /\
  (forall a b, a <= length X -> b <= length Y ->
     1 <= a -> 1 <= b -> i < a \/ (a = i /\ j <= b) ->
     get2 (tab_b t) a b = Some NONE).

(** The strings of the three tests of [main] (lines 156-200). *)
Definition X1 : list Ascii.ascii := list_ascii_of_string "ABCBDAB".
Definition Y1 : list Ascii.ascii := list_ascii_of_string "BDCABA".
Definition X2 : list Ascii.ascii := list_ascii_of_string "AGGTAB".
Definition Y2 : list Ascii.ascii := list_ascii_of_string "GXTXAYB".
Definition X3 : list Ascii.ascii := list_ascii_of_string "ACCGGTCGAGT".
Definition Y3 : list Ascii.ascii := list_ascii_of_string "GTCGTTCGGAAT".

(** One test of [main] (lines 163-171): the length read from
    [c[m][n]] and the text [printLCS] prints. *)
Definition test (X Y : list Ascii.ascii) : option (Z * string) :=
  t ← lcsLength X Y;
  lcs_len ← get2 (tab_c t) (length X) (length Y);
  out ← printLCS (length X + length Y + 1) (tab_b t) X (length X) (length Y);
  Some (lcs_len, string_of_list_ascii out).

(** [C] is a subsequence of both. *)
Definition common (C X Y : list Ascii.ascii) : Prop :=
  sublist C X /\ sublist C Y.

End LCS.

(** ** The 0/1 knapsack (src/knapsack_problem.cpp) *)

(** [sum(l)] on integers. *)
Definition sumZ (l : list Z) : Z := foldr Z.add 0%Z l.

(** [t[i][w]] for an [int] column index. *)
Definition getZ2 {A} (t : list (list A)) (i : nat) (w : Z) : option A :=
  row ← t !! i; lookupZ row w.

Module Knapsack.

Inductive Decision := NONE | SKIP | KEEP.

(** The two tables the function fills through its reference
    parameters. *)
Record tables := Tables {
  tab_K : list (list Z);
  tab_d : list (list Decision)
}.

(** Body of the loop over [w] (lines 41-71). *)
Definition cell_step (wt val : list Z) (i w : nat) (t : tables)
  : option tables :=
  if (i =? 0) || (w =? 0) then
    K' ← set2 (tab_K t) i w 0%Z;
    d' ← set2 (tab_d t) i w NONE;
    Some (Tables K' d')
  else
    wi ← wt !! (i - 1);
    if (wi <=? Z.of_nat w)%Z then
      val_exclude ← get2 (tab_K t) (i - 1) w;
      vi ← val !! (i - 1);
      rest_w ← int (Z.of_nat w - wi);
      rest ← getZ2 (tab_K t) (i - 1) rest_w;
      val_include ← int (vi + rest);
      if (val_exclude <? val_include)%Z then
        K' ← set2 (tab_K t) i w val_include;
        d' ← set2 (tab_d t) i w KEEP;
        Some (Tables K' d')
      else
        K' ← set2 (tab_K t) i w val_exclude;
        d' ← set2 (tab_d t) i w SKIP;
        Some (Tables K' d')
    else
      up ← get2 (tab_K t) (i - 1) w;
      K' ← set2 (tab_K t) i w up;
      d' ← set2 (tab_d t) i w SKIP;
      Some (Tables K' d').

(** [knapsack01] (lines 28-74), for a capacity and a number of items
    that are not negative; [n + 1] and [W + 1] are [int] values. *)
Definition knapsack01 (W : nat) (wt val : list Z) (n : nat)
    (K : list (list Z)) (d : list (list Decision)) : option tables :=
  _ ← int (Z.of_nat n + 1);
  _ ← int (Z.of_nat W + 1);
  let K := resize (n + 1) (replicate (W + 1) 0%Z) K in
  let d := resize (n + 1) (replicate (W + 1) NONE) d in
  for_each (seq 0 (n + 1))
    (fun i => for_each (seq 0 (W + 1)) (cell_step wt val i)) (Tables K d).

(** [printSelectedItems] (lines 84-108), for an item index that is not
    negative. The result is the list of the lines printed, each with the
    number of the item, its weight and its value. *)
Fixpoint printSelectedItems (d : list (list Decision)) (wt val : list Z)
    (i : nat) (w : Z) : option (list (nat * Z * Z)) :=
  match i with
  | O => Some []
  | S i' =>
      if (w =? 0)%Z then Some []
      else
        dec ← getZ2 d i w;
        match dec with
        | KEEP =>
            wi ← wt !! i';
            w' ← int (w - wi);
            items ← printSelectedItems d wt val i' w';
            vi ← val !! i';
            Some (items ++ [(i, wi, vi)])
        | _ => printSelectedItems d wt val i' w
        end
  end.

(** The recurrence of the table [K]: the entry for the first [i] items
    and the capacity [w]. *)
Fixpoint knap (wt val : list Z) (i w : nat) : Z :=
  match i with
  | O => 0%Z
  | S i' =>
      if w =? 0 then 0%Z
      else
        match wt !! i', val !! i' with
        | Some wi, Some vi =>
            if (wi <=? Z.of_nat w)%Z then
              let val_exclude := knap wt val i' w in
              let val_include :=
                (vi + knap wt val i' (Z.to_nat (Z.of_nat w - wi)))%Z in
              if (val_exclude <? val_include)%Z then val_include
              else val_exclude
            else knap wt val i' w
        | _, _ => 0%Z
        end
  end.

(** The decision of the cell [(i, w)]. *)
Definition choice (wt val : list Z) (i w : nat) : Decision :=
  match i with
  | O => NONE
  | S i' =>
      if w =? 0 then NONE
      else
        match wt !! i', val !! i' with
        | Some wi, Some vi =>
            if (wi <=? Z.of_nat w)%Z then
              if (knap wt val i' w
                  <? vi + knap wt val i' (Z.to_nat (Z.of_nat w - wi)))%Z
              then KEEP else SKIP
            else SKIP
        | _, _ => NONE
        end
  end.

(** The state of the tables when the rows before [i], and the cells of
    row [i] before column [w], have been filled. *)
Definition filled (W : nat) (wt val : list Z) (n i w : nat) (t : tables)
  : Prop :=
  (forall a b, a <= n -> b <= W ->
     is_Some (get2 (tab_K t) a b) /\ is_Some (get2 (tab_d t) a b)) /\
  (forall a b, a <= n -> b <= W -> a < i \/ (a = i /\ b < w) ->
     get2 (tab_K t) a b = Some (knap wt val a b) /\
     get2 (tab_d t) a b = Some (choice wt val a b)).

(** The items as pairs of a weight and a value; a selection of items is
    a subsequence of them. *)
Definition items (wt val : list Z) : list (Z * Z) := zip wt val.
Definition weight (sel : list (Z * Z)) : Z := sumZ (sel.*1).
Definition value (sel : list (Z * Z)) : Z := sumZ (sel.*2).

(** A printed line holds the weight and the value of its item. *)
Definition line_ok (wt val : list Z) (line : nat * Z * Z) : Prop :=
  wt !! (line.1.1 - 1) = Some line.1.2 /\
  val !! (line.1.1 - 1) = Some line.2.

(** The selection that printed lines stand for. *)
Definition selected (out : list (nat * Z * Z)) : list (Z * Z) :=
  (fun line => (line.1.2, line.2)) <$> out.

(** The weights and values of the three tests of [main]
    (lines 123-170). *)
Definition val1 : list Z := [60; 100; 120]%Z.
Definition wt1 : list Z := [10; 20; 30]%Z.
Definition wt2 : list Z := [5; 4; 3]%Z.
Definition val2 : list Z := [10; 9; 9]%Z.
Definition wt3 : list Z := [12; 2; 4; 1; 2]%Z.
Definition val3 : list Z := [40; 50; 30; 10; 5]%Z.

(** One test of [main]: the call on the tables as the test before left
    them, the value read from [K[n][W]] and the lines printed. *)
Definition test (W : nat) (wt val : list Z) (n : nat) (t : tables)
  : option (tables * (Z * list (nat * Z * Z))) :=
  t' ← knapsack01 W wt val n (tab_K t) (tab_d t);
  k ← get2 (tab_K t') n W;
  out ← printSelectedItems (tab_d t') wt val n (Z.of_nat W);
  Some (t', (k, out)).

(** The three tests of [main] (lines 118-179), on the same two tables. *)
Definition main : option (list (Z * list (nat * Z * Z))) :=
  r1 ← test 50 wt1 val1 3 (Tables [] []);
  r2 ← test 7 wt2 val2 3 r1.1;
  r3 ← test 15 wt3 val3 5 r2.1;
  Some [r1.2; r2.2; r3.2].

(** Two items, the first of weight 0. *)
Definition wt_weightless : list Z := [0; 3]%Z.
Definition val_weightless : list Z := [5; 1]%Z.

End Knapsack.

(** ** Rod cutting (src/rod_cutting.cpp) *)

(** [v[i] = x] on a vector. *)
Definition set1 {A} (v : list A) (i : nat) (x : A) : option (list A) :=
  if decide (i < length v) then Some (<[i := x]> v) else None.

Module RodCutting.

(** Body of the loop over the length [i] of the first piece
    (lines 38-50). *)
Definition piece_step (prices val : list Z) (m j i : nat) (max_val : Z)
  : option Z :=
  if i <=? m then
    price ← prices !! (i - 1);
    rest ← val !! (j - i);
    revenue ← int (price + rest);
    Some (Z.max max_val revenue)
  else Some max_val.

(** Body of the loop over the length [j] of the rod (lines 32-55). *)
Definition length_step (prices : list Z) (m j : nat) (val : list Z)
  : option (list Z) :=
  max_val ← for_each (seq 1 j) (piece_step prices val m j) INT_MIN;
  set1 val j (if (max_val =? INT_MIN)%Z then 0%Z else max_val).

(** [cutRod] (lines 19-59). A vector of negative size is not
    constructed: the constructor throws, and the call gives no result. *)
Definition cutRod (prices : list Z) (n : Z) : option Z :=
  size ← int (n + 1);
  if (size <? 0)%Z then None
  else
    val ← set1 (replicate (Z.to_nat size) 0%Z) 0 0%Z;
    _ ← int (Z.of_nat (length prices));
    val ← for_each (seq 1 (Z.to_nat n))
            (length_step prices (length prices)) val;
    lookupZ val n.

(** The recurrence: the running maximum of the inner loop, the entry of
    the length [j], and the entries [val[0..j]]. *)
Definition best_piece (prices val : list Z) (j : nat) (max_val : Z) (i : nat)
  : Z :=
  if i <=? length prices then
    Z.max max_val
      (default 0%Z (prices !! (i - 1)) + default 0%Z (val !! (j - i)))
  else max_val.

Definition best (prices val : list Z) (j : nat) : Z :=
  let max_val := fold_left (best_piece prices val j) (seq 1 j) INT_MIN in
  if (max_val =? INT_MIN)%Z then 0%Z else max_val.

Fixpoint revenues (prices : list Z) (j : nat) : list Z :=
  match j with
  | O => [0%Z]
  | S j' =>
      let val := revenues prices j' in
      val ++ [best prices val j]
  end.

(** A way to cut a rod of length [n]: the lengths of its pieces, each
    one a length that has a price. *)
Definition cutting (prices : list Z) (n : nat) (pieces : list nat) : Prop :=
  Forall (fun len => 1 <= len <= length prices) pieces /\
  sum_list pieces = n.

Definition revenue (prices : list Z) (pieces : list nat) : Z :=
  sumZ ((fun len => default 0%Z (prices !! (len - 1))) <$> pieces).

(** The prices of [main] (line 78). *)
Definition prices : list Z := [1; 5; 8; 9; 10; 17; 17; 20; 24; 30]%Z.

End RodCutting.

(** ** Matrix chain multiplication (src/matrix_chain.cpp) *)

Module MatrixChain.

(** Body of the loop over the split point [k] (lines 63-80). The cost is
    [(m[i][k] + m[k+1][j]) + ((p[i-1] * p[k]) * p[j])], each operation on
    [int]. *)
Definition split_step (p : list Z) (i j k : nat) (m_table : list (list Z))
  : option (list (list Z)) :=
  left ← get2 m_table i k;
  right ← get2 m_table (k + 1) j;
  both ← int (left + right);
  pi ← p !! (i - 1);
  pk ← p !! k;
  pj ← p !! j;
  rows_by_cols ← int (pi * pk);
  product ← int (rows_by_cols * pj);
  cost ← int (both + product);
  mij ← get2 m_table i j;
  if (cost <? mij)%Z then set2 m_table i j cost else Some m_table.

(** Body of the loop over the first matrix [i] of the chains of [L]
    matrices (lines 50-81), with [j = i + L - 1]. *)
Definition chain_step (p : list Z) (L i : nat) (m_table : list (list Z))
  : option (list (list Z)) :=
  let j := i + L - 1 in
  m_table ← set2 m_table i j INT_MAX;
  for_each (seq i (j - i)) (split_step p i j) m_table.

(** Body of the loop over the length [L] of the chains (lines 46-82). *)
Definition length_step (p : list Z) (n L : nat) (m_table : list (list Z))
  : option (list (list Z)) :=
  for_each (seq 1 (n - L + 1)) (chain_step p L) m_table.

(** [matrixChainOrder] (lines 17-86); [p.size() - 1] and [n + 1] are
    [int] values. *)
Definition matrixChainOrder (p : list Z) : option Z :=
  if length p <? 2 then Some 0%Z
  else
    _ ← int (Z.of_nat (length p) - 1);
    _ ← int (Z.of_nat (length p));
    let n := length p - 1 in
    let m_table := replicate (n + 1) (replicate (n + 1) 0%Z) in
    m_table ← for_each (seq 1 n) (fun i m_table => set2 m_table i i 0%Z)
                m_table;
    m_table ← for_each (seq 2 (n - 1)) (length_step p n) m_table;
    get2 m_table 1 n.

(** The dimension [p[k]] inside the vector. *)
Definition dim (p : list Z) (k : nat) : Z := default 0%Z (p !! k).

(** One step of the scan for the cheapest split: [acc] is [m[i][j]]. *)
Definition scan_step (cost : nat -> Z) (acc : Z) (k : nat) : Z :=
  if (cost k <? acc)%Z then cost k else acc.

(** The recurrence of the table: the entry of the chain of [L] matrices
    that starts at matrix [i]. *)
Fixpoint mc (p : list Z) (fuel i L : nat) : Z :=
  match fuel, L with
  | S fuel', S (S _) =>
      fold_left
        (scan_step (fun k =>
           (mc p fuel' i (k + 1 - i) + mc p fuel' (k + 1) (i + L - 1 - k)
            + dim p (i - 1) * dim p k * dim p (i + L - 1))%Z))
        (seq i (L - 1)) INT_MAX
  | _, _ => 0%Z
  end.

Definition MC (p : list Z) (i L : nat) : Z := mc p L i L.

(** The cost of the split of the chain after matrix [k]. *)
Definition split_cost (p : list Z) (i L k : nat) : Z :=
  (MC p i (k + 1 - i) + MC p (k + 1) (i + L - 1 - k)
   + dim p (i - 1) * dim p k * dim p (i + L - 1))%Z.

(** A way to parenthesize a chain of matrices, and the number of scalar
    multiplications it takes for the chain that starts at matrix [i]. *)
Inductive chain :=
| Matrix
| Product (l r : chain).

Fixpoint matrices (c : chain) : nat :=
  match c with
  | Matrix => 1
  | Product l r => matrices l + matrices r
  end.

Fixpoint multiplications (p : list Z) (c : chain) (i : nat) : Z :=
  match c with
  | Matrix => 0%Z
  | Product l r =>
      (multiplications p l i + multiplications p r (i + matrices l)
       + dim p (i - 1) * dim p (i + matrices l - 1)
         * dim p (i + matrices c - 1))%Z
  end.

(** The state of the table when the chains of fewer than [L] matrices,
    and those of [L] matrices that start before [i], have been
    filled. *)
Definition filled (p : list Z) (n L i : nat) (m_table : list (list Z))
  : Prop :=
  (forall a b, a <= n -> b <= n -> is_Some (get2 m_table a b)) /\
  (forall a k, 1 <= a -> 1 <= k -> a + k <= n + 1 ->
     k < L \/ (k = L /\ a < i) ->
     get2 m_table a (a + k - 1) = Some (MC p a k)).

(** The state inside the scan of the chain of [L] matrices from [i],
    before the split point [k]. *)
Definition scanning (p : list Z) (n L i k : nat) (m_table : list (list Z))
  : Prop :=
  (forall a b, a <= n -> b <= n -> is_Some (get2 m_table a b)) /\
  (forall a k', 1 <= a -> 1 <= k' -> a + k' <= n + 1 ->
     k' < L \/ (k' = L /\ a < i) ->
     get2 m_table a (a + k' - 1) = Some (MC p a k')) /\
  get2 m_table i (i + L - 1)
  = Some (fold_left (scan_step (split_cost p i L)) (seq i (k - i)) INT_MAX).

(** The dimensions of the two tests of [main] (lines 138 and 166). *)
Definition dims : list Z := [30; 35; 15; 5; 10; 20; 25]%Z.
Definition dims2 : list Z := [10; 20; 30; 10]%Z.

End MatrixChain.

(** * Part II: lemmas and theorems *)

(** ** Reading and writing table cells *)

Section Cells.
Context {A : Type}.
Implicit Types (t : list (list A)) (x : A).

Lemma set2_is_Some t i j x :
  is_Some (get2 t i j) -> is_Some (set2 t i j x).
Proof.
  unfold get2, set2. destruct (t !! i) as [row|]; [|by intros [? ?]].
  intros Hj. apply lookup_lt_is_Some_1 in Hj.
  by rewrite decide_True.
Qed.

Lemma set2_inv t i j x t' :
  set2 t i j x = Some t' ->
  exists row, t !! i = Some row /\ j < length row /\
              t' = <[i := <[j := x]> row]> t.
Proof.
  unfold set2. destruct (t !! i) as [row|]; [|done].
  case_decide; [|done]. intros [= <-]. eauto.
Qed.

Lemma get2_set2_eq t i j x t' :
  set2 t i j x = Some t' -> get2 t' i j = Some x.
Proof.
  intros (row & Hi & Hj & ->)%set2_inv. unfold get2.
  rewrite list_lookup_insert_eq by (by eapply lookup_lt_Some).
  by rewrite list_lookup_insert_eq.
Qed.

Lemma get2_set2_ne t i j x t' a b :
  set2 t i j x = Some t' -> (a, b) <> (i, j) ->
  get2 t' a b = get2 t a b.
Proof.
  intros (row & Hi & Hj & ->)%set2_inv Hne. unfold get2.
  destruct (decide (a = i)) as [->|Hai].
  - rewrite list_lookup_insert_eq by (by eapply lookup_lt_Some).
    rewrite Hi. apply list_lookup_insert_ne. congruence.
  - by rewrite list_lookup_insert_ne.
Qed.

Lemma get2_replicate (n m : nat) x a b :
  a < n -> b < m -> get2 (replicate n (replicate m x)) a b = Some x.
Proof.
  intros Ha Hb. unfold get2.
  rewrite lookup_replicate_2 by done. by apply lookup_replicate_2.
Qed.

Lemma resize_nil (n : nat) x : resize n x [] = replicate n x.
Proof. unfold resize. rewrite take_nil. simpl. by rewrite Nat.sub_0_r. Qed.

Lemma get2_set2_is_Some t i j x t' a b :
  set2 t i j x = Some t' -> is_Some (get2 t a b) -> is_Some (get2 t' a b).
Proof.
  intros Hs Hab. destruct (decide ((a, b) = (i, j))) as [Heq|Hne].
  - injection Heq as -> ->. rewrite (get2_set2_eq _ _ _ _ _ Hs). done.
  - rewrite (get2_set2_ne _ _ _ _ _ _ _ Hs) by done. done.
Qed.

End Cells.

(** ** Loops *)

(** A loop over [start, start + len) runs to its end and establishes
    [P (start + len)] when [P start] holds at its entry and every
    iteration preserves it. *)
Lemma for_each_seq {S} (P : nat -> S -> Prop) body (start len : nat) (s : S) :
  P start s ->
  (forall k s0, start <= k < start + len -> P k s0 ->
     exists s1, body k s0 = Some s1 /\ P (k + 1) s1) ->
  exists s', for_each (seq start len) body s = Some s' /\ P (start + len) s'.
Proof.
  revert start s. induction len as [|len IH]; intros start s HP Hstep.
  - exists s. rewrite Nat.add_0_r. done.
  - destruct (Hstep start s) as (s1 & Hb & HP1); [lia|done|].
    simpl. rewrite Hb.
    destruct (IH (start + 1) s1) as (s' & Hf & HP').
    + done.
    + intros k s0 Hk. apply Hstep. lia.
    + exists s'. replace (Datatypes.S start) with (start + 1) by lia.
      split; [done|].
      by replace (start + Datatypes.S len) with (start + 1 + len) by lia.
Qed.

(** ** The recurrence the tables obey *)

Section Recurrence.
Context {D : Type} `{Number D}.
Variables (p q : list D).

Lemma scan_S cost i l :
  scan cost i (S l) = scan_step cost (scan cost i l) (i + l).
Proof. unfold scan. by rewrite seq_S, fold_left_app. Qed.

Lemma scan_ext cost cost' i l :
  (forall r, i <= r < i + l -> cost r = cost' r) ->
  scan cost i l = scan cost' i l.
Proof.
  induction l as [|l IH]; intros Hc; [done|].
  rewrite !scan_S, IH by (intros; apply Hc; lia).
  unfold scan_step. by rewrite Hc by lia.
Qed.

Lemma ER_fuel f f' i l :
  l <= f -> l <= f' -> ER p q f i l = ER p q f' i l.
Proof.
  revert f' i l. induction f as [|f IH]; intros f' i l Hf Hf'.
  - assert (l = 0) as -> by lia. by destruct f'.
  - destruct l as [|l]; [by destruct f'|].
    destruct f' as [|f']; [lia|]. simpl.
    apply scan_ext. intros r Hr.
    rewrite (IH f' i (r - i)), (IH f' (r + 1)) by lia. done.
Qed.

Lemma E_0 i : E p q i 0 = qv q (i - 1).
Proof. done. Qed.

Lemma ER_S i l :
  ER p q (S l) i (S l) = scan (cand p q i (S l)) i (S l).
Proof.
  simpl. apply scan_ext. intros r Hr. unfold cand, E.
  rewrite (ER_fuel l (r - i) i), (ER_fuel l (i + S l - 1 - r)) by lia. done.
Qed.

Lemma E_S i l : E p q i (S l) = (scan (cand p q i (S l)) i (S l)).1.
Proof. unfold E. by rewrite ER_S. Qed.

Lemma R_S i l : R p q i (S l) = (scan (cand p q i (S l)) i (S l)).2.
Proof. unfold R. by rewrite ER_S. Qed.

End Recurrence.

Section Refinement.
Context {D : Type} `{Number D}.
Variables (p q : list D) (n : nat).
Hypothesis Hp : n + 1 <= length p.
Hypothesis Hq : n + 1 <= length q.

Lemma lookup_pv k : k <= n -> p !! k = Some (pv p k).
Proof.
  intros Hk. unfold pv. destruct (lookup_lt_is_Some_2 p k) as [x ->]; [lia|done].
Qed.

Lemma lookup_qv k : k <= n -> q !! k = Some (qv q k).
Proof.
  intros Hk. unfold qv. destruct (lookup_lt_is_Some_2 q k) as [x ->]; [lia|done].
Qed.

Lemma root_step_scanning l i r t :
  1 <= i -> 1 <= l -> i + l <= n + 1 -> i <= r < i + l ->
  scanning p q n l i r t ->
  exists t', root_step i (i + l - 1) r t = Some t' /\ scanning p q n l i (r + 1) t'.
Proof.
  intros Hi Hl Hil Hr (Hsh & Hdone & Hzero & Hw & He & Hroot).
  unfold root_step.
  destruct (Hdone i (r - i)) as (Hel & _ & _); [lia..|].
  replace (i + (r - i) - 1) with (r - 1) in Hel by lia.
  destruct (Hdone (r + 1) (i + l - 1 - r)) as (Her & _ & _); [lia..|].
  replace (r + 1 + (i + l - 1 - r) - 1) with (i + l - 1) in Her by lia.
  rewrite Hel, Her, Hw, He. simpl.
  fold (cand p q i l r).
  assert (scan (cand p q i l) i (r + 1 - i)
          = scan_step (cand p q i l) (scan (cand p q i l) i (r - i)) r) as Hscan.
  { replace (r + 1 - i) with (Datatypes.S (r - i)) by lia.
    rewrite scan_S. by replace (i + (r - i)) with r by lia. }
  unfold scan_step in Hscan.
  destruct (ltb (cand p q i l r) (scan (cand p q i l) i (r - i)).1) eqn:Hlt.
  - destruct (set2_is_Some (tab_e t) i (i + l - 1) (cand p q i l r)) as [e' He'].
    { apply Hsh; lia. }
    destruct (set2_is_Some (tab_root t) i (i + l - 1) r) as [root' Hroot'].
    { apply Hsh; lia. }
    rewrite He', Hroot'. simpl. eexists; split; [done|].
    assert (forall a k, 1 <= a -> (a, k) <> (i, l) ->
                        (a, a + k - 1) <> (i, i + l - 1)) as Hne.
    { intros a k Ha Hak [= -> ?]. apply Hak. f_equal. lia. }
    split_and!; cbn [tab_e tab_w tab_root].
    + intros a b Ha Hb. destruct (Hsh a b Ha Hb) as (? & ? & ?).
      split_and!; [|done|]; by eapply get2_set2_is_Some.
    + intros a k Ha Hak Hk. destruct (Hdone a k Ha Hak Hk) as (? & ? & ?).
      assert ((a, k) <> (i, l)) by (intros [= -> ->]; lia).
      split_and!; [|done|].
      * rewrite (get2_set2_ne _ _ _ _ _ _ _ He') by auto. done.
      * intros. rewrite (get2_set2_ne _ _ _ _ _ _ _ Hroot') by auto. auto.
    + intros a k Ha Hak Hk1 Hk.
      assert ((a, k) <> (i, l)) by (intros [= -> ->]; lia).
      rewrite (get2_set2_ne _ _ _ _ _ _ _ Hroot') by auto. auto.
    + done.
    + rewrite Hscan. by eapply get2_set2_eq.
    + rewrite Hscan. by eapply get2_set2_eq.
  - eexists; split; [done|]. unfold scanning. rewrite Hscan. by split_and!.
Qed.

Lemma interval_step_filled l i t :
  1 <= i -> 1 <= l -> i + l <= n + 1 ->
  filled p q n l i t ->
  exists t', interval_step p q l i t = Some t' /\ filled p q n l (i + 1) t'.
Proof.
  intros Hi Hl Hil (Hsh & Hdone & Hzero). unfold interval_step.
  destruct (set2_is_Some (tab_e t) i (i + l - 1) dmax) as [e' He'].
  { apply Hsh; lia. }
  destruct (Hdone i (l - 1)) as (_ & Hw & _); [lia..|].
  replace (i + (l - 1) - 1) with (i + l - 1 - 1) in Hw by lia.
  rewrite He', Hw, (lookup_pv (i + l - 1)), (lookup_qv (i + l - 1)) by lia.
  simpl.
  destruct (set2_is_Some (tab_w t) i (i + l - 1)
    (add (add (W p q i (l - 1)) (pv p (i + l - 1))) (qv q (i + l - 1))))
    as [w' Hw'].
  { apply Hsh; lia. }
  rewrite Hw'. simpl.
  assert (forall a k, 1 <= a -> (a, k) <> (i, l) ->
                      (a, a + k - 1) <> (i, i + l - 1)) as Hne.
  { intros a k Ha Hak [= -> ?]. apply Hak. f_equal. lia. }
  destruct (for_each_seq (scanning p q n l i) (root_step i (i + l - 1)) i
              (i + l - 1 + 1 - i) (Tables e' w' (tab_root t)))
    as (t' & Hrun & Hfin).
  - unfold scanning. cbn [tab_e tab_w tab_root]. split_and!.
    + intros a b Ha Hb. destruct (Hsh a b Ha Hb) as (? & ? & ?).
      cbn [tab_e tab_w tab_root].
      split_and!; [| |done]; by eapply get2_set2_is_Some.
    + intros a k Ha Hak Hk. destruct (Hdone a k Ha Hak Hk) as (? & ? & ?).
      assert ((a, k) <> (i, l)) by (intros [= -> ->]; lia).
      unfold cell_ok. cbn [tab_e tab_w tab_root]. split_and!; [| |done].
      * rewrite (get2_set2_ne _ _ _ _ _ _ _ He') by auto. done.
      * rewrite (get2_set2_ne _ _ _ _ _ _ _ Hw') by auto. done.
    + intros a k Ha Hak Hk1 Hk. apply Hzero; [done..|lia].
    + rewrite (get2_set2_eq _ _ _ _ _ Hw'). f_equal.
      destruct l as [|l]; [lia|]. cbn [W].
      replace (Datatypes.S l - 1) with l by lia.
      by replace (i + Datatypes.S l - 1) with (i + l) by lia.
    + rewrite (get2_set2_eq _ _ _ _ _ He'). by rewrite Nat.sub_diag.
    + rewrite Nat.sub_diag. apply Hzero; [lia..|]. right. lia.
  - intros r t0 Hr Hscan. apply root_step_scanning; [done..|lia|done].
  - exists t'. split; [done|].
    destruct Hfin as (Hsh' & Hdone' & Hzero' & Hw1 & He1 & Hr1).
    replace (i + (i + l - 1 + 1 - i) - i) with l in He1, Hr1 by lia.
    split_and!; [done| |].
    + intros a k Ha Hak Hk.
      destruct (decide ((a, k) = (i, l))) as [[= -> ->]|Hak'].
      * destruct l as [|l]; [lia|].
        split_and!; [by rewrite E_S|done|by rewrite R_S].
      * apply Hdone'; [done..|].
        destruct Hk as [?|[-> ?]]; [by left|]. right. split; [done|].
        destruct (decide (a = i)) as [->|]; [done|lia].
    + intros a k Ha Hak Hk1 Hk. apply Hzero'; [done..|lia].
Qed.

Lemma length_step_filled l t :
  1 <= l <= n ->
  filled p q n l 1 t ->
  exists t', length_step p q n l t = Some t' /\ filled p q n (l + 1) 1 t'.
Proof.
  intros Hl Hf. unfold length_step.
  destruct (for_each_seq (filled p q n l) (interval_step p q l) 1 (n - l + 1) t)
    as (t' & Hrun & Hfin).
  - done.
  - intros i t0 Hi Ht0. apply interval_step_filled; [lia..|done].
  - exists t'. split; [done|].
    destruct Hfin as (Hsh & Hdone & Hzero). split_and!; [done| |].
    + intros a k Ha Hak Hk. apply Hdone; [done..|lia].
    + intros a k Ha Hak Hk1 Hk. apply Hzero; [done..|lia].
Qed.

Lemma base_step_filled i t :
  1 <= i <= n + 1 ->
  filled p q n 0 i t ->
  exists t', base_step q i t = Some t' /\ filled p q n 0 (i + 1) t'.
Proof.
  intros Hi (Hsh & Hdone & Hzero). unfold base_step.
  rewrite (lookup_qv (i - 1)) by lia. simpl.
  destruct (set2_is_Some (tab_e t) i (i - 1) (qv q (i - 1))) as [e' He'].
  { apply Hsh; lia. }
  destruct (set2_is_Some (tab_w t) i (i - 1) (qv q (i - 1))) as [w' Hw'].
  { apply Hsh; lia. }
  rewrite He', Hw'. simpl. eexists; split; [done|].
  split_and!.
  - intros a b Ha Hb. destruct (Hsh a b Ha Hb) as (? & ? & ?).
    cbn [tab_e tab_w tab_root].
    split_and!; [| |done]; by eapply get2_set2_is_Some.
  - intros a k Ha Hak Hk. assert (k = 0) as -> by lia.
    unfold cell_ok. cbn [tab_e tab_w tab_root].
    replace (a + 0 - 1) with (a - 1) by lia.
    destruct (decide (a = i)) as [->|Hai].
    + rewrite (get2_set2_eq _ _ _ _ _ He'), (get2_set2_eq _ _ _ _ _ Hw').
      split_and!; [done..|lia].
    + destruct (Hdone a 0) as (Hea & Hwa & _); [lia..|].
      replace (a + 0 - 1) with (a - 1) in Hea, Hwa by lia.
      rewrite (get2_set2_ne _ _ _ _ _ _ _ He') by congruence.
      rewrite (get2_set2_ne _ _ _ _ _ _ _ Hw') by congruence.
      split_and!; [done..|lia].
  - intros a k Ha Hak Hk1 Hk. cbn [tab_root]. apply Hzero; [done..|lia].
Qed.

(** The run from empty tables ends, and it leaves in every cell of an
    interval the value of the recurrence. *)
Lemma BuildOptimalBST_filled :
  exists t, BuildOptimalBST p q n = Some t /\ filled p q n (n + 1) 1 t.
Proof.
  unfold BuildOptimalBST, optimalBST. rewrite !resize_nil.
  destruct (for_each_seq (filled p q n 0) (base_step q) 1 (n + 1)
    (Tables (replicate (n + 2) (replicate (n + 2) dzero))
            (replicate (n + 2) (replicate (n + 2) dzero))
            (replicate (n + 2) (replicate (n + 2) 0))))
    as (t0 & Hrun0 & Hfin0).
  - split_and!.
    + intros a b Ha Hb. cbn [tab_e tab_w tab_root].
      rewrite !get2_replicate by lia. done.
    + intros a k Ha Hak Hk. lia.
    + intros a k Ha Hak Hk1 Hk. cbn [tab_root].
      rewrite get2_replicate by lia. done.
  - intros i t Hi Ht. apply base_step_filled; [lia|done].
  - rewrite Hrun0. simpl.
    destruct (for_each_seq (fun l => filled p q n l 1) (length_step p q n) 1 n t0)
      as (t & Hrun & Hfin).
    + destruct Hfin0 as (Hsh & Hdone & Hzero). split_and!; [done| |].
      * intros a k Ha Hak Hk. apply Hdone; [done..|lia].
      * intros a k Ha Hak Hk1 Hk. apply Hzero; [done..|lia].
    + intros l t Hl Ht. apply length_step_filled; [lia|done].
    + exists t. split; [done|]. by rewrite Nat.add_comm.
Qed.

End Refinement.

(** ** Order of binary64 *)

Lemma SFltb_irrefl x : SFltb x x = false.
Proof.
  unfold SFltb. destruct x as [[]|[]| |[] m e]; simpl; try reflexivity.
  - rewrite Z.compare_refl. 
    replace (Pos.compare_cont Eq m m) with (Pos.compare m m) by reflexivity.
    by rewrite Pos.compare_refl.
  - rewrite Z.compare_refl.
    replace (Pos.compare_cont Eq m m) with (Pos.compare m m) by reflexivity.
    by rewrite Pos.compare_refl.
Qed.

Lemma SFltb_trans x y z :
  SFltb x y = true -> SFltb y z = true -> SFltb x z = true.
Proof.
  unfold SFltb.
  destruct x as [[]|[]| |[] mx ex], y as [[]|[]| |[] my ey],
           z as [[]|[]| |[] mz ez]; simpl; try done;
    intros; cmp_cases; simpl in *; try done; lia.
Qed.

Lemma SFltb_ntrans x y z :
  SFis_nan y = false ->
  SFltb x y = false -> SFltb y z = false -> SFltb x z = false.
Proof.
  unfold SFltb.
  destruct x as [[]|[]| |[] mx ex], y as [[]|[]| |[] my ey],
           z as [[]|[]| |[] mz ez]; simpl; try done;
    intros; cmp_cases; simpl in *; try done; lia.
Qed.

(** ** Sums of non-negative binary64 numbers *)

Lemma shr_1_nonneg mrs : (0 <= shr_m mrs)%Z -> (0 <= shr_m (shr_1 mrs))%Z.
Proof.
  destruct mrs as [m r s]. simpl.
  destruct m as [|[m|m|]|[m|m|]]; simpl; lia.
Qed.

Lemma iter_pos_shr_1_nonneg (n : positive) mrs :
  (0 <= shr_m mrs)%Z -> (0 <= shr_m (SpecFloat.iter_pos shr_1 n mrs))%Z.
Proof.
  revert mrs. induction n as [n IH|n IH|]; intros mrs Hm; simpl.
  - apply IH, IH. by apply shr_1_nonneg.
  - by apply IH, IH.
  - by apply shr_1_nonneg.
Qed.

Lemma shr_fexp_nonneg prec emax m e l :
  (0 <= m)%Z -> (0 <= shr_m (shr_fexp prec emax m e l).1)%Z.
Proof.
  intros Hm. unfold shr_fexp, shr.
  assert (0 <= shr_m (shr_record_of_loc m l))%Z as Hrec.
  { by destruct l as [|[]]. }
  destruct (fexp prec emax (Zdigits2 m + e) - e)%Z; simpl; try done.
  by apply iter_pos_shr_1_nonneg.
Qed.

Lemma round_nearest_even_nonneg m l :
  (0 <= m)%Z -> (0 <= round_nearest_even m l)%Z.
Proof.
  intros Hm. destruct l as [|[]]; simpl; try lia.
  destruct (Z.even m); lia.
Qed.

Lemma binary_round_aux_nonneg prec emax m e l :
  (0 <= m)%Z -> SFnonneg (binary_round_aux prec emax false m e l) = true.
Proof.
  intros Hm. unfold binary_round_aux.
  pose proof (shr_fexp_nonneg prec emax m e l Hm) as H1.
  destruct (shr_fexp prec emax m e l) as [mrs' e'] eqn:E1. simpl in H1.
  pose proof (shr_fexp_nonneg prec emax
    (round_nearest_even (shr_m mrs') (loc_of_shr_record mrs')) e' loc_Exact
    (round_nearest_even_nonneg _ _ H1)) as H2.
  destruct (shr_fexp prec emax (round_nearest_even _ _) e' loc_Exact)
    as [mrs'' e''] eqn:E2. simpl in H2.
  destruct (shr_m mrs'') as [|m''|m'']; [done| |lia].
  by destruct (e'' <=? emax - prec)%Z.
Qed.

Lemma SFadd_nonneg prec emax x y :
  SFnonneg x = true -> SFnonneg y = true ->
  SFnonneg (SFadd prec emax x y) = true.
Proof.
  destruct x as [[]|[]| |[] mx ex], y as [[]|[]| |[] my ey]; simpl; try done.
  intros _ _. unfold binary_normalize, binary_round.
  destruct (shl_align _ _ _) as [m1 e1]. simpl.
  apply binary_round_aux_nonneg. lia.
Qed.

Lemma nonneg_spec x : nonneg x = SFnonneg (Prim2SF x).
Proof.
  unfold nonneg. rewrite leb_spec.
  change (Prim2SF 0) with (S754_zero false).
  by destruct (Prim2SF x) as [[]|[]| |[] m e].
Qed.

Lemma nonneg_add x y :
  nonneg x = true -> nonneg y = true -> nonneg (x + y)%float = true.
Proof.
  rewrite !nonneg_spec, add_spec. apply SFadd_nonneg.
Qed.

Lemma nonneg_not_nan x : nonneg x = true -> SFis_nan (Prim2SF x) = false.
Proof. rewrite nonneg_spec. by destruct (Prim2SF x) as [[]|[]| |[] m e]. Qed.

(** ** The scan for the best root *)

Section Scan.
Context {D : Type} `{Number D}.
Variables (cost : nat -> D) (i : nat).

(** Without any assumption on the order: the scan assigns a root exactly
    when some candidate compares below the sentinel. *)
Lemma scan_assigned l :
  ((forall r, i <= r < i + l -> ltb (cost r) dmax = false) /\
   scan cost i l = (dmax, 0)) \/
  ((exists r, i <= r < i + l /\ ltb (cost r) dmax = true) /\
   i <= (scan cost i l).2 < i + l /\
   (scan cost i l).1 = cost (scan cost i l).2).
Proof.
  induction l as [|l IH].
  - left. split; [lia|done].
  - rewrite scan_S. unfold scan_step.
    destruct IH as [[Hnone Hs]|[(r & Hr & Hlt) [Hrange Hval]]].
    + rewrite Hs. simpl. destruct (ltb (cost (i + l)) dmax) eqn:Hlt.
      * right. simpl. split_and!; [|lia..|done]. exists (i + l). split; [lia|done].
      * left. split; [|done]. intros r Hr.
        destruct (decide (r = i + l)) as [->|]; [done|]. apply Hnone. lia.
    + right. split; [exists r; split; [lia|done]|].
      destruct (ltb (cost (i + l)) (scan cost i l).1); simpl; [split; [lia|done]|].
      split; [lia|done].
Qed.

(** With a transitive order in which the candidates are comparable, the
    scan keeps the first candidate of least cost. *)
Hypothesis ltb_irrefl : forall x, ltb x x = false.
Hypothesis ltb_trans :
  forall x y z, ltb x y = true -> ltb y z = true -> ltb x z = true.
Variable comparable : D -> Prop.
Hypothesis ltb_ntrans :
  forall x y z, comparable y ->
    ltb x y = false -> ltb y z = false -> ltb x z = false.

Lemma scan_first_least l :
  (forall r, i <= r < i + l -> comparable (cost r)) ->
  (exists r, i <= r < i + l /\ ltb (cost r) dmax = true) ->
  let m := (scan cost i l).1 in
  let r0 := (scan cost i l).2 in
  i <= r0 < i + l /\ m = cost r0 /\ ltb m dmax = true /\
  (forall r, i <= r < i + l -> ltb (cost r) m = false) /\
  (forall r, i <= r < r0 -> ltb m (cost r) = true).
Proof.
  intros Hcmp. induction l as [|l IH]; intros (r1 & Hr1 & Hlt1); [lia|].
  cbv zeta. rewrite scan_S. unfold scan_step.
  destruct (scan_assigned l) as [[Hnone Hs]|[Hex _]].
  - (* no candidate before [i + l] was below the sentinel *)
    assert (r1 = i + l) as ->.
    { destruct (decide (r1 = i + l)); [done|].
      rewrite Hnone in Hlt1 by lia. done. }
    rewrite Hs. simpl. rewrite Hlt1. simpl. split_and!; [lia..|done|done| |].
    + intros r Hr. destruct (decide (r = i + l)) as [->|]; [done|].
      destruct (ltb (cost r) (cost (i + l))) eqn:Hlt; [|done].
      rewrite <- (Hnone r) by lia. symmetry. by eapply ltb_trans.
    + intros r Hr. destruct (ltb (cost (i + l)) (cost r)) eqn:Hlt; [done|].
      rewrite <- Hlt1. symmetry.
      apply (ltb_ntrans _ (cost r)); [apply Hcmp; lia|done|apply Hnone; lia].
  - destruct IH as (Hrange & Hm & Hmlt & Hleast & Hfirst).
    { intros; apply Hcmp; lia. } { done. }
    destruct (ltb (cost (i + l)) (scan cost i l).1) eqn:Hlt; simpl.
    + split_and!; [lia..|done| | |].
      * by eapply ltb_trans.
      * intros r Hr. destruct (decide (r = i + l)) as [->|]; [done|].
        destruct (ltb (cost r) (cost (i + l))) eqn:Hlt'; [|done].
        rewrite <- (Hleast r) by lia. symmetry. by eapply ltb_trans.
      * intros r Hr.
        destruct (ltb (cost (i + l)) (cost r)) eqn:Hlt'; [done|].
        rewrite <- Hlt. symmetry.
        apply (ltb_ntrans _ (cost r)); [apply Hcmp; lia|done|apply Hleast; lia].
    + split_and!; [lia..|done|done| |done].
      intros r Hr. destruct (decide (r = i + l)) as [->|]; [done|].
      apply Hleast. lia.
Qed.

End Scan.

(** ** The filled tables *)

Section Filled.
Context {D : Type} `{Number D}.
Variables (p q : list D) (n : nat).
Hypothesis Hp : n + 1 <= length p.
Hypothesis Hq : n + 1 <= length q.

Lemma BuildOptimalBST_cells :
  exists t, BuildOptimalBST p q n = Some t /\
    forall i l, 1 <= i -> i + l <= n + 1 -> cell_ok p q t i l.
Proof.
  destruct (BuildOptimalBST_filled p q n Hp Hq) as (t & Hrun & _ & Hdone & _).
  exists t. split; [done|]. intros i l Hi Hil. apply Hdone; [done..|lia].
Qed.

Lemma BuildOptimalBST_cell t i j :
  BuildOptimalBST p q n = Some t -> 1 <= i -> i <= j + 1 -> j <= n ->
  get2 (tab_e t) i j = Some (E p q i (j + 1 - i)) /\
  get2 (tab_w t) i j = Some (W p q i (j + 1 - i)) /\
  (i <= j -> get2 (tab_root t) i j = Some (R p q i (j + 1 - i))).
Proof.
  intros Hrun Hi Hij Hj.
  destruct BuildOptimalBST_cells as (t' & Hrun' & Hcells).
  assert (t' = t) as -> by congruence.
  destruct (Hcells i (j + 1 - i)) as (He & Hw & Hr); [lia..|].
  replace (i + (j + 1 - i) - 1) with j in * by lia.
  split_and!; [done..|]. intros. apply Hr. lia.
Qed.

Lemma BuildOptimalBST_candidate t i j r :
  BuildOptimalBST p q n = Some t -> 1 <= i -> i <= r <= j -> j <= n ->
  candidate t i j r = Some (cand p q i (j + 1 - i) r).
Proof.
  intros Hrun Hi Hr Hj. unfold candidate, cand.
  destruct (BuildOptimalBST_cell t i (r - 1)) as (-> & _); [done|lia..|].
  destruct (BuildOptimalBST_cell t (r + 1) j) as (-> & _); [done|lia..|].
  destruct (BuildOptimalBST_cell t i j) as (_ & -> & _); [done|lia..|].
  simpl. do 3 f_equal; f_equal; lia.
Qed.

(** A property of the inputs and of the sentinel that sums preserve holds
    of every entry. *)
Variable good : D -> Prop.
Hypothesis good_add : forall x y, good x -> good y -> good (add x y).
Hypothesis good_dmax : good dmax.
Hypothesis good_p : forall k, 1 <= k <= n -> good (pv p k).
Hypothesis good_q : forall k, k <= n -> good (qv q k).

Lemma W_good i l : 1 <= i -> i + l <= n + 1 -> good (W p q i l).
Proof.
  intros Hi. induction l as [|l IH]; intros Hil; simpl.
  - apply good_q. lia.
  - apply good_add; [apply good_add|]; [apply IH|apply good_p|apply good_q]; lia.
Qed.

Lemma scan_good cost i l :
  (forall r, i <= r < i + l -> good (cost r)) -> good (scan cost i l).1.
Proof.
  intros Hc. destruct (scan_assigned cost i l) as [[_ ->]|(_ & Hr & ->)].
  - done.
  - by apply Hc.
Qed.

Lemma E_good i l : 1 <= i -> i + l <= n + 1 -> good (E p q i l).
Proof.
  revert i. induction l as [l IH] using lt_wf_ind. intros i Hi Hil.
  destruct l as [|l]; [rewrite E_0; apply good_q; lia|].
  rewrite E_S. apply scan_good. intros r Hr. unfold cand.
  apply good_add; [apply good_add|]; [apply IH..|apply W_good]; lia.
Qed.

Lemma cand_good i l r :
  1 <= i -> i + l <= n + 1 -> i <= r < i + l -> good (cand p q i l r).
Proof.
  intros Hi Hil Hr. unfold cand.
  apply good_add; [apply good_add|]; [apply E_good..|apply W_good]; lia.
Qed.

End Filled.

(** ** Order and sums of binary64, as the code uses them *)

Lemma flt_irrefl (x : float) : ltb x x = false.
Proof. simpl. rewrite ltb_spec. apply SFltb_irrefl. Qed.

Lemma flt_trans (x y z : float) :
  ltb x y = true -> ltb y z = true -> ltb x z = true.
Proof. simpl. rewrite !ltb_spec. apply SFltb_trans. Qed.

Lemma flt_ntrans (x y z : float) :
  nonneg y = true -> ltb x y = false -> ltb y z = false -> ltb x z = false.
Proof.
  intros Hy%nonneg_not_nan. simpl. rewrite !ltb_spec. by apply SFltb_ntrans.
Qed.

Lemma valid_probabilities_p p q n k :
  n + 1 <= length p -> valid_probabilities p q n = true ->
  1 <= k <= n -> nonneg (pv p k) = true.
Proof.
  intros Hp [Hvp _]%andb_prop Hk.
  rewrite forallb_forall in Hvp. apply Hvp. apply list_elem_of_In.
  unfold pv. destruct (lookup_lt_is_Some_2 p k) as [x Hx]; [lia|].
  rewrite Hx. simpl. apply list_elem_of_lookup. exists (k - 1).
  rewrite lookup_take_lt by lia. rewrite lookup_drop.
  by replace (1 + (k - 1)) with k by lia.
Qed.

Lemma valid_probabilities_q p q n k :
  n + 1 <= length q -> valid_probabilities p q n = true ->
  k <= n -> nonneg (qv q k) = true.
Proof.
  intros Hq [_ Hvq]%andb_prop Hk.
  rewrite forallb_forall in Hvq. apply Hvq. apply list_elem_of_In.
  unfold qv. destruct (lookup_lt_is_Some_2 q k) as [x Hx]; [lia|].
  rewrite Hx. simpl. apply list_elem_of_lookup. exists k.
  by rewrite lookup_take_lt by lia.
Qed.

(** ** Weights *)

Lemma W_weight_terms {D} `{Number D} (p q : list D) i l :
  W p q i l
  = fold_left add (flat_map (fun k => [pv p k; qv q k]) (seq i l))
      (qv q (i - 1)).
Proof.
  induction l as [|l IH]; [done|].
  rewrite seq_S, flat_map_app, fold_left_app, <- IH. done.
Qed.

(** C3 (as stated) fails. On the reference inputs of [main] the code
    leaves w[1][5] = 1 + 2^-52, while sum(p[1..5]) + sum(q[0..5]) is 1 in
    binary64 and 1 + 3 * 2^-56 as a sum of the real numbers the inputs
    stand for. With p[1] = 0.5 and q[0] = q[1] = 2^-54, where every sum of
    the formula is exact, the code leaves w[1][1] = 0.5 and the formula
    gives 0.5 + 2^-53. *)
Lemma weight_differs_from_sum_of_sums :
  (exists t x,
     BuildOptimalBST p5 q5 5 = Some t /\
     get2 (tab_w t) 1 5 = Some x /\
     x = 0x1.0000000000001p+0%float /\
     add (sum_range p5 1 5) (sum_range q5 0 5) = 1%float /\
     x <> add (sum_range p5 1 5) (sum_range q5 0 5) /\
     ~ (exact_value x ==
        fold_right Qplus 0 (map exact_value (drop 1 p5 ++ q5)))%Q) /\
  (exists t x,
     BuildOptimalBST p_rounding q_rounding 1 = Some t /\
     get2 (tab_w t) 1 1 = Some x /\
     x <> add (sum_range p_rounding 1 1) (sum_range q_rounding 0 1) /\
     ~ (exact_value x ==
        exact_value 0.5 + (exact_value 0x1p-54 + exact_value 0x1p-54))%Q).
Proof.
  split.
  - eexists _, _. split; [vm_compute; reflexivity|].
    split; [vm_compute; reflexivity|]. split; [reflexivity|].
    split; [reflexivity|]. split.
    + intros Heq%(f_equal Prim2SF). vm_compute in Heq. discriminate.
    + vm_compute. discriminate.
  - eexists _, _. split; [vm_compute; reflexivity|].
    split; [vm_compute; reflexivity|]. split.
    + intros Heq%(f_equal Prim2SF). vm_compute in Heq. discriminate.
    + vm_compute. discriminate.
Qed.

(** C3 (amended): every w[i][j] is the binary64 sum
    q[i-1] + p[i] + q[i] + ... + p[j] + q[j] taken from left to right. *)
Theorem weight_left_to_right (p q : list float) (n : nat) :
  n + 1 <= length p -> n + 1 <= length q ->
  exists t, BuildOptimalBST p q n = Some t /\
    forall i j, 1 <= i <= j -> j <= n ->
      get2 (tab_w t) i j
      = Some (fold_left add (weight_terms p q i j) (qv q (i - 1))).
Proof.
  intros Hp Hq.
  destruct (BuildOptimalBST_cells p q n Hp Hq) as (t & Hrun & Hcells).
  exists t. split; [done|]. intros i j Hij Hj.
  destruct (BuildOptimalBST_cell p q n Hp Hq t i j) as (_ & -> & _);
    [done|lia..|].
  by rewrite W_weight_terms.
Qed.

Lemma weight_left_to_right_witness :
  5 + 1 <= length p5 /\ 5 + 1 <= length q5 /\
  exists t, BuildOptimalBST p5 q5 5 = Some t /\
    forall i j, 1 <= i <= j -> j <= 5 ->
      get2 (tab_w t) i j
      = Some (fold_left add (weight_terms p5 q5 i j) (qv q5 (i - 1))).
Proof.
  split; [simpl; lia|]. split; [simpl; lia|].
  apply (weight_left_to_right p5 q5 5); simpl; lia.
Defined.

(** C4: the run ends and for every i in 1..n+1 the cells of the empty
    interval [i, i-1] hold the value q[i-1] itself: e[i][i-1] = q[i-1]
    and w[i][i-1] = q[i-1]. *)
Theorem base_cases (p q : list float) (n : nat) :
  n + 1 <= length p -> n + 1 <= length q ->
  exists t, BuildOptimalBST p q n = Some t /\
    forall i, 1 <= i <= n + 1 ->
      get2 (tab_e t) i (i - 1) = q !! (i - 1) /\
      get2 (tab_w t) i (i - 1) = q !! (i - 1) /\
      is_Some (q !! (i - 1)).
Proof.
  intros Hp Hq.
  destruct (BuildOptimalBST_cells p q n Hp Hq) as (t & Hrun & Hcells).
  exists t. split; [done|]. intros i Hi.
  destruct (BuildOptimalBST_cell p q n Hp Hq t i (i - 1)) as (-> & -> & _);
    [done|lia..|].
  replace (i - 1 + 1 - i) with 0 by lia. rewrite E_0. simpl.
  rewrite (lookup_qv p q n Hp Hq) by lia. done.
Qed.

Lemma base_cases_witness :
  5 + 1 <= length p5 /\ 5 + 1 <= length q5 /\
  exists t, BuildOptimalBST p5 q5 5 = Some t /\
    forall i, 1 <= i <= 5 + 1 ->
      get2 (tab_e t) i (i - 1) = q5 !! (i - 1) /\
      get2 (tab_w t) i (i - 1) = q5 !! (i - 1) /\
      is_Some (q5 !! (i - 1)).
Proof.
  split; [simpl; lia|]. split; [simpl; lia|].
  apply (base_cases p5 q5 5); simpl; lia.
Defined.

(** ** The root table *)

Lemma nonneg_DBL_MAX : nonneg DBL_MAX = true.
Proof. reflexivity. Qed.

(** C9 (as stated) fails: p[1] = q[0] = q[1] = 1e308 are finite and
    non-negative, the only candidate cost overflows to +infinity, which
    is not below the sentinel DBL_MAX, and root[1][1] keeps the 0 of the
    fresh table, outside 1..1. *)
Lemma root_unassigned_on_overflow :
  valid_probabilities p_overflow q_overflow 1 = true /\
  forallb is_finite (p_overflow ++ q_overflow) = true /\
  exists t,
    BuildOptimalBST p_overflow q_overflow 1 = Some t /\
    candidate t 1 1 1 = Some infinity /\
    get2 (tab_root t) 1 1 = Some 0.
Proof.
  split; [reflexivity|]. split; [reflexivity|].
  eexists. split; [vm_compute; reflexivity|]. split; reflexivity.
Qed.

(** C9 (amended): root[i][j] is assigned, and then lies in i..j, exactly
    when some candidate cost e[i][r-1] + e[r+1][j] + w[i][j] compares
    below the sentinel DBL_MAX; otherwise no assignment happens: it keeps
    the 0 of the fresh table and e[i][j] stays DBL_MAX. *)
Theorem root_in_range_iff_below_sentinel (p q : list float) (n : nat)
    (t : tables float) (i j : nat) :
  n + 1 <= length p -> n + 1 <= length q ->
  BuildOptimalBST p q n = Some t -> 1 <= i <= j -> j <= n ->
  exists r0, get2 (tab_root t) i j = Some r0 /\
    (forall r, i <= r <= j -> is_Some (candidate t i j r)) /\
    (((exists r c, i <= r <= j /\ candidate t i j r = Some c /\
                   (c <? DBL_MAX)%float = true) /\ i <= r0 <= j) \/
     ((forall r c, i <= r <= j -> candidate t i j r = Some c ->
                   (c <? DBL_MAX)%float = false) /\
      r0 = 0 /\ get2 (tab_e t) i j = Some DBL_MAX)).
Proof.
  intros Hp Hq Hrun Hij Hj.
  destruct (BuildOptimalBST_cell p q n Hp Hq t i j) as (He & _ & Hr);
    [done|lia..|].
  specialize (Hr ltac:(lia)).
  assert (forall r, i <= r <= j ->
            candidate t i j r = Some (cand p q i (j + 1 - i) r)) as Hcand.
  { intros r Hrr. apply (BuildOptimalBST_candidate p q n Hp Hq); [done|lia..]. }
  exists (R p q i (j + 1 - i)). split; [done|].
  split; [intros r Hrr; by rewrite Hcand|].
  revert He Hr. destruct (j + 1 - i) as [|l] eqn:Hl; [lia|].
  rewrite E_S, R_S. intros He Hr.
  destruct (scan_assigned (cand p q i (S l)) i (S l))
    as [[Hnone Hs]|[(r & Hrr & Hlt) [Hrange _]]].
  - right. rewrite Hs in *. split_and!; [|done..].
    intros r c Hrr Hc. rewrite Hcand in Hc by done. injection Hc as <-.
    apply Hnone. lia.
  - left. split; [|lia]. exists r, (cand p q i (S l) r).
    split; [lia|]. split; [apply Hcand; lia|done].
Qed.

Lemma root_in_range_iff_below_sentinel_witness :
  5 + 1 <= length p5 /\ 5 + 1 <= length q5 /\
  exists t, BuildOptimalBST p5 q5 5 = Some t /\
  exists r0, get2 (tab_root t) 3 5 = Some r0 /\
    (forall r, 3 <= r <= 5 -> is_Some (candidate t 3 5 r)) /\
    (((exists r c, 3 <= r <= 5 /\ candidate t 3 5 r = Some c /\
                   (c <? DBL_MAX)%float = true) /\ 3 <= r0 <= 5) \/
     ((forall r c, 3 <= r <= 5 -> candidate t 3 5 r = Some c ->
                   (c <? DBL_MAX)%float = false) /\
      r0 = 0 /\ get2 (tab_e t) 3 5 = Some DBL_MAX)).
Proof.
  split; [simpl; lia|]. split; [simpl; lia|].
  eexists. split; [vm_compute; reflexivity|].
  apply (root_in_range_iff_below_sentinel p5 q5 5);
    [simpl; lia|simpl; lia|vm_compute; reflexivity|lia|lia].
Defined.

(** C2 (as stated) fails on the same inputs: the only candidate of the
    interval [1,1] costs +infinity, yet e[1][1] = DBL_MAX and
    root[1][1] = 0. *)
Lemma scan_result_on_overflow :
  exists t,
    BuildOptimalBST p_overflow q_overflow 1 = Some t /\
    candidate t 1 1 1 = Some infinity /\
    get2 (tab_e t) 1 1 = Some DBL_MAX /\
    get2 (tab_root t) 1 1 = Some 0.
Proof.
  eexists. split; [vm_compute; reflexivity|]. split_and!; reflexivity.
Qed.

(** C2 (amended): for non-negative probabilities and an interval in which
    some candidate cost compares below DBL_MAX, e[i][j] is the least
    candidate cost e[i][r-1] + e[r+1][j] + w[i][j] and root[i][j] the
    smallest r that achieves it: no candidate is below e[i][j], and every
    candidate before root[i][j] is strictly above it. *)
Theorem scan_keeps_first_least (p q : list float) (n : nat)
    (t : tables float) (i j : nat) :
  n + 1 <= length p -> n + 1 <= length q ->
  valid_probabilities p q n = true ->
  BuildOptimalBST p q n = Some t -> 1 <= i <= j -> j <= n ->
  (exists r c, i <= r <= j /\ candidate t i j r = Some c /\
               (c <? DBL_MAX)%float = true) ->
  exists r0 c0,
    get2 (tab_root t) i j = Some r0 /\ i <= r0 <= j /\
    candidate t i j r0 = Some c0 /\ get2 (tab_e t) i j = Some c0 /\
    (forall r, i <= r <= j ->
       exists c, candidate t i j r = Some c /\ (c <? c0)%float = false) /\
    (forall r, i <= r < r0 ->
       exists c, candidate t i j r = Some c /\ (c0 <? c)%float = true).
Proof.
  intros Hp Hq Hvalid Hrun Hij Hj (r1 & c1 & Hr1 & Hc1 & Hlt1).
  destruct (BuildOptimalBST_cell p q n Hp Hq t i j) as (He & _ & Hr);
    [done|lia..|].
  specialize (Hr ltac:(lia)).
  assert (forall r, i <= r <= j ->
            candidate t i j r = Some (cand p q i (j + 1 - i) r)) as Hcand.
  { intros r Hrr. apply (BuildOptimalBST_candidate p q n Hp Hq); [done|lia..]. }
  rewrite Hcand in Hc1 by done. injection Hc1 as <-.
  revert He Hr Hcand Hlt1. destruct (j + 1 - i) as [|l] eqn:Hl; [lia|].
  rewrite E_S, R_S. intros He Hr Hcand Hlt1.
  destruct (scan_first_least (cand p q i (S l)) i flt_irrefl flt_trans
              (fun x => nonneg x = true) flt_ntrans (S l))
    as (Hrange & Hm & _ & Hleast & Hfirst).
  - intros r Hrr.
    apply (cand_good p q n Hp Hq (fun x => nonneg x = true)); try lia.
    + apply nonneg_add.
    + apply nonneg_DBL_MAX.
    + intros. by eapply valid_probabilities_p.
    + intros. by eapply valid_probabilities_q.
  - exists r1. split; [lia|done].
  - eexists _, _. split; [done|]. split; [lia|].
    split; [apply Hcand; lia|]. split; [by rewrite He, Hm|].
    rewrite <- Hm. split.
    + intros r Hrr. eexists. split; [by apply Hcand|]. apply Hleast. lia.
    + intros r Hrr. eexists. split; [apply Hcand; lia|]. by apply Hfirst.
Qed.

Lemma scan_keeps_first_least_witness :
  5 + 1 <= length p5 /\ 5 + 1 <= length q5 /\
  valid_probabilities p5 q5 5 = true /\
  exists t, BuildOptimalBST p5 q5 5 = Some t /\
  exists r0 c0,
    get2 (tab_root t) 2 5 = Some r0 /\ 2 <= r0 <= 5 /\
    candidate t 2 5 r0 = Some c0 /\ get2 (tab_e t) 2 5 = Some c0 /\
    (forall r, 2 <= r <= 5 ->
       exists c, candidate t 2 5 r = Some c /\ (c <? c0)%float = false) /\
    (forall r, 2 <= r < r0 ->
       exists c, candidate t 2 5 r = Some c /\ (c0 <? c)%float = true).
Proof.
  split; [simpl; lia|]. split; [simpl; lia|]. split; [reflexivity|].
  eexists. split; [vm_compute; reflexivity|].
  apply (scan_keeps_first_least p5 q5 5);
    [simpl; lia|simpl; lia|reflexivity|vm_compute; reflexivity|lia|lia|].
  exists 2. eexists. split; [lia|]. split; [vm_compute; reflexivity|reflexivity].
Defined.

(** ** Inputs the builder accepts *)

Lemma for_each_Some_body {S} (ks : list nat) body (s s' : S) k :
  for_each ks body s = Some s' -> k ∈ ks -> exists s0, is_Some (body k s0).
Proof.
  revert s. induction ks as [|k0 ks IH]; intros s Hrun Hk.
  - by apply not_elem_of_nil in Hk.
  - simpl in Hrun. destruct (body k0 s) as [s1|] eqn:Hb; [|done].
    apply elem_of_cons in Hk as [->|Hk]; [by exists s; rewrite Hb|].
    by eapply IH.
Qed.

(** C5 (as stated) fails: a negative probability, and vectors longer than
    n + 1, are accepted and the tables are filled. *)
Lemma negative_probability_accepted :
  (-0.5 <? 0)%float = true /\
  length [0.25; 0.25; 0.25]%float <> 1 + 1 /\
  exists t,
    BuildOptimalBST [0; -0.5]%float [0.25; 0.25; 0.25]%float 1 = Some t /\
    get2 (tab_e t) 1 1 = Some 0.5%float.
Proof.
  split; [reflexivity|]. split; [simpl; lia|].
  eexists. split; [vm_compute; reflexivity|reflexivity].
Qed.

(** C5 (amended): the function validates nothing and reports no error of
    its own. It runs to its end whenever p and q hold at least n + 1
    entries, whatever their values, so for all valid inputs; a run that
    ends has read q[0..n] and, when n >= 1, p[1..n] inside the vectors
    (with fewer entries it reads out of bounds). *)
Theorem no_input_validation (p q : list float) (n : nat) :
  (n + 1 <= length p -> n + 1 <= length q ->
     is_Some (BuildOptimalBST p q n)) /\
  (is_Some (BuildOptimalBST p q n) ->
     n + 1 <= length q /\ (n = 0 \/ n + 1 <= length p)).
Proof.
  split.
  - intros Hp Hq.
    destruct (BuildOptimalBST_cells p q n Hp Hq) as (t & -> & _). done.
  - intros [t Hrun]. unfold BuildOptimalBST, optimalBST in Hrun.
    destruct (for_each (seq 1 (n + 1)) (base_step q) _) as [t0|] eqn:Hbase;
      [|done].
    simpl in Hrun. split.
    + destruct (for_each_Some_body _ _ _ _ (n + 1) Hbase) as (s0 & Hs0).
      { apply elem_of_seq. lia. }
      unfold base_step in Hs0.
      destruct (q !! (n + 1 - 1)) as [x|] eqn:Hq; [|by destruct Hs0].
      apply lookup_lt_Some in Hq. lia.
    + destruct n as [|n]; [by left|]. right.
      destruct (for_each_Some_body _ _ _ _ 1 Hrun) as (s0 & s1 & Hs1).
      { apply elem_of_seq. lia. }
      unfold length_step in Hs1.
      destruct (for_each_Some_body _ _ _ _ (S n) Hs1) as (s2 & Hs2).
      { apply elem_of_seq. lia. }
      unfold interval_step in Hs2.
      destruct (set2 (tab_e s2) _ _ _); [|by destruct Hs2].
      destruct (get2 (tab_w s2) _ _); [|by destruct Hs2].
      destruct (p !! _) as [x|] eqn:Hp; [|by destruct Hs2].
      apply lookup_lt_Some in Hp. lia.
Qed.

Lemma no_input_validation_witness :
  5 + 1 <= length p5 /\ 5 + 1 <= length q5 /\
  is_Some (BuildOptimalBST p5 q5 5) /\
  5 + 1 <= length q5 /\ (5 = 0 \/ 5 + 1 <= length p5).
Proof.
  split; [simpl; lia|]. split; [simpl; lia|].
  assert (is_Some (BuildOptimalBST p5 q5 5)) as Hrun.
  { apply (proj1 (no_input_validation p5 q5 5)); simpl; lia. }
  split; [exact Hrun|].
  exact (proj2 (no_input_validation p5 q5 5) Hrun).
Defined.

(** ** The reference run and the run without keys *)

(** C7: on the reference inputs of [main] (n = 5,
    p = [_, 0.15, 0.10, 0.05, 0.10, 0.20],
    q = [0.05, 0.10, 0.05, 0.05, 0.05, 0.10]) the run gives, in binary64,
    e[1][5] = 2.75 exactly and root[1][5] = 2; the report names key 2 as
    the root, key 1 as its left child, key 5 as its right child, key 4
    as the left child of key 5 and key 3 as the left child of key 4, and
    the printed lines are those of the comment at the end of [main]. *)
Theorem reference_run :
  exists t,
    BuildOptimalBST p5 q5 5 = Some t /\
    get2 (tab_e t) 1 5 = Some 2.75%float /\
    get2 (tab_root t) 1 5 = Some 2 /\
    reportStructure 6 (tab_root t) 1 5 0 false
    = Some [KeyRoot 2;
            KeyChild 1 true 2; GapChild 0 true 1; GapChild 1 false 1;
            KeyChild 5 false 2;
            KeyChild 4 true 5;
            KeyChild 3 true 4; GapChild 2 true 3; GapChild 3 false 3;
            GapChild 4 false 4;
            GapChild 5 false 5] /\
    printOptimalStructure 6 (tab_root t) keys5 dummies5 1 5 0 false
    = Some ["k2 e a raiz da arvore.";
            "k1 e o filho esquerdo de k2";
            tab ++ "d0 e o filho esquerdo de k1";
            tab ++ "d1 e o filho direito de k1";
            "k5 e o filho direito de k2";
            "k4 e o filho esquerdo de k5";
            "k3 e o filho esquerdo de k4";
            tab ++ "d2 e o filho esquerdo de k3";
            tab ++ "d3 e o filho direito de k3";
            tab ++ "d4 e o filho direito de k4";
            tab ++ "d5 e o filho direito de k5"]%string.
Proof.
  eexists. split; [vm_compute; reflexivity|]. split_and!; reflexivity.
Qed.

(** C8: n = 0 with q = [1.0] is accepted, whatever p is; e[1][0] = 1.0
    and the report over [1,0] is the one fact of gap 0. *)
Theorem no_keys_run (p : list float) (fuel : nat) :
  exists t,
    BuildOptimalBST p [1.0]%float 0 = Some t /\
    get2 (tab_e t) 1 0 = Some 1.0%float /\
    reportStructure (S fuel) (tab_root t) 1 0 0 false
    = Some [GapChild 0 false 0].
Proof.
  eexists. split; [vm_compute; reflexivity|]. split; reflexivity.
Qed.

(** C10: on an empty interval [i, i-1] called without a parent (parent 0,
    as [main] does for n = 0) the report is one gap fact that names key 0
    as its parent, printed with the label [keys[0]]; a key node without a
    parent is reported as the root instead. *)
Theorem gap_without_parent_names_key_0 (fuel : nat) (root : list (list nat))
    (keys dummies : list string) (i : Z) (is_left_child : bool) :
  reportStructure (S fuel) root i (i - 1) 0 is_left_child
  = Some [GapChild (i - 1) is_left_child 0] /\
  printOptimalStructure (S fuel) root keys dummies i (i - 1) 0 false
  = (d ← lookupZ dummies (i - 1); k0 ← keys !! 0;
     Some [tab ++ d ++ " e o filho direito de " ++ k0])%string /\
  (forall t, BuildOptimalBST [] [1.0]%float 0 = Some t ->
     printOptimalStructure 1 (tab_root t) keys5 dummies5 1 0 0 false
     = Some [tab ++ "d0 e o filho direito de "]%string) /\
  (forall j r, (i <= j)%Z -> getZ root i j = Some r ->
     exists rest,
       reportStructure (S fuel) root i j 0 is_left_child = None \/
       reportStructure (S fuel) root i j 0 is_left_child
       = Some (KeyRoot r :: rest)).
Proof.
  split_and!.
  - simpl. rewrite (proj2 (Z.ltb_lt _ _)) by lia.
    by rewrite Z.eqb_refl.
  - unfold printOptimalStructure. simpl.
    rewrite (proj2 (Z.ltb_lt _ _)) by lia. rewrite Z.eqb_refl. simpl.
    destruct (lookupZ dummies (i - 1)) as [d|]; [|done]. simpl.
    change (lookupZ keys 0) with (keys !! 0).
    by destruct (keys !! 0).
  - intros t Ht. vm_compute in Ht. injection Ht as <-. reflexivity.
  - intros j r Hij Hr. simpl. rewrite (proj2 (Z.ltb_ge _ _)) by lia.
    rewrite Hr. simpl.
    destruct (reportStructure fuel root i (r - 1) r true) as [ls|];
      [|by exists []; left].
    destruct (reportStructure fuel root (r + 1) j r false) as [rs|];
      [|by exists []; left].
    simpl. exists (ls ++ rs). by right.
Qed.

Lemma gap_without_parent_names_key_0_witness :
  exists t,
    BuildOptimalBST p5 q5 5 = Some t /\
    (1 <= 5)%Z /\ getZ (tab_root t) 1 5 = Some 2%Z /\
    exists rest,
      reportStructure 6 (tab_root t) 1 5 0 false = None \/
      reportStructure 6 (tab_root t) 1 5 0 false = Some (KeyRoot 2 :: rest).
Proof.
  eexists. split; [vm_compute; reflexivity|]. split; [lia|].
  split; [reflexivity|].
  apply (proj2 (proj2 (proj2
    (gap_without_parent_names_key_0 5 _ keys5 dummies5 1 false))));
    [lia|reflexivity].
Defined.

(** ** The structure report *)

Lemma roots_in_range_getZ root n (a b : Z) :
  roots_in_range root n = true ->
  (1 <= a <= b)%Z -> (b <= Z.of_nat n)%Z ->
  exists r, getZ root a b = Some r /\ (a <= r <= b)%Z.
Proof.
  intros Hroot Hab Hb. unfold roots_in_range in Hroot.
  rewrite forallb_forall in Hroot.
  specialize (Hroot (Z.to_nat a)). rewrite forallb_forall in Hroot.
  specialize (Hroot ltac:(apply in_seq; lia) (Z.to_nat b)
                ltac:(apply in_seq; lia)).
  unfold get2 in Hroot.
  destruct (root !! Z.to_nat a) as [row|] eqn:Hrow; [|done].
  destruct (row !! Z.to_nat b) as [r|] eqn:Hr; [|done].
  apply andb_prop in Hroot as [H1%Nat.leb_le H2%Nat.leb_le].
  exists (Z.of_nat r). split; [|lia].
  unfold getZ, lookupZ. rewrite (proj2 (Z.ltb_ge _ _)) by lia.
  rewrite Hrow. simpl. rewrite (proj2 (Z.ltb_ge _ _)) by lia.
  simpl. by rewrite Hr.
Qed.

Lemma parents_first_cons here r ls rs :
  fact_key here = Some r ->
  (forall f rest, ls = f :: rest -> fact_parent f = Some r) ->
  (forall f rest, rs = f :: rest -> fact_parent f = Some r) ->
  parents_first ls -> parents_first rs ->
  parents_first (here :: ls ++ rs).
Proof.
  intros Hhere Hls Hrs Pls Prs pre f post Hout Hpre.
  destruct pre as [|f0 pre]; [done|]. injection Hout as <- Hout.
  assert (r ∈ key_facts (here :: pre)) as Hr.
  { unfold key_facts. simpl. rewrite Hhere. apply elem_of_cons. by left. }
  assert (forall pre0 post0 k, k = pre0 ++ f :: post0 ->
            (forall f1 rest, k = f1 :: rest -> fact_parent f1 = Some r) ->
            parents_first k -> key_facts pre0 ⊆ key_facts (here :: pre) ->
            exists x, fact_parent f = Some x /\ x ∈ key_facts (here :: pre))
    as Hin.
  { intros pre0 post0 k Hk Hhead Pk Hsub.
    destruct pre0 as [|f1 pre0].
    - exists r. split; [|done]. by eapply Hhead.
    - destruct (Pk _ _ _ Hk) as (x & Hx & Hxin); [done|].
      exists x. split; [done|]. by apply Hsub. }
  assert (forall k, key_facts k ⊆ key_facts (here :: k)) as Hcons.
  { intros k x Hx. unfold key_facts. simpl.
    destruct (fact_key here); [apply elem_of_cons; by right|done]. }
  symmetry in Hout. apply app_eq_inv in Hout as [(k & Hk1 & Hk2)|(k & Hk1 & Hk2)].
  - (* [f] lies in [rs], after [k] *)
    apply (Hin k post rs); [done..|].
    subst pre. intros x Hx. apply Hcons. unfold key_facts.
    rewrite omap_app. apply elem_of_app. by right.
  - destruct k as [|f1 k]; simpl in Hk2.
    + (* [f] is the first fact of [rs] *)
      apply (Hin [] post rs); [done..|].
      intros x Hx. by apply not_elem_of_nil in Hx.
    + (* [f] lies in [ls] *)
      injection Hk2 as <- ->.
      apply (Hin pre k ls); [done..|apply Hcons].
Qed.

Lemma first_fact_parent root i j parent_r s f :
  first_fact root i j parent_r s = Some f -> parent_r <> 0%Z ->
  fact_parent f = Some parent_r.
Proof.
  unfold first_fact. intros Hf Hp. destruct (j <? i)%Z.
  - by injection Hf as <-.
  - destruct (getZ root i j) as [r|]; [|done]. simpl in Hf.
    rewrite (proj2 (Z.eqb_neq _ _)) in Hf by done. by injection Hf as <-.
Qed.

Lemma parents_first_singleton f : parents_first [f].
Proof.
  intros pre f' post Hout Hpre. destruct pre as [|f0 pre]; [done|].
  injection Hout as _ Hout. by destruct pre.
Qed.

(** The report of the interval [i..j] of a table with roots in range. *)
Lemma reportStructure_interval root n :
  roots_in_range root n = true ->
  forall fuel i j parent_r s,
    (1 <= i)%Z -> (i <= j + 1)%Z -> (j <= Z.of_nat n)%Z ->
    Z.to_nat (j + 1 - i) < fuel ->
    exists out,
      reportStructure fuel root i j parent_r s = Some out /\
      key_facts out ≡ₚ seqZ i (j + 1 - i) /\
      gap_facts out = seqZ (i - 1) (j + 2 - i) /\
      head out = first_fact root i j parent_r s /\
      parents_first out.
Proof.
  intros Hroot. induction fuel as [|fuel IH]; intros i j pr s Hi Hij Hj Hfuel;
    [lia|].
  simpl. unfold first_fact. destruct (j <? i)%Z eqn:Hlt.
  - apply Z.ltb_lt in Hlt. assert (j = i - 1)%Z as -> by lia.
    rewrite Z.eqb_refl. eexists. split; [done|].
    replace (i - 1 + 1 - i)%Z with 0%Z by lia.
    replace (i - 1 + 2 - i)%Z with 1%Z by lia.
    split_and!; [done..|apply parents_first_singleton].
  - apply Z.ltb_ge in Hlt.
    destruct (roots_in_range_getZ root n i j Hroot) as (r & Hr & Hrange);
      [lia..|].
    rewrite Hr. simpl.
    destruct (IH i (r - 1)%Z r true) as (ls & -> & Kls & Gls & Hls & Pls);
      [lia..|].
    destruct (IH (r + 1)%Z j r false) as (rs & -> & Krs & Grs & Hrs & Prs);
      [lia..|].
    simpl. eexists. split; [done|].
    set (here := if (pr =? 0)%Z then KeyRoot r else KeyChild r s pr).
    assert (fact_key here = Some r) as Hhere.
    { unfold here. by destruct (pr =? 0)%Z. }
    assert (fact_gap here = None) as Hgap.
    { unfold here. by destruct (pr =? 0)%Z. }
    split_and!.
    + unfold key_facts in *. simpl. rewrite Hhere, omap_app, Kls, Krs.
      replace (j + 1 - i)%Z with ((r - i) + (1 + (j - r)))%Z by lia.
      rewrite seqZ_app by lia. rewrite (seqZ_cons (i + (r - i))) by lia.
      rewrite <- Permutation_middle.
      replace (r - 1 + 1 - i)%Z with (r - i)%Z by lia.
      replace (Z.succ (i + (r - i))) with (r + 1)%Z by lia.
      replace (i + (r - i))%Z with r by lia.
      replace (Z.pred (1 + (j - r))) with (j + 1 - (r + 1))%Z by lia.
      done.
    + unfold gap_facts in *. simpl. rewrite Hgap, omap_app, Gls, Grs.
      replace (j + 2 - i)%Z with ((r + 1 - i) + (j + 1 - r))%Z by lia.
      rewrite seqZ_app by lia. f_equal; f_equal; lia.
    + done.
    + apply (parents_first_cons here r); [done| | |done..].
      * intros f rest ->. simpl in Hls.
        apply (first_fact_parent root i (r - 1) r true); [done|lia].
      * intros f rest ->. simpl in Hrs.
        apply (first_fact_parent root (r + 1) j r false); [done|lia].
Qed.

Lemma getZ_of_nat root (a b : nat) :
  getZ root (Z.of_nat a) (Z.of_nat b) = Z.of_nat <$> get2 root a b.
Proof.
  unfold getZ, lookupZ, get2.
  rewrite !(proj2 (Z.ltb_ge _ _)), !Nat2Z.id by lia.
  destruct (root !! a) as [row|]; [|done]. simpl.
  by destruct (row !! b).
Qed.

Lemma reportStructure_root_0 root :
  getZ root 1 1 = Some 0%Z ->
  forall fuel, reportStructure fuel root 1 1 0 false = None.
Proof.
  intros Hr. induction fuel as [|fuel IH]; [done|].
  cbn [reportStructure]. change (1 <? 1)%Z with false. cbv iota.
  rewrite Hr. cbn [mbind option_bind]. fold reportStructure.
  change (0 + 1)%Z with 1%Z. rewrite IH.
  by destruct (reportStructure fuel root 1 (0 - 1) 0 true).
Qed.

(** C6 (as stated) fails: on the overflowing inputs root[1][1] = 0, the
    call for [1,1] calls itself again on [1,1] after the empty interval
    [1,-1], and no depth of recursion yields a report. *)
Lemma report_never_ends_on_overflow :
  exists t,
    BuildOptimalBST p_overflow q_overflow 1 = Some t /\
    ~ exists fuel out,
        reportStructure fuel (tab_root t) 1 1 0 false = Some out.
Proof.
  eexists. split; [vm_compute; reflexivity|].
  intros (fuel & out & Hout).
  by rewrite reportStructure_root_0 in Hout.
Qed.

(** C6 (amended): for n >= 1 and a root table of [optimalBST] whose
    entries lie in range (i <= root[i][j] <= j for 1 <= i <= j <= n), the
    report over [1,n] ends at recursion depth n + 1; it starts with the
    root fact of key root[1][n], which is the only root fact; its key
    facts are the keys 1..n, each once; its gap facts are the gaps
    0, 1, ..., n, each once (and from left to right); and every fact but
    the first names as parent a key reported before it (pre-order), so
    that the parent references form a tree rooted at root[1][n]. *)
Theorem report_complete (p q : list float) (n : nat) (t : tables float)
    (fuel : nat) :
  BuildOptimalBST p q n = Some t ->
  1 <= n -> roots_in_range (tab_root t) n = true -> n < fuel ->
  exists r rest,
    get2 (tab_root t) 1 n = Some r /\
    reportStructure fuel (tab_root t) 1 (Z.of_nat n) 0 false
    = Some (KeyRoot (Z.of_nat r) :: rest) /\
    key_facts (KeyRoot (Z.of_nat r) :: rest) ≡ₚ seqZ 1 (Z.of_nat n) /\
    length (key_facts (KeyRoot (Z.of_nat r) :: rest)) = n /\
    NoDup (key_facts (KeyRoot (Z.of_nat r) :: rest)) /\
    gap_facts (KeyRoot (Z.of_nat r) :: rest) = seqZ 0 (Z.of_nat n + 1) /\
    length (gap_facts (KeyRoot (Z.of_nat r) :: rest)) = n + 1 /\
    (forall f, f ∈ rest -> is_Some (fact_parent f)) /\
    parents_first (KeyRoot (Z.of_nat r) :: rest).
Proof.
  intros _ Hn Hroot Hfuel.
  destruct (reportStructure_interval (tab_root t) n Hroot fuel 1 (Z.of_nat n)
              0 false) as (out & Hrun & Hkeys & Hgaps & Hhead & Hpre);
    [lia..|].
  unfold first_fact in Hhead. rewrite (proj2 (Z.ltb_ge _ _)) in Hhead by lia.
  assert (exists r, get2 (tab_root t) 1 n = Some r /\
                    getZ (tab_root t) 1 (Z.of_nat n) = Some (Z.of_nat r))
    as (r & Hr & HrZ).
  { destruct (roots_in_range_getZ (tab_root t) n 1 (Z.of_nat n) Hroot)
      as (rz & Hrz & _); [lia..|].
    change 1%Z with (Z.of_nat 1) in Hrz. rewrite getZ_of_nat in Hrz.
    destruct (get2 (tab_root t) 1 n) as [r|] eqn:Hg; [|done].
    exists r. split; [done|].
    change 1%Z with (Z.of_nat 1). by rewrite getZ_of_nat, Hg. }
  rewrite HrZ in Hhead. simpl in Hhead.
  destruct out as [|f0 rest]; [done|]. injection Hhead as ->.
  replace (Z.of_nat n + 1 - 1)%Z with (Z.of_nat n) in Hkeys by lia.
  replace (1 - 1)%Z with 0%Z in Hgaps by lia.
  replace (Z.of_nat n + 2 - 1)%Z with (Z.of_nat n + 1)%Z in Hgaps by lia.
  exists r, rest. split_and!.
  - done.
  - done.
  - done.
  - rewrite (Permutation_length Hkeys), length_seqZ. lia.
  - rewrite Hkeys. apply NoDup_seqZ.
  - done.
  - rewrite Hgaps, length_seqZ. lia.
  - intros f Hf. apply list_elem_of_split in Hf as (pre & post & ->).
    destruct (Hpre (KeyRoot (Z.of_nat r) :: pre) f post) as (x & -> & _);
      done.
  - done.
Qed.

Lemma report_complete_witness :
  exists t,
    BuildOptimalBST p5 q5 5 = Some t /\ 1 <= 5 /\
    roots_in_range (tab_root t) 5 = true /\ 5 < 6 /\
    exists r rest,
      get2 (tab_root t) 1 5 = Some r /\
      reportStructure 6 (tab_root t) 1 (Z.of_nat 5) 0 false
      = Some (KeyRoot (Z.of_nat r) :: rest) /\
      key_facts (KeyRoot (Z.of_nat r) :: rest) ≡ₚ seqZ 1 (Z.of_nat 5) /\
      length (key_facts (KeyRoot (Z.of_nat r) :: rest)) = 5 /\
      NoDup (key_facts (KeyRoot (Z.of_nat r) :: rest)) /\
      gap_facts (KeyRoot (Z.of_nat r) :: rest) = seqZ 0 (Z.of_nat 5 + 1) /\
      length (gap_facts (KeyRoot (Z.of_nat r) :: rest)) = 5 + 1 /\
      (forall f, f ∈ rest -> is_Some (fact_parent f)) /\
      parents_first (KeyRoot (Z.of_nat r) :: rest).
Proof.
  eexists. split; [vm_compute; reflexivity|]. split; [lia|].
  split; [reflexivity|]. split; [lia|].
  apply (report_complete p5 q5 5 _ 6);
    [vm_compute; reflexivity|lia|reflexivity|lia].
Defined.

(** ** Optimality *)

(** C1 (as stated) fails: with p[1] = 0.5 and q[0] = q[1] = 2^-54, all
    products and sums of depth(key_1) * p[1] + depth(gap_0) * q[0] +
    depth(gap_1) * q[1] are exact and give 0.5 + 2^-52 for the only
    tree, but w[1][1] is rounded to 0.5 and e[1][1] = 0.5 + 2^-53. *)
Lemma cost_differs_from_expected_cost :
  exists t c,
    BuildOptimalBST p_rounding q_rounding 1 = Some t /\
    get2 (tab_e t) 1 1 = Some c /\
    (forall s, keys_in s = 1 ->
       expected_cost times_binary64 p_rounding q_rounding s <> c /\
       (c <? expected_cost times_binary64 p_rounding q_rounding s)%float
       = true) /\
    (exact_value c <
     1 * exact_value 0.5 + (2 * exact_value 0x1p-54 + 2 * exact_value 0x1p-54))%Q.
Proof.
  eexists _, _. split; [vm_compute; reflexivity|].
  split; [vm_compute; reflexivity|]. split.
  - intros s Hs.
    assert (s = Key Gap Gap) as ->.
    { destruct s as [|[] []]; simpl in Hs; try lia; done. }
    split; [|reflexivity].
    intros Heq%(f_equal Prim2SF). vm_compute in Heq. discriminate.
  - reflexivity.
Qed.

(** *** Order of the rationals as the code compares *)

Lemma Qcltb_lt x y : Qcltb x y = true <-> (x < y)%Qc.
Proof.
  unfold Qcltb. rewrite Qclt_alt. by destruct (x ?= y)%Qc.
Qed.

Lemma Qcltb_ge x y : Qcltb x y = false <-> (y <= x)%Qc.
Proof.
  rewrite Qcle_ngt, <- Qcltb_lt. by destruct (Qcltb x y).
Qed.

Lemma Qcltb_irrefl x : Qcltb x x = false.
Proof. apply Qcltb_ge, Qcle_refl. Qed.

Lemma Qcltb_trans x y z :
  Qcltb x y = true -> Qcltb y z = true -> Qcltb x z = true.
Proof. rewrite !Qcltb_lt. apply Qclt_trans. Qed.

Lemma Qcltb_ntrans x y z :
  True -> Qcltb x y = false -> Qcltb y z = false -> Qcltb x z = false.
Proof. rewrite !Qcltb_ge. intros _ Hxy Hyz. by eapply Qcle_trans. Qed.

Lemma times_Qc_1 x : times_Qc 1 x = x.
Proof. unfold times_Qc. change (Q2Qc (inject_Z (Z.of_nat 1))) with 1%Qc. ring. Qed.

Lemma times_Qc_S d x : times_Qc (S d) x = (times_Qc d x + x)%Qc.
Proof.
  unfold times_Qc.
  assert (Q2Qc (inject_Z (Z.of_nat (S d)))
          = (Q2Qc (inject_Z (Z.of_nat d)) + 1)%Qc) as ->; [|ring].
  apply Qc_is_canon. simpl. rewrite !Qred_correct.
  rewrite Nat2Z.inj_succ. unfold Z.succ. by rewrite inject_Z_plus.
Qed.

(** *** The cost the recurrence assigns to a shape *)

Section ExactOptimal.
Variables (p q : list Qc).
Local Open Scope Qc_scope.

Local Abbreviation wd := (weighted_depths times_Qc).

Lemma weighted_depths_app l1 l2 v first :
  wd (l1 ++ l2) v first = wd l1 v first + wd l2 v (first + length l1)%nat.
Proof.
  revert first. induction l1 as [|d l1 IH]; intros first; simpl.
  - rewrite Nat.add_0_r. ring.
  - rewrite IH. replace (S first + length l1)%nat
      with (first + S (length l1))%nat by lia. ring.
Qed.

Lemma length_key_depths s d : length (key_depths s d) = keys_in s.
Proof.
  revert d. induction s as [|l IHl r IHr]; intros d; simpl; [done|].
  rewrite length_app. simpl. rewrite IHl, IHr. lia.
Qed.

Lemma length_gap_depths s d : length (gap_depths s d) = (keys_in s + 1)%nat.
Proof.
  revert d. induction s as [|l IHl r IHr]; intros d; simpl; [done|].
  rewrite length_app, IHl, IHr. lia.
Qed.

Lemma depth_cost_Key l r d i :
  (1 <= i)%nat ->
  depth_cost times_Qc p q (Key l r) d i
  = depth_cost times_Qc p q l (S d) i
    + times_Qc d (pv p (i + keys_in l))
    + depth_cost times_Qc p q r (S d) (i + keys_in l + 1).
Proof.
  intros Hi. unfold depth_cost. simpl.
  rewrite !weighted_depths_app. simpl.
  rewrite length_key_depths, length_gap_depths.
  replace (S (i + keys_in l)) with (i + keys_in l + 1)%nat by lia.
  replace (i - 1 + (keys_in l + 1))%nat with (i + keys_in l + 1 - 1)%nat by lia.
  ring.
Qed.

Lemma W_split i a b :
  W p q i (a + 1 + b) = W p q i a + pv p (i + a) + W p q (i + a + 1) b.
Proof.
  induction b as [|b IH].
  - replace (a + 1 + 0)%nat with (S a) by lia. simpl.
    replace (i + a + 1 - 1)%nat with (i + a)%nat by lia. ring.
  - replace (a + 1 + S b)%nat with (S (a + 1 + b)) by lia. simpl.
    rewrite IH.
    replace (i + (a + 1 + b))%nat with (i + a + 1 + b)%nat by lia. ring.
Qed.

(** One level deeper costs the weight of the interval more. *)
Lemma depth_cost_S s d i :
  (1 <= i)%nat ->
  depth_cost times_Qc p q s (S d) i
  = depth_cost times_Qc p q s d i + W p q i (keys_in s).
Proof.
  revert d i. induction s as [|l IHl r IHr]; intros d i Hi.
  - unfold depth_cost. simpl. rewrite times_Qc_S. ring.
  - rewrite !depth_cost_Key by done. simpl keys_in.
    rewrite IHl, IHr, W_split, times_Qc_S by lia. ring.
Qed.

Lemma depth_cost_recurrence s i :
  (1 <= i)%nat -> depth_cost times_Qc p q s 1 i = recurrence_cost p q s i.
Proof.
  revert i. induction s as [|l IHl r IHr]; intros i Hi.
  - unfold depth_cost. simpl. rewrite times_Qc_1. ring.
  - rewrite depth_cost_Key by done.
    rewrite (depth_cost_S l 1), (depth_cost_S r 1) by lia.
    rewrite IHl, IHr by lia. simpl. rewrite times_Qc_1, W_split. ring.
Qed.

Variable n : nat.
Hypothesis Hp : (n + 1 <= length p)%nat.
Hypothesis Hq : (n + 1 <= length q)%nat.
Hypothesis Hroots : forall i l, (1 <= i)%nat -> (1 <= l)%nat ->
  (i + l <= n + 1)%nat -> (i <= R p q i l < i + l)%nat.

Lemma E_first_least i l :
  (1 <= i)%nat -> (1 <= l)%nat -> (i + l <= n + 1)%nat ->
  E p q i l = cand p q i l (R p q i l) /\
  forall r, (i <= r < i + l)%nat -> E p q i l <= cand p q i l r.
Proof.
  intros Hi Hl Hil. pose proof (Hroots i l Hi Hl Hil) as Hr. revert Hr.
  destruct l as [|l]; [lia|]. rewrite E_S, R_S. intros Hr.
  destruct (scan_first_least (H:=exactQc) (cand p q i (S l)) i
              Qcltb_irrefl Qcltb_trans
              (fun _ => True) Qcltb_ntrans (S l))
    as (_ & Hm & _ & Hleast & _).
  - done.
  - destruct (scan_assigned (cand p q i (S l)) i (S l)) as [[_ Hs]|[Hex _]];
      [|done].
    rewrite Hs in Hr. simpl in Hr. lia.
  - split; [done|]. intros r Hrr. apply Qcltb_ge. by apply Hleast.
Qed.

(** No shape costs less than the entry of its interval. *)
Lemma E_lower_bound s i :
  (1 <= i)%nat -> (i + keys_in s <= n + 1)%nat ->
  E p q i (keys_in s) <= recurrence_cost p q s i.
Proof.
  revert i. induction s as [|l IHl r IHr]; intros i Hi His.
  - simpl. rewrite E_0. apply Qcle_refl.
  - simpl in *.
    destruct (E_first_least i (keys_in l + 1 + keys_in r)) as [_ Hleast];
      [lia..|].
    eapply Qcle_trans; [apply (Hleast (i + keys_in l)%nat); lia|].
    unfold cand.
    replace (i + keys_in l - i)%nat with (keys_in l) by lia.
    replace (i + (keys_in l + 1 + keys_in r) - 1 - (i + keys_in l))%nat
      with (keys_in r) by lia.
    apply Qcplus_le_compat; [|apply Qcle_refl].
    apply Qcplus_le_compat; [apply IHl|apply IHr]; lia.
Qed.

Lemma best_shape_cost fuel i l :
  (l <= fuel)%nat -> (1 <= i)%nat -> (i + l <= n + 1)%nat ->
  keys_in (best_shape p q fuel i l) = l /\
  recurrence_cost p q (best_shape p q fuel i l) i = E p q i l.
Proof.
  revert i l. induction fuel as [|fuel IH]; intros i l Hfuel Hi Hil.
  - assert (l = 0)%nat as -> by lia. simpl. by rewrite E_0.
  - destruct l as [|l]; [simpl; by rewrite E_0|].
    pose proof (Hroots i (S l) Hi ltac:(lia) Hil) as Hr.
    destruct (E_first_least i (S l)) as [HE _]; [lia..|].
    cbn [best_shape]. cbv zeta. set (r := R p q i (S l)) in *.
    destruct (IH i (r - i)%nat) as [Kl Cl]; [lia..|].
    destruct (IH (r + 1)%nat (i + S l - 1 - r)%nat) as [Kr Cr]; [lia..|].
    cbn [keys_in recurrence_cost]. rewrite Kl, Kr. split; [lia|].
    rewrite Cl. replace (i + (r - i) + 1)%nat with (r + 1)%nat by lia.
    rewrite Cr, HE. unfold cand. do 2 f_equal. lia.
Qed.

(** The entry of [1..n] is the least expected cost of a shape on the
    [n] keys. *)
Lemma E_optimal :
  (forall s, keys_in s = n -> E p q 1 n <= expected_cost times_Qc p q s) /\
  (exists s, keys_in s = n /\ expected_cost times_Qc p q s = E p q 1 n).
Proof.
  unfold expected_cost. split.
  - intros s Hs. rewrite depth_cost_recurrence by lia. rewrite <- Hs.
    apply E_lower_bound; lia.
  - destruct (best_shape_cost n 1%nat n) as [Hk Hc]; [lia..|].
    exists (best_shape p q n 1 n). split; [done|].
    by rewrite depth_cost_recurrence by lia.
Qed.

End ExactOptimal.

Lemma roots_in_range_get2 root n a b :
  roots_in_range root n = true -> 1 <= a <= b -> b <= n ->
  exists r, get2 root a b = Some r /\ a <= r <= b.
Proof.
  intros Hroot Hab Hb.
  destruct (roots_in_range_getZ root n (Z.of_nat a) (Z.of_nat b) Hroot)
    as (r & Hr & Hrange); [lia..|].
  rewrite getZ_of_nat in Hr.
  destruct (get2 root a b) as [r'|]; [|done]. injection Hr as <-.
  exists r'. split; [done|lia].
Qed.

(** *** Weights that stay below the sentinel *)

Section ExactInRange.
Variables (p q : list Qc) (n : nat).
Hypothesis Hp : (n + 1 <= length p)%nat.
Hypothesis Hq : (n + 1 <= length q)%nat.
Local Open Scope Qc_scope.
Hypothesis Hp_nonneg : forall k, (1 <= k <= n)%nat -> 0 <= pv p k.
Hypothesis Hq_nonneg : forall k, (k <= n)%nat -> 0 <= qv q k.
Hypothesis Hbound : times_Qc (2 * n + 1) (W p q 1 n) < dmax.

Lemma Qcle_plus_nonneg x y z : x <= y -> 0 <= z -> x <= y + z.
Proof.
  intros Hxy Hz. replace x with (x + 0) by ring.
  by apply Qcplus_le_compat.
Qed.

Lemma W_nonneg i l : (1 <= i)%nat -> (i + l <= n + 1)%nat -> 0 <= W p q i l.
Proof.
  intros Hi. induction l as [|l IH]; intros Hil; simpl.
  - apply Hq_nonneg. lia.
  - apply Qcle_plus_nonneg; [apply Qcle_plus_nonneg|];
      [apply IH|apply Hp_nonneg|apply Hq_nonneg]; lia.
Qed.

Lemma W_prefix i l m :
  (1 <= i)%nat -> (i + l + m <= n + 1)%nat -> W p q i l <= W p q i (l + m).
Proof.
  intros Hi. induction m as [|m IH]; intros Hilm.
  - rewrite Nat.add_0_r. apply Qcle_refl.
  - replace (l + S m)%nat with (S (l + m)) by lia. simpl.
    apply Qcle_plus_nonneg; [apply Qcle_plus_nonneg|];
      [apply IH|apply Hp_nonneg|apply Hq_nonneg]; lia.
Qed.

Lemma W_total i l :
  (1 <= i)%nat -> (i + l <= n + 1)%nat -> W p q i l <= W p q 1 n.
Proof.
  intros Hi Hil.
  eapply Qcle_trans; [apply (W_prefix i l (n + 1 - i - l)); lia|].
  replace (l + (n + 1 - i - l))%nat with (n + 1 - i)%nat by lia.
  destruct (decide (i = 1%nat)) as [->|Hi1].
  - replace (n + 1 - 1)%nat with n by lia. apply Qcle_refl.
  - replace n with ((i - 2) + 1 + (n + 1 - i))%nat at 2 by lia.
    rewrite W_split.
    replace (1 + (i - 2) + 1)%nat with i by lia.
    rewrite (Qcplus_comm _ (W p q i (n + 1 - i))).
    apply Qcle_plus_nonneg; [apply Qcle_refl|].
    replace 0 with (0 + 0) by ring.
    apply Qcplus_le_compat; [apply W_nonneg|apply Hp_nonneg]; lia.
Qed.

Lemma times_Qc_mono d k x : 0 <= x -> times_Qc d x <= times_Qc (d + k) x.
Proof.
  intros Hx. induction k as [|k IH].
  - rewrite Nat.add_0_r. apply Qcle_refl.
  - replace (d + S k)%nat with (S (d + k)) by lia. rewrite times_Qc_S.
    by apply Qcle_plus_nonneg.
Qed.

(** Every cost stays below the sentinel, so every scan assigns a
    root. *)
Lemma E_bounded l : forall i,
  (1 <= i)%nat -> (i + l <= n + 1)%nat ->
  0 <= E p q i l <= times_Qc (2 * l + 1) (W p q 1 n) /\
  ((1 <= l)%nat -> (i <= R p q i l < i + l)%nat).
Proof.
  induction l as [l IH] using lt_wf_ind. intros i Hi Hil.
  destruct l as [|l].
  - rewrite E_0. split; [|lia]. split; [apply Hq_nonneg; lia|].
    simpl. rewrite times_Qc_1. apply (W_total i 0); lia.
  - set (T := W p q 1 n).
    assert (0 <= T) as HT by (apply W_nonneg; lia).
    assert (forall r, (i <= r < i + S l)%nat ->
              0 <= cand p q i (S l) r) as Hcand0.
    { intros r Hr. unfold cand. replace 0 with (0 + 0 + 0) by ring.
      apply Qcplus_le_compat; [apply Qcplus_le_compat|].
      - apply (IH (r - i)%nat); lia.
      - apply (IH (i + S l - 1 - r)%nat); lia.
      - apply W_nonneg; lia. }
    assert (cand p q i (S l) i <= times_Qc (2 * S l + 1) T) as Hfirst.
    { unfold cand. rewrite Nat.sub_diag, E_0.
      replace (i + S l - 1 - i)%nat with l by lia.
      replace (2 * S l + 1)%nat with (S (S (2 * l + 1))) by lia.
      rewrite !times_Qc_S.
      replace (times_Qc (2 * l + 1) T + T + T)
        with (T + times_Qc (2 * l + 1) T + T) by ring.
      apply Qcplus_le_compat; [apply Qcplus_le_compat|].
      - apply (W_total i 0); lia.
      - apply (IH l); lia.
      - apply W_total; lia. }
    assert (ltb (cand p q i (S l) i) dmax = true) as Hlt.
    { apply Qcltb_lt. eapply Qcle_lt_trans; [apply Hfirst|].
      eapply Qcle_lt_trans;
        [apply (times_Qc_mono _ (2 * n + 1 - (2 * S l + 1)) T HT)|].
      replace (2 * S l + 1 + (2 * n + 1 - (2 * S l + 1)))%nat
        with (2 * n + 1)%nat by lia.
      done. }
    rewrite E_S, R_S.
    destruct (scan_first_least (H:=exactQc) (cand p q i (S l)) i
                Qcltb_irrefl Qcltb_trans (fun _ => True) Qcltb_ntrans (S l))
      as (Hrange & Hm & _ & Hleast & _).
    + done.
    + exists i. split; [lia|done].
    + split; [|intros _; lia]. split.
      * rewrite Hm. apply Hcand0. lia.
      * eapply Qcle_trans; [|apply Hfirst]. apply Qcltb_ge, Hleast. lia.
Qed.

End ExactInRange.

(** ** Further properties *)

Lemma sum_range_step {D} `{Number D} (v : list D) a b :
  a <= b ->
  sum_range v a (S b) = add (sum_range v a b) (default dzero (v !! S b)).
Proof.
  intros Hab. unfold sum_range.
  replace (S b - a) with (S (b - a)) by lia.
  rewrite seq_S, map_app, fold_left_app. simpl.
  by replace (a + 1 + (b - a)) with (S b) by lia.
Qed.

Lemma sum_range_S (v : list Qc) a b :
  a <= b ->
  sum_range v a (S b)
  = (sum_range v a b + default dzero (v !! S b))%Qc.
Proof. exact (sum_range_step (H:=exactQc) v a b). Qed.

Lemma W_sum_of_sums (p q : list Qc) i l :
  1 <= i ->
  W p q i (S l)
  = (sum_range p i (i + l) + sum_range q (i - 1) (i + l))%Qc.
Proof.
  intros Hi. induction l as [|l IH].
  - cbn [W]. unfold sum_range, pv, qv.
    rewrite Nat.add_0_r, Nat.sub_diag.
    replace (i - (i - 1)) with 1 by lia. simpl.
    replace (i - 1 + 1) with i by lia. ring.
  - cbn [W] in *. rewrite IH.
    replace (i + S l) with (S (i + l)) by lia.
    rewrite !sum_range_S by lia. unfold pv, qv. simpl. ring.
Qed.

(** For non-negative probabilities every cost and weight of an interval
    is non-negative, and so never NaN. *)
Theorem entries_nonneg (p q : list float) (n : nat) (t : tables float)
    (i j : nat) :
  n + 1 <= length p -> n + 1 <= length q ->
  valid_probabilities p q n = true ->
  BuildOptimalBST p q n = Some t -> 1 <= i -> i <= j + 1 -> j <= n ->
  exists e w,
    get2 (tab_e t) i j = Some e /\ get2 (tab_w t) i j = Some w /\
    nonneg e = true /\ nonneg w = true.
Proof.
  intros Hp Hq Hvalid Hrun Hi Hij Hj.
  destruct (BuildOptimalBST_cell p q n Hp Hq t i j) as (He & Hw & _);
    [done|lia..|].
  eexists _, _. split; [done|]. split; [done|]. split.
  - apply (E_good p q n Hp Hq (fun x => nonneg x = true)); try lia.
    + apply nonneg_add.
    + apply nonneg_DBL_MAX.
    + intros. by eapply valid_probabilities_p.
    + intros. by eapply valid_probabilities_q.
  - apply (W_good p q n Hp Hq (fun x => nonneg x = true)); try lia.
    + apply nonneg_add.
    + intros. by eapply valid_probabilities_p.
    + intros. by eapply valid_probabilities_q.
Qed.

Lemma entries_nonneg_witness :
  exists t,
    5 + 1 <= length p5 /\ 5 + 1 <= length q5 /\
    valid_probabilities p5 q5 5 = true /\
    BuildOptimalBST p5 q5 5 = Some t /\ 1 <= 2 /\ 2 <= 4 + 1 /\ 4 <= 5 /\
    exists e w,
      get2 (tab_e t) 2 4 = Some e /\ get2 (tab_w t) 2 4 = Some w /\
      nonneg e = true /\ nonneg w = true.
Proof.
  eexists. split; [simpl; lia|]. split; [simpl; lia|].
  split; [reflexivity|]. split; [vm_compute; reflexivity|].
  split; [lia|]. split; [lia|]. split; [lia|].
  apply (entries_nonneg p5 q5 5);
    [simpl; lia|simpl; lia|reflexivity|vm_compute; reflexivity|lia|lia|lia].
Defined.

Lemma length_key_gap_facts out :
  length out = length (key_facts out) + length (gap_facts out).
Proof.
  unfold key_facts, gap_facts.
  induction out as [|[r|r s pr|j s pr] out IH]; csimpl; lia.
Qed.

Lemma lookupZ_is_Some {A} (v : list A) (i : Z) :
  (0 <= i < Z.of_nat (length v))%Z -> is_Some (lookupZ v i).
Proof.
  intros Hi. unfold lookupZ. rewrite (proj2 (Z.ltb_ge _ _)) by lia.
  apply lookup_lt_is_Some_2. lia.
Qed.

(** For n >= 1 and a root table of [optimalBST] with entries in range,
    [printOptimalStructure] over [1,n] with at least n + 1 key labels and
    n + 1 gap labels reads every label inside the vectors and prints
    2 n + 1 lines. *)
Theorem printed_report_lines (p q : list float) (n : nat) (t : tables float)
    (fuel : nat) (keys dummies : list string) :
  BuildOptimalBST p q n = Some t ->
  1 <= n -> roots_in_range (tab_root t) n = true -> n < fuel ->
  n + 1 <= length keys -> n + 1 <= length dummies ->
  exists lines,
    printOptimalStructure fuel (tab_root t) keys dummies 1 (Z.of_nat n) 0 false
    = Some lines /\
    length lines = 2 * n + 1.
Proof.
  intros _ Hn Hroot Hfuel Hkeys Hdummies.
  destruct (reportStructure_interval (tab_root t) n Hroot fuel 1 (Z.of_nat n)
              0 false) as (out & Hrun & Hk & Hg & Hhead & Hpre);
    [lia..|].
  unfold printOptimalStructure. rewrite Hrun. simpl.
  assert (forall r, r ∈ key_facts out -> is_Some (lookupZ keys r)) as Hkey.
  { intros r Hr. rewrite Hk in Hr. apply elem_of_seqZ in Hr.
    apply lookupZ_is_Some. lia. }
  assert (forall j, j ∈ gap_facts out -> is_Some (lookupZ dummies j)) as Hgap.
  { intros j Hj. rewrite Hg in Hj. apply elem_of_seqZ in Hj.
    apply lookupZ_is_Some. lia. }
  assert (is_Some (mapM (render keys dummies) out)) as [lines Hlines].
  { apply mapM_is_Some, Forall_forall. intros f Hf.
    apply list_elem_of_split in Hf as (pre & post & Hout).
    assert (forall x, fact_key f = Some x -> is_Some (lookupZ keys x)) as Hfk.
    { intros x Hx. apply Hkey. unfold key_facts. rewrite Hout, omap_app.
      apply elem_of_app. right. simpl. rewrite Hx. apply elem_of_cons. by left. }
    assert (forall x, fact_gap f = Some x -> is_Some (lookupZ dummies x)) as Hfg.
    { intros x Hx. apply Hgap. unfold gap_facts. rewrite Hout, omap_app.
      apply elem_of_app. right. simpl. rewrite Hx. apply elem_of_cons. by left. }
    assert (forall x, fact_parent f = Some x -> is_Some (lookupZ keys x)) as Hfp.
    { intros x Hx. destruct pre as [|f0 pre].
      - unfold first_fact in Hhead.
        rewrite (proj2 (Z.ltb_ge _ _)) in Hhead by lia.
        rewrite Hout in Hhead. simpl in Hhead.
        destruct (getZ (tab_root t) 1 (Z.of_nat n)); [|done].
        simpl in Hhead. injection Hhead as ->. done.
      - destruct (Hpre _ _ _ Hout) as (y & Hy & Hyin); [done|].
        assert (y = x) as -> by congruence.
        apply Hkey. unfold key_facts in *. rewrite Hout, omap_app.
        apply elem_of_app. by left. }
    unfold compose.
    destruct f as [r|r s pr|j s pr]; simpl.
    - destruct (Hfk r) as [k ->]; done.
    - destruct (Hfk r) as [k ->]; [done|].
      destruct (Hfp pr) as [pk ->]; done.
    - destruct (Hfg j) as [d ->]; [done|].
      destruct (Hfp pr) as [pk ->]; done. }
  exists lines. split; [done|].
  rewrite <- (length_mapM _ _ _ Hlines), length_key_gap_facts.
  rewrite (Permutation_length Hk), Hg, !length_seqZ. lia.
Qed.

Lemma printed_report_lines_witness :
  exists t,
    BuildOptimalBST p5 q5 5 = Some t /\ 1 <= 5 /\
    roots_in_range (tab_root t) 5 = true /\ 5 < 6 /\
    5 + 1 <= length keys5 /\ 5 + 1 <= length dummies5 /\
    exists lines,
      printOptimalStructure 6 (tab_root t) keys5 dummies5 1 (Z.of_nat 5) 0 false
      = Some lines /\
      length lines = 2 * 5 + 1.
Proof.
  eexists. split; [vm_compute; reflexivity|]. split; [lia|].
  split; [reflexivity|]. split; [lia|]. split; [simpl; lia|].
  split; [simpl; lia|].
  apply (printed_report_lines p5 q5 5 _ 6);
    [vm_compute; reflexivity|lia|reflexivity|lia|simpl; lia|simpl; lia].
Defined.

(** ** Loops, continued *)

Lemma for_each_ext {S} ks (body body' : nat -> S -> option S) (s : S) :
  (forall k s0, k ∈ ks -> body k s0 = body' k s0) ->
  for_each ks body s = for_each ks body' s.
Proof.
  revert s. induction ks as [|k ks IH]; intros s Hb; [done|].
  simpl. rewrite <- Hb by (apply elem_of_cons; by left).
  destruct (body k s) as [s1|]; [|done]. apply IH.
  intros k' s2 Hk'. apply Hb. apply elem_of_cons. by right.
Qed.

(** What every iteration that ends preserves, the loop preserves. *)
Lemma for_each_preserves {S} (P : S -> Prop) ks body (s s' : S) :
  (forall k s0 s1, k ∈ ks -> body k s0 = Some s1 -> P s0 -> P s1) ->
  for_each ks body s = Some s' -> P s -> P s'.
Proof.
  revert s. induction ks as [|k ks IH]; intros s Hb Hrun HP.
  - by injection Hrun as <-.
  - simpl in Hrun. destruct (body k s) as [s1|] eqn:Hk; [|done].
    apply (IH s1); [|done|].
    + intros k' s0 s2 Hk'. apply Hb. apply elem_of_cons. by right.
    + apply (Hb k s); [apply elem_of_cons; by left|done..].
Qed.

(** ** The cells a run leaves alone *)

Lemma set2_lengths {A} (t : list (list A)) i j x t' :
  set2 t i j x = Some t' -> map length t' = map length t.
Proof.
  intros (row & Hi & Hj & ->)%set2_inv.
  rewrite list_fmap_insert, length_insert.
  apply list_insert_id. by rewrite list_lookup_fmap, Hi.
Qed.

Section Frame.
Context {D : Type} `{Number D}.
Variables (p q : list D).

Lemma differ_in_refl touched rooted (t : tables D) :
  differ_in touched rooted t t.
Proof. by split_and!. Qed.

Lemma differ_in_trans touched rooted (t1 t2 t3 : tables D) :
  differ_in touched rooted t1 t2 -> differ_in touched rooted t2 t3 ->
  differ_in touched rooted t1 t3.
Proof.
  intros (H1 & H2 & H3 & H4 & H5) (G1 & G2 & G3 & G4 & G5). split_and!.
  - intros a b Hab. destruct (H1 a b Hab), (G1 a b Hab). split; congruence.
  - intros a b Hab. rewrite G2, H2; done.
  - congruence.
  - congruence.
  - congruence.
Qed.

Lemma differ_in_mono (touched rooted touched' rooted' : nat -> nat -> Prop)
    (t t' : tables D) :
  (forall a b, touched a b -> touched' a b) ->
  (forall a b, rooted a b -> rooted' a b) ->
  differ_in touched rooted t t' -> differ_in touched' rooted' t t'.
Proof.
  intros Ht Hr (H1 & H2 & H3). split_and!; [| |apply H3..].
  - intros a b Hab. apply H1. auto.
  - intros a b Hab. apply H2. auto.
Qed.

Lemma for_each_differ_in touched rooted ks body (t t' : tables D) :
  (forall k t0 t1, k ∈ ks -> body k t0 = Some t1 ->
     differ_in touched rooted t0 t1) ->
  for_each ks body t = Some t' -> differ_in touched rooted t t'.
Proof.
  intros Hb Hrun.
  apply (for_each_preserves (differ_in touched rooted t) ks body t t');
    [|done|apply differ_in_refl].
  intros k t0 t1 Hk Hk1 Ht0. eapply differ_in_trans; [done|]. by eapply Hb.
Qed.

Lemma root_step_differ_in i j r t t' :
  root_step i j r t = Some t' ->
  differ_in (fun a b => (a, b) = (i, j)) (fun a b => (a, b) = (i, j)) t t'.
Proof.
  unfold root_step. intros Hrun.
  destruct (get2 (tab_e t) i (r - 1)) as [el|]; [|done].
  destruct (get2 (tab_e t) (r + 1) j) as [er|]; [|done].
  destruct (get2 (tab_w t) i j) as [wij|]; [|done].
  destruct (get2 (tab_e t) i j) as [eij|]; [|done]. simpl in Hrun.
  destruct (ltb (add (add el er) wij) eij).
  - destruct (set2 (tab_e t) i j _) as [e'|] eqn:He'; [|done].
    destruct (set2 (tab_root t) i j r) as [root'|] eqn:Hroot'; [|done].
    injection Hrun as <-. split_and!; cbn [tab_e tab_w tab_root].
    + intros a b Hab. split; [|done]. by eapply get2_set2_ne.
    + intros a b Hab. by eapply get2_set2_ne.
    + by eapply set2_lengths.
    + done.
    + by eapply set2_lengths.
  - injection Hrun as <-. apply differ_in_refl.
Qed.

Lemma interval_step_differ_in l i t t' :
  interval_step p q l i t = Some t' ->
  differ_in (fun a b => (a, b) = (i, i + l - 1))
            (fun a b => (a, b) = (i, i + l - 1)) t t'.
Proof.
  unfold interval_step. intros Hrun.
  destruct (set2 (tab_e t) i (i + l - 1) dmax) as [e'|] eqn:He'; [|done].
  destruct (get2 (tab_w t) i (i + l - 1 - 1)) as [wprev|]; [|done].
  destruct (p !! (i + l - 1)) as [pj|]; [|done].
  destruct (q !! (i + l - 1)) as [qj|]; [|done]. simpl in Hrun.
  destruct (set2 (tab_w t) i (i + l - 1) _) as [w'|] eqn:Hw'; [|done].
  simpl in Hrun.
  eapply differ_in_trans; [|eapply for_each_differ_in; [|exact Hrun]].
  - split_and!; cbn [tab_e tab_w tab_root].
    + intros a b Hab. split; by eapply get2_set2_ne.
    + done.
    + by eapply set2_lengths.
    + by eapply set2_lengths.
    + done.
  - intros r t0 t1 _ Hr. by apply root_step_differ_in in Hr.
Qed.

Lemma length_step_differ_in n l t t' :
  1 <= l <= n ->
  length_step p q n l t = Some t' ->
  differ_in (fun a b => 1 <= a /\ a <= b /\ b <= n)
            (fun a b => 1 <= a /\ a <= b /\ b <= n) t t'.
Proof.
  intros Hl Hrun. eapply for_each_differ_in; [|exact Hrun].
  intros i t0 t1 Hi%elem_of_seq Hstep.
  apply interval_step_differ_in in Hstep.
  eapply differ_in_mono; [| |exact Hstep];
    intros a b [= -> ->]; lia.
Qed.

Lemma base_step_differ_in i t t' :
  base_step q i t = Some t' ->
  differ_in (fun a b => (a, b) = (i, i - 1)) (fun _ _ => False) t t'.
Proof.
  unfold base_step. intros Hrun.
  destruct (q !! (i - 1)) as [qi|]; [|done]. simpl in Hrun.
  destruct (set2 (tab_e t) i (i - 1) qi) as [e'|] eqn:He'; [|done].
  destruct (set2 (tab_w t) i (i - 1) qi) as [w'|] eqn:Hw'; [|done].
  injection Hrun as <-. split_and!; cbn [tab_e tab_w tab_root].
  - intros a b Hab. split; by eapply get2_set2_ne.
  - done.
  - by eapply set2_lengths.
  - by eapply set2_lengths.
  - done.
Qed.

(** [optimalBST] writes the cells of the intervals only: the cells
    [e[i][j]] and [w[i][j]] with 1 <= i <= j + 1 <= n + 1, and the cells
    [root[i][j]] with 1 <= i <= j <= n. *)
Lemma optimalBST_differ_in n e w root t :
  optimalBST p q n e w root = Some t ->
  differ_in (interval_cell n) (fun a b => 1 <= a /\ a <= b /\ b <= n)
            (resized n e w root) t.
Proof.
  unfold optimalBST. fold (resized n e w root). intros Hrun.
  destruct (for_each (seq 1 (n + 1)) (base_step q) (resized n e w root))
    as [t0|] eqn:Hbase; [|done]. simpl in Hrun.
  eapply differ_in_trans.
  - eapply differ_in_mono; [| |eapply for_each_differ_in; [|exact Hbase]].
    + intros a b Hab. exact Hab.
    + intros a b Hab. exact Hab.
    + intros i t1 t2 Hi%elem_of_seq Hstep.
      apply base_step_differ_in in Hstep.
      eapply differ_in_mono; [| |exact Hstep].
      * intros a b [= -> ->]. unfold interval_cell. lia.
      * done.
  - eapply for_each_differ_in; [|exact Hrun].
    intros l t1 t2 Hl%elem_of_seq Hstep.
    apply length_step_differ_in in Hstep; [|lia].
    eapply differ_in_mono; [| |exact Hstep]; [|done].
    intros a b Hab. unfold interval_cell. cbv beta in Hab. lia.
Qed.

End Frame.

(** ** A run on tables that are not empty *)

Lemma get2_resize_is_Some {A} (k r m : nat) (x : A) (t : list (list A)) a b :
  rows_hold k t -> a < r -> b < k -> b < m ->
  is_Some (get2 (resize r (replicate m x) t) a b).
Proof.
  intros Hrows Ha Hbk Hbm. unfold get2, resize.
  destruct (decide (a < length t)) as [Hlt|Hge].
  - rewrite lookup_app_l by (rewrite length_take; lia).
    rewrite lookup_take_lt by done.
    destruct (lookup_lt_is_Some_2 t a Hlt) as [row Hrow]. rewrite Hrow.
    apply lookup_lt_is_Some_2.
    pose proof (proj1 (Forall_lookup _ _) Hrows a row Hrow). simpl in *. lia.
  - rewrite lookup_app_r by (rewrite length_take; lia).
    rewrite length_take, lookup_replicate_2 by lia.
    apply lookup_lt_is_Some_2. rewrite length_replicate. lia.
Qed.

Lemma root_after_assigned before r : 1 <= r -> root_after before r = Some r.
Proof. intros Hr. unfold root_after. by rewrite decide_False by lia. Qed.

Section Reuse.
Context {D : Type} `{Number D}.
Variables (p q : list D) (n : nat) (root0 : list (list nat)).
Hypothesis Hp : n + 1 <= length p.
Hypothesis Hq : n + 1 <= length q.

Lemma root_step_scanning_from l i r t :
  1 <= i -> 1 <= l -> i + l <= n + 1 -> i <= r < i + l ->
  scanning_from p q n root0 l i r t ->
  exists t', root_step i (i + l - 1) r t = Some t' /\
             scanning_from p q n root0 l i (r + 1) t'.
Proof.
  intros Hi Hl Hil Hr (Hsh & Hdone & Hzero & Hw & He & Hroot).
  unfold root_step.
  destruct (Hdone i (r - i)) as (Hel & _ & _); [lia..|].
  replace (i + (r - i) - 1) with (r - 1) in Hel by lia.
  destruct (Hdone (r + 1) (i + l - 1 - r)) as (Her & _ & _); [lia..|].
  replace (r + 1 + (i + l - 1 - r) - 1) with (i + l - 1) in Her by lia.
  rewrite Hel, Her, Hw, He. simpl.
  fold (cand p q i l r).
  assert (scan (cand p q i l) i (r + 1 - i)
          = scan_step (cand p q i l) (scan (cand p q i l) i (r - i)) r) as Hscan.
  { replace (r + 1 - i) with (Datatypes.S (r - i)) by lia.
    rewrite scan_S. by replace (i + (r - i)) with r by lia. }
  unfold scan_step in Hscan.
  destruct (ltb (cand p q i l r) (scan (cand p q i l) i (r - i)).1) eqn:Hlt.
  - destruct (set2_is_Some (tab_e t) i (i + l - 1) (cand p q i l r)) as [e' He'].
    { apply Hsh; lia. }
    destruct (set2_is_Some (tab_root t) i (i + l - 1) r) as [root' Hroot'].
    { apply Hsh; lia. }
    rewrite He', Hroot'. simpl. eexists; split; [done|].
    assert (forall a k, 1 <= a -> (a, k) <> (i, l) ->
                        (a, a + k - 1) <> (i, i + l - 1)) as Hne.
    { intros a k Ha Hak [= -> ?]. apply Hak. f_equal. lia. }
    split_and!; cbn [tab_e tab_w tab_root].
    + intros a b Ha Hb. destruct (Hsh a b Ha Hb) as (? & ? & ?).
      split_and!; [|done|]; by eapply get2_set2_is_Some.
    + intros a k Ha Hak Hk. destruct (Hdone a k Ha Hak Hk) as (? & ? & ?).
      assert ((a, k) <> (i, l)) by (intros [= -> ->]; lia).
      split_and!; [|done|].
      * rewrite (get2_set2_ne _ _ _ _ _ _ _ He') by auto. done.
      * intros. rewrite (get2_set2_ne _ _ _ _ _ _ _ Hroot') by auto. auto.
    + intros a k Ha Hak Hk1 Hk.
      assert ((a, k) <> (i, l)) by (intros [= -> ->]; lia).
      rewrite (get2_set2_ne _ _ _ _ _ _ _ Hroot') by auto. auto.
    + done.
    + rewrite Hscan. by eapply get2_set2_eq.
    + rewrite Hscan. cbn [snd]. rewrite root_after_assigned by lia.
      by eapply get2_set2_eq.
  - eexists; split; [done|]. unfold scanning_from. rewrite Hscan.
    by split_and!.
Qed.

Lemma interval_step_filled_from l i t :
  1 <= i -> 1 <= l -> i + l <= n + 1 ->
  filled_from p q n root0 l i t ->
  exists t', interval_step p q l i t = Some t' /\
             filled_from p q n root0 l (i + 1) t'.
Proof.
  intros Hi Hl Hil (Hsh & Hdone & Hzero). unfold interval_step.
  destruct (set2_is_Some (tab_e t) i (i + l - 1) dmax) as [e' He'].
  { apply Hsh; lia. }
  destruct (Hdone i (l - 1)) as (_ & Hw & _); [lia..|].
  replace (i + (l - 1) - 1) with (i + l - 1 - 1) in Hw by lia.
  rewrite He', Hw, (lookup_pv p q n Hp Hq (i + l - 1)),
    (lookup_qv p q n Hp Hq (i + l - 1)) by lia.
  simpl.
  destruct (set2_is_Some (tab_w t) i (i + l - 1)
    (add (add (W p q i (l - 1)) (pv p (i + l - 1))) (qv q (i + l - 1))))
    as [w' Hw'].
  { apply Hsh; lia. }
  rewrite Hw'. simpl.
  assert (forall a k, 1 <= a -> (a, k) <> (i, l) ->
                      (a, a + k - 1) <> (i, i + l - 1)) as Hne.
  { intros a k Ha Hak [= -> ?]. apply Hak. f_equal. lia. }
  destruct (for_each_seq (scanning_from p q n root0 l i)
              (root_step i (i + l - 1)) i
              (i + l - 1 + 1 - i) (Tables e' w' (tab_root t)))
    as (t' & Hrun & Hfin).
  - unfold scanning_from. cbn [tab_e tab_w tab_root]. split_and!.
    + intros a b Ha Hb. destruct (Hsh a b Ha Hb) as (? & ? & ?).
      cbn [tab_e tab_w tab_root].
      split_and!; [| |done]; by eapply get2_set2_is_Some.
    + intros a k Ha Hak Hk. destruct (Hdone a k Ha Hak Hk) as (? & ? & ?).
      assert ((a, k) <> (i, l)) by (intros [= -> ->]; lia).
      unfold cell_ok_from. cbn [tab_e tab_w tab_root]. split_and!; [| |done].
      * rewrite (get2_set2_ne _ _ _ _ _ _ _ He') by auto. done.
      * rewrite (get2_set2_ne _ _ _ _ _ _ _ Hw') by auto. done.
    + intros a k Ha Hak Hk1 Hk. apply Hzero; [done..|lia].
    + rewrite (get2_set2_eq _ _ _ _ _ Hw'). f_equal.
      destruct l as [|l]; [lia|]. cbn [W].
      replace (Datatypes.S l - 1) with l by lia.
      by replace (i + Datatypes.S l - 1) with (i + l) by lia.
    + rewrite (get2_set2_eq _ _ _ _ _ He'). by rewrite Nat.sub_diag.
    + rewrite Nat.sub_diag. apply Hzero; [lia..|]. right. lia.
  - intros r t0 Hr Hscan. apply root_step_scanning_from; [done..|lia|done].
  - exists t'. split; [done|].
    destruct Hfin as (Hsh' & Hdone' & Hzero' & Hw1 & He1 & Hr1).
    replace (i + (i + l - 1 + 1 - i) - i) with l in He1, Hr1 by lia.
    split_and!; [done| |].
    + intros a k Ha Hak Hk.
      destruct (decide ((a, k) = (i, l))) as [[= -> ->]|Hak'].
      * destruct l as [|l]; [lia|].
        split_and!; [by rewrite E_S|done|by rewrite R_S].
      * apply Hdone'; [done..|].
        destruct Hk as [?|[-> ?]]; [by left|]. right. split; [done|].
        destruct (decide (a = i)) as [->|]; [done|lia].
    + intros a k Ha Hak Hk1 Hk. apply Hzero'; [done..|lia].
Qed.

Lemma length_step_filled_from l t :
  1 <= l <= n ->
  filled_from p q n root0 l 1 t ->
  exists t', length_step p q n l t = Some t' /\
             filled_from p q n root0 (l + 1) 1 t'.
Proof.
  intros Hl Hf. unfold length_step.
  destruct (for_each_seq (filled_from p q n root0 l) (interval_step p q l) 1
              (n - l + 1) t)
    as (t' & Hrun & Hfin).
  - done.
  - intros i t0 Hi Ht0. apply interval_step_filled_from; [lia..|done].
  - exists t'. split; [done|].
    destruct Hfin as (Hsh & Hdone & Hzero). split_and!; [done| |].
    + intros a k Ha Hak Hk. apply Hdone; [done..|lia].
    + intros a k Ha Hak Hk1 Hk. apply Hzero; [done..|lia].
Qed.

Lemma base_step_filled_from i t :
  1 <= i <= n + 1 ->
  filled_from p q n root0 0 i t ->
  exists t', base_step q i t = Some t' /\ filled_from p q n root0 0 (i + 1) t'.
Proof.
  intros Hi (Hsh & Hdone & Hzero). unfold base_step.
  rewrite (lookup_qv p q n Hp Hq (i - 1)) by lia. simpl.
  destruct (set2_is_Some (tab_e t) i (i - 1) (qv q (i - 1))) as [e' He'].
  { apply Hsh; lia. }
  destruct (set2_is_Some (tab_w t) i (i - 1) (qv q (i - 1))) as [w' Hw'].
  { apply Hsh; lia. }
  rewrite He', Hw'. simpl. eexists; split; [done|].
  split_and!.
  - intros a b Ha Hb. destruct (Hsh a b Ha Hb) as (? & ? & ?).
    cbn [tab_e tab_w tab_root].
    split_and!; [| |done]; by eapply get2_set2_is_Some.
  - intros a k Ha Hak Hk. assert (k = 0) as -> by lia.
    unfold cell_ok_from. cbn [tab_e tab_w tab_root].
    replace (a + 0 - 1) with (a - 1) by lia.
    destruct (decide (a = i)) as [->|Hai].
    + rewrite (get2_set2_eq _ _ _ _ _ He'), (get2_set2_eq _ _ _ _ _ Hw').
      split_and!; [done..|lia].
    + destruct (Hdone a 0) as (Hea & Hwa & _); [lia..|].
      replace (a + 0 - 1) with (a - 1) in Hea, Hwa by lia.
      rewrite (get2_set2_ne _ _ _ _ _ _ _ He') by congruence.
      rewrite (get2_set2_ne _ _ _ _ _ _ _ Hw') by congruence.
      split_and!; [done..|lia].
  - intros a k Ha Hak Hk1 Hk. cbn [tab_root]. apply Hzero; [done..|lia].
Qed.

End Reuse.

(** The run ends on all tables whose cells exist, and leaves in every
    cell of an interval the value of the recurrence, but for the roots the
    scan does not assign. *)
Lemma optimalBST_filled_from {D} `{Number D} (p q : list D) (n : nat)
    (e0 w0 : list (list D)) (root0 : list (list nat)) :
  n + 1 <= length p -> n + 1 <= length q ->
  holds_cells n (resized n e0 w0 root0) ->
  exists t, optimalBST p q n e0 w0 root0 = Some t /\
    filled_from p q n (tab_root (resized n e0 w0 root0)) (n + 1) 1 t.
Proof.
  intros Hp Hq Hcells. unfold optimalBST. fold (resized n e0 w0 root0).
  set (r0 := tab_root (resized n e0 w0 root0)).
  destruct (for_each_seq (filled_from p q n r0 0) (base_step q) 1 (n + 1)
              (resized n e0 w0 root0)) as (t0 & Hrun0 & Hfin0).
  - split_and!; [done| |done].
    intros a k Ha Hak Hk. lia.
  - intros i t Hi Ht. apply base_step_filled_from; [done..|lia|done].
  - rewrite Hrun0. simpl.
    destruct (for_each_seq (fun l => filled_from p q n r0 l 1)
                (length_step p q n) 1 n t0) as (t & Hrun & Hfin).
    + destruct Hfin0 as (Hsh & Hdone & Hzero). split_and!; [done| |].
      * intros a k Ha Hak Hk. apply Hdone; [done..|lia].
      * intros a k Ha Hak Hk1 Hk. apply Hzero; [done..|lia].
    + intros l t Hl Ht. apply length_step_filled_from; [done..|lia|done].
    + exists t. split; [done|]. by rewrite Nat.add_comm.
Qed.


Lemma holds_cells_resized {D} `{Number D} (n : nat) (e0 w0 : list (list D))
    root0 :
  rows_hold (n + 1) e0 -> rows_hold (n + 1) w0 -> rows_hold (n + 1) root0 ->
  holds_cells n (resized n e0 w0 root0).
Proof.
  intros He Hw Hroot a b Ha Hb. unfold resized. cbn [tab_e tab_w tab_root].
  split_and!; apply (get2_resize_is_Some (n + 1)); done || lia.
Qed.

(** [optimalBST] on tables that are not empty: when every row they have
    holds at least n + 1 entries, the run ends; the costs and weights of
    the intervals are those of a run on empty tables; so is the root of an
    interval when the scan assigns one, and otherwise, where a run on
    empty tables leaves 0, the cell keeps what the table passed in held. *)
Theorem optimalBST_on_used_tables {D} `{Number D} (p q : list D) (n : nat)
    (e0 w0 : list (list D)) (root0 : list (list nat)) :
  n + 1 <= length p -> n + 1 <= length q ->
  rows_hold (n + 1) e0 -> rows_hold (n + 1) w0 -> rows_hold (n + 1) root0 ->
  exists t t',
    BuildOptimalBST p q n = Some t /\
    optimalBST p q n e0 w0 root0 = Some t' /\
    forall i j, 1 <= i -> i <= j + 1 -> j <= n ->
      get2 (tab_e t') i j = get2 (tab_e t) i j /\
      get2 (tab_w t') i j = get2 (tab_w t) i j /\
      (i <= j ->
       exists r, get2 (tab_root t) i j = Some r /\
         get2 (tab_root t') i j
         = root_after (get2 (tab_root (resized n e0 w0 root0)) i j) r).
Proof.
  intros Hp Hq He Hw Hroot.
  destruct (BuildOptimalBST_cells p q n Hp Hq) as (t & Hrun & Hcells).
  destruct (optimalBST_filled_from p q n e0 w0 root0 Hp Hq)
    as (t' & Hrun' & _ & Hcells' & _); [by apply holds_cells_resized|].
  exists t, t'. split; [done|]. split; [done|].
  intros i j Hi Hij Hj.
  destruct (Hcells i (j + 1 - i)) as (Hte & Htw & Htr); [lia..|].
  destruct (Hcells' i (j + 1 - i)) as (Hte' & Htw' & Htr'); [lia..|].
  replace (i + (j + 1 - i) - 1) with j in * by lia.
  split_and!; [congruence..|].
  intros Hlt. exists (R p q i (j + 1 - i)). split; [apply Htr; lia|].
  rewrite Htr' by lia. done.
Qed.

Lemma rows_hold_forallb {A} (k : nat) (t : list (list A)) :
  forallb (fun row => k <=? length row) t = true -> rows_hold k t.
Proof.
  unfold rows_hold. rewrite forallb_forall, Forall_forall.
  intros Ht row Hrow. apply Nat.leb_le, Ht. by apply list_elem_of_In.
Qed.

Lemma optimalBST_on_used_tables_witness :
  1 + 1 <= length p_overflow /\ 1 + 1 <= length q_overflow /\
  rows_hold (1 + 1) (tab_e tables5) /\ rows_hold (1 + 1) (tab_w tables5) /\
  rows_hold (1 + 1) (tab_root tables5) /\
  exists t t',
    BuildOptimalBST p_overflow q_overflow 1 = Some t /\
    optimalBST p_overflow q_overflow 1 (tab_e tables5) (tab_w tables5)
      (tab_root tables5) = Some t' /\
    forall i j, 1 <= i -> i <= j + 1 -> j <= 1 ->
      get2 (tab_e t') i j = get2 (tab_e t) i j /\
      get2 (tab_w t') i j = get2 (tab_w t) i j /\
      (i <= j ->
       exists r, get2 (tab_root t) i j = Some r /\
         get2 (tab_root t') i j
         = root_after (get2 (tab_root (resized 1 (tab_e tables5) (tab_w tables5)
                                        (tab_root tables5))) i j) r).
Proof.
  split; [simpl; lia|]. split; [simpl; lia|].
  split; [apply rows_hold_forallb; vm_compute; reflexivity|].
  split; [apply rows_hold_forallb; vm_compute; reflexivity|].
  split; [apply rows_hold_forallb; vm_compute; reflexivity|].
  apply (optimalBST_on_used_tables p_overflow q_overflow 1);
    [simpl; lia|simpl; lia|apply rows_hold_forallb; vm_compute; reflexivity..].
Defined.

(** ** What a run never touches *)

Lemma map_length_replicate {A} (n m : nat) (x : A) :
  map length (replicate n (replicate m x)) = replicate n m.
Proof.
  induction n as [|n IH]; simpl; [done|]. by rewrite IH, length_replicate.
Qed.

(** After a run on empty tables the three tables have n + 2 rows of
    n + 2 entries, and every cell that belongs to no interval of the keys
    1..n still holds the zero of its allocation: row 0, column n + 1 and
    the cells below the empty intervals in [e] and [w], and in [root]
    also the cells of the empty intervals. *)
Theorem cells_outside_intervals {D} `{Number D} (p q : list D) (n : nat)
    (t : tables D) :
  BuildOptimalBST p q n = Some t ->
  map length (tab_e t) = replicate (n + 2) (n + 2) /\
  map length (tab_w t) = replicate (n + 2) (n + 2) /\
  map length (tab_root t) = replicate (n + 2) (n + 2) /\
  forall a b, a <= n + 1 -> b <= n + 1 ->
    (~ (1 <= a /\ a <= b + 1 /\ b <= n) ->
     get2 (tab_e t) a b = Some dzero /\ get2 (tab_w t) a b = Some dzero) /\
    (~ (1 <= a /\ a <= b /\ b <= n) -> get2 (tab_root t) a b = Some 0).
Proof.
  intros Hrun. apply optimalBST_differ_in in Hrun.
  destruct Hrun as (Hew & Hroot & Le & Lw & Lroot).
  unfold resized in *. cbn [tab_e tab_w tab_root] in *.
  rewrite (resize_nil (A:=list D)) in Hew, Le, Lw.
  rewrite (resize_nil (A:=list nat)) in Hroot, Lroot.
  rewrite map_length_replicate in Le, Lw.
  rewrite map_length_replicate in Lroot.
  split_and!; [done..|]. intros a b Ha Hb. split.
  - intros Hab. destruct (Hew a b Hab) as [-> ->].
    rewrite !get2_replicate by lia. done.
  - intros Hab. rewrite (Hroot a b Hab), get2_replicate by lia. done.
Qed.

Lemma cells_outside_intervals_witness :
  exists t,
    BuildOptimalBST p5 q5 5 = Some t /\
    map length (tab_e t) = replicate (5 + 2) (5 + 2) /\
    map length (tab_w t) = replicate (5 + 2) (5 + 2) /\
    map length (tab_root t) = replicate (5 + 2) (5 + 2) /\
    forall a b, a <= 5 + 1 -> b <= 5 + 1 ->
      (~ (1 <= a /\ a <= b + 1 /\ b <= 5) ->
       get2 (tab_e t) a b = Some dzero /\ get2 (tab_w t) a b = Some dzero) /\
      (~ (1 <= a /\ a <= b /\ b <= 5) -> get2 (tab_root t) a b = Some 0).
Proof.
  eexists. split; [vm_compute; reflexivity|].
  apply (cells_outside_intervals p5 q5 5). vm_compute. reflexivity.
Defined.

(** [optimalBST] reads [p[1..n]] and [q[0..n]] only: two runs whose
    inputs agree there give the same tables (or fail alike), whatever
    [p[0]] and the entries after index n are, present or not. *)
Theorem unread_entries {D} `{Number D} (p q p' q' : list D) (n : nat)
    (e w : list (list D)) (root : list (list nat)) :
  (forall k, 1 <= k <= n -> p !! k = p' !! k) ->
  (forall k, k <= n -> q !! k = q' !! k) ->
  optimalBST p q n e w root = optimalBST p' q' n e w root.
Proof.
  intros Hp Hq. unfold optimalBST.
  rewrite (for_each_ext _ (base_step q) (base_step q')).
  - destruct (for_each _ (base_step q') _) as [t|]; [|done]. simpl.
    apply for_each_ext. intros l t0 Hl%elem_of_seq. unfold length_step.
    apply for_each_ext. intros i t1 Hi%elem_of_seq. unfold interval_step.
    rewrite (Hp (i + l - 1)), (Hq (i + l - 1)) by lia. done.
  - intros i t Hi%elem_of_seq. unfold base_step. by rewrite Hq by lia.
Qed.

Lemma unread_entries_witness :
  (forall k, 1 <= k <= 1 ->
     p_rounding !! k = [7; 0.5; 3; 4]%float !! k) /\
  (forall k, k <= 1 -> q_rounding !! k = (q_rounding ++ [9]%float) !! k) /\
  optimalBST p_rounding q_rounding 1 [] [] []
  = optimalBST [7; 0.5; 3; 4]%float (q_rounding ++ [9]%float) 1 [] [] [].
Proof.
  assert (forall k, 1 <= k <= 1 ->
            p_rounding !! k = [7; 0.5; 3; 4]%float !! k) as Hp.
  { intros k Hk. assert (k = 1) as -> by lia. reflexivity. }
  assert (forall k, k <= 1 ->
            q_rounding !! k = (q_rounding ++ [9]%float) !! k) as Hq.
  { intros k Hk. destruct k as [|[|k]]; [reflexivity..|lia]. }
  split; [done|]. split; [done|].
  apply (unread_entries p_rounding q_rounding); done.
Defined.

(** The state in which an iteration of a loop that ends starts has what
    the entry state has and every iteration preserves. *)
Lemma for_each_reaches {S} (P : S -> Prop) ks body (s s' : S) k :
  for_each ks body s = Some s' -> k ∈ ks -> P s ->
  (forall k0 s0 s1, k0 ∈ ks -> body k0 s0 = Some s1 -> P s0 -> P s1) ->
  exists s0 s1, P s0 /\ body k s0 = Some s1.
Proof.
  revert s. induction ks as [|k0 ks IH]; intros s Hrun Hk HP Hb.
  - by apply not_elem_of_nil in Hk.
  - simpl in Hrun. destruct (body k0 s) as [s1|] eqn:Hk0; [|done].
    apply elem_of_cons in Hk as [->|Hk]; [by exists s, s1|].
    apply (IH s1); [done..| |].
    + apply (Hb k0 s); [apply elem_of_cons; by left|done..].
    + intros k1 s2 s3 Hk1. apply Hb. apply elem_of_cons. by right.
Qed.

(** A run that ends has found n + 1 entries or more in row 1 of [e]. *)
Lemma optimalBST_row_1 {D} `{Number D} (p q : list D) (n : nat) e w root t :
  1 <= n -> optimalBST p q n e w root = Some t ->
  exists len, map length (tab_e (resized n e w root)) !! 1 = Some len /\
              n + 1 <= len.
Proof.
  intros Hn. unfold optimalBST. fold (resized n e w root). intros Hrun.
  destruct (for_each (seq 1 (n + 1)) (base_step q) (resized n e w root))
    as [t0|] eqn:Hbase; [|done]. simpl in Hrun.
  set (P := fun t1 : tables D =>
    map length (tab_e t1) = map length (tab_e (resized n e w root))).
  assert (P t0) as Ht0.
  { apply for_each_differ_in
      with (touched := fun _ _ => True) (rooted := fun _ _ => True)
      in Hbase as (_ & _ & Hlen & _); [done|].
    intros i t1 t2 _ Hstep. apply base_step_differ_in in Hstep.
    by eapply differ_in_mono; [| |exact Hstep]. }
  assert (forall i l t1 t2, interval_step p q l i t1 = Some t2 ->
            P t1 -> P t2) as Hint.
  { intros i l t1 t2 Hstep Ht1.
    apply interval_step_differ_in in Hstep as (_ & _ & Hlen & _).
    unfold P in *. congruence. }
  assert (forall l t1 t2, length_step p q n l t1 = Some t2 ->
            P t1 -> P t2) as Hlen.
  { intros l t1 t2 Hstep Ht1.
    apply (for_each_preserves P _ _ _ _) in Hstep; [done| |done].
    intros i t3 t4 _. apply Hint. }
  destruct (for_each_reaches P _ _ _ _ n Hrun) as (t1 & t2 & Ht1 & Hstep);
    [apply elem_of_seq; lia|done|by intros l t1 t2 _; apply Hlen|].
  unfold length_step in Hstep.
  destruct (for_each_reaches P _ _ _ _ 1 Hstep) as (t3 & t4 & Ht3 & Hstep');
    [apply elem_of_seq; lia|done|by intros i t3 t4 _; apply Hint|].
  unfold interval_step in Hstep'.
  destruct (set2 (tab_e t3) 1 (1 + n - 1) dmax) as [e'|] eqn:He'; [|done].
  apply set2_inv in He' as (row & Hrow & Hlt & _).
  exists (length row). split; [|lia].
  rewrite <- Ht3. change (map length (tab_e t3)) with (length <$> tab_e t3).
  by rewrite list_lookup_fmap, Hrow.
Qed.

(** The tables a run on n0 keys has filled cannot be passed to a run on
    n0 + 2 keys or more: [resize] keeps the old rows, which hold n0 + 2
    entries only, and the run indexes row 1 out of its range, whatever
    the probabilities are. *)
Theorem tables_of_fewer_keys {D} `{Number D} (p0 q0 p q : list D)
    (n0 n : nat) (t0 : tables D) :
  BuildOptimalBST p0 q0 n0 = Some t0 -> n0 + 2 <= n ->
  optimalBST p q n (tab_e t0) (tab_w t0) (tab_root t0) = None.
Proof.
  intros Hrun0 Hn.
  destruct (optimalBST p q n _ _ _) as [t|] eqn:Hrun; [|done]. exfalso.
  apply optimalBST_row_1 in Hrun as (len & Hrow & Hlen); [|lia].
  apply optimalBST_differ_in in Hrun0 as (_ & _ & Le & _).
  unfold resized in Le. cbn [tab_e] in Le.
  rewrite resize_nil, map_length_replicate in Le.
  unfold resized in Hrow. cbn [tab_e] in Hrow. unfold resize in Hrow.
  rewrite map_app in Hrow.
  assert (length (tab_e t0) = n0 + 2) as Hrows.
  { rewrite <- (length_map length), Le. apply length_replicate. }
  rewrite lookup_app_l in Hrow
    by (rewrite length_map, length_take; lia).
  change (map length (take (n + 2) (tab_e t0)))
    with (length <$> take (n + 2) (tab_e t0)) in Hrow.
  rewrite fmap_take in Hrow.
  change (length <$> tab_e t0) with (map length (tab_e t0)) in Hrow.
  rewrite Le in Hrow. rewrite lookup_take_lt in Hrow by lia.
  rewrite lookup_replicate_2 in Hrow by lia. injection Hrow as <-. lia.
Qed.

Lemma tables_of_fewer_keys_witness :
  exists t0,
    BuildOptimalBST p_rounding q_rounding 1 = Some t0 /\ 1 + 2 <= 5 /\
    optimalBST p5 q5 5 (tab_e t0) (tab_w t0) (tab_root t0) = None.
Proof.
  eexists. split; [vm_compute; reflexivity|]. split; [lia|].
  apply (tables_of_fewer_keys p_rounding q_rounding p5 q5 1 5);
    [vm_compute; reflexivity|lia].
Defined.

(** ** The tree of a report *)

Lemma reportStructure_S fuel root i j parent_r s :
  reportStructure (S fuel) root i j parent_r s
  = if (j <? i)%Z then
      if (j =? i - 1)%Z then Some [GapChild j s parent_r] else Some []
    else
      r ← getZ root i j;
      ls ← reportStructure fuel root i (r - 1) r true;
      rs ← reportStructure fuel root (r + 1) j r false;
      Some ((if (parent_r =? 0)%Z then KeyRoot r
             else KeyChild r s parent_r) :: ls ++ rs).
Proof. done. Qed.

Lemma reportStructure_shape root n :
  roots_in_range root n = true ->
  forall fuel i l parent_r s,
    1 <= i -> i + l <= n + 1 -> l <= fuel ->
    keys_in (shape_of_roots fuel root i l) = l /\
    reportStructure (S fuel) root (Z.of_nat i) (Z.of_nat (i + l) - 1)
      parent_r s
    = Some (shape_facts (shape_of_roots fuel root i l) (Z.of_nat i)
              parent_r s).
Proof.
  intros Hroot. induction fuel as [|fuel IH]; intros i l pr s Hi Hil Hfuel.
  - assert (l = 0) as -> by lia. simpl.
    rewrite (proj2 (Z.ltb_lt _ _)) by lia.
    rewrite (proj2 (Z.eqb_eq _ _)) by lia.
    split; [done|]. do 3 f_equal. lia.
  - destruct l as [|l].
    + cbn [shape_of_roots keys_in shape_facts reportStructure].
      rewrite (proj2 (Z.ltb_lt _ _)) by lia.
      rewrite (proj2 (Z.eqb_eq _ _)) by lia.
      split; [done|]. do 3 f_equal. lia.
    + destruct (roots_in_range_get2 root n i (i + S l - 1) Hroot)
        as (r & Hr & Hrange); [lia..|].
      cbn [shape_of_roots]. rewrite Hr.
      destruct (IH i (r - i) (Z.of_nat r) true) as [Kl Rl]; [lia..|].
      destruct (IH (r + 1) (i + S l - 1 - r) (Z.of_nat r) false) as [Kr Rr];
        [lia..|].
      cbn [keys_in]. rewrite Kl, Kr. split; [lia|].
      rewrite reportStructure_S.
      rewrite (proj2 (Z.ltb_ge _ _)) by lia.
      replace (Z.of_nat (i + S l) - 1)%Z with (Z.of_nat (i + S l - 1)) by lia.
      rewrite getZ_of_nat, Hr. cbn [fmap option_fmap option_map mbind option_bind].
      replace (Z.of_nat r - 1)%Z with (Z.of_nat (i + (r - i)) - 1)%Z by lia.
      rewrite Rl.
      replace (Z.of_nat r + 1)%Z with (Z.of_nat (r + 1)) by lia.
      replace (Z.of_nat (i + S l - 1))
        with (Z.of_nat (r + 1 + (i + S l - 1 - r)) - 1)%Z by lia.
      rewrite Rr. cbn [mbind option_bind shape_facts]. rewrite Kl.
      replace (Z.of_nat i + Z.of_nat (r - i))%Z with (Z.of_nat r) by lia.
      replace (Z.of_nat r + 1)%Z with (Z.of_nat (r + 1)) by lia.
      done.
Qed.

Lemma shape_of_roots_follows root n :
  roots_in_range root n = true ->
  forall fuel i l, 1 <= i -> i + l <= n + 1 -> l <= fuel ->
    follows_roots root (shape_of_roots fuel root i l) i.
Proof.
  intros Hroot. induction fuel as [|fuel IH]; intros i l Hi Hil Hfuel;
    [done|].
  destruct l as [|l]; [done|].
  destruct (roots_in_range_get2 root n i (i + S l - 1) Hroot)
    as (r & Hr & Hrange); [lia..|].
  cbn [shape_of_roots]. rewrite Hr.
  destruct (reportStructure_shape root n Hroot fuel i (r - i) 0%Z true)
    as [Kl _]; [lia..|].
  destruct (reportStructure_shape root n Hroot fuel (r + 1)
              (i + S l - 1 - r) 0%Z true) as [Kr _]; [lia..|].
  cbn [follows_roots]. rewrite Kl, Kr. split_and!.
  - replace (i + (r - i + 1 + (i + S l - 1 - r)) - 1) with (i + S l - 1)
      by lia.
    rewrite Hr. f_equal. lia.
  - apply IH; lia.
  - replace (i + (r - i) + 1) with (r + 1) by lia. apply IH; lia.
Qed.

(** On a root table whose entries lie in range, the report of any
    interval [i..j] of the keys 1..n, under any parent, ends at recursion
    depth j - i + 2, and it is the pre-order listing of a binary search
    tree on the keys i..j with the gaps i-1..j as leaves: the tree whose
    subtree for keys a..b has root[a][b] at its root. *)
Theorem report_is_search_tree (root : list (list nat)) (n i j : nat)
    (parent_r : Z) (is_left_child : bool) :
  roots_in_range root n = true -> 1 <= i -> i <= j + 1 -> j <= n ->
  exists s,
    keys_in s = j + 1 - i /\
    follows_roots root s i /\
    reportStructure (j + 2 - i) root (Z.of_nat i) (Z.of_nat j) parent_r
      is_left_child
    = Some (shape_facts s (Z.of_nat i) parent_r is_left_child).
Proof.
  intros Hroot Hi Hij Hj.
  destruct (reportStructure_shape root n Hroot (j + 1 - i) i (j + 1 - i)
              parent_r is_left_child) as [Hk Hr]; [lia..|].
  exists (shape_of_roots (j + 1 - i) root i (j + 1 - i)). split; [done|].
  split; [apply (shape_of_roots_follows root n Hroot); lia|].
  replace (j + 2 - i) with (S (j + 1 - i)) by lia.
  replace (Z.of_nat j) with (Z.of_nat (i + (j + 1 - i)) - 1)%Z by lia.
  done.
Qed.

Lemma report_is_search_tree_witness :
  roots_in_range (tab_root tables5) 5 = true /\ 1 <= 3 /\ 3 <= 5 + 1 /\
  5 <= 5 /\
  exists s,
    keys_in s = 5 + 1 - 3 /\
    follows_roots (tab_root tables5) s 3 /\
    reportStructure (5 + 2 - 3) (tab_root tables5) (Z.of_nat 3) (Z.of_nat 5)
      2 false
    = Some (shape_facts s (Z.of_nat 3) 2 false).
Proof.
  split; [vm_compute; reflexivity|]. split; [lia|]. split; [lia|].
  split; [lia|].
  apply (report_is_search_tree (tab_root tables5) 5 3 5 2 false);
    [vm_compute; reflexivity|lia..].
Defined.

(** ** Children and their sides *)

Lemma reportStructure_sides root n :
  roots_in_range root n = true ->
  forall fuel i j parent_r s out,
    (1 <= i)%Z -> (i <= j + 1)%Z -> (j <= Z.of_nat n)%Z ->
    (s = true -> j = parent_r - 1)%Z -> (s = false -> i = parent_r + 1)%Z ->
    reportStructure fuel root i j parent_r s = Some out ->
    Forall on_its_side out.
Proof.
  intros Hroot. induction fuel as [|fuel IH];
    intros i j pr s out Hi Hij Hj Hleft Hright Hrun; [done|].
  simpl in Hrun. destruct (j <? i)%Z eqn:Hlt.
  - apply Z.ltb_lt in Hlt. rewrite (proj2 (Z.eqb_eq _ _)) in Hrun by lia.
    injection Hrun as <-. apply Forall_singleton.
    destruct s; simpl; [specialize (Hleft eq_refl)|specialize (Hright eq_refl)];
      lia.
  - apply Z.ltb_ge in Hlt.
    destruct (roots_in_range_getZ root n i j Hroot) as (r & Hr & Hrange);
      [lia..|].
    rewrite Hr in Hrun. simpl in Hrun.
    destruct (reportStructure fuel root i (r - 1) r true) as [ls|] eqn:Hls;
      [|done].
    destruct (reportStructure fuel root (r + 1) j r false) as [rs|] eqn:Hrs;
      [|done].
    injection Hrun as <-. apply Forall_cons. split.
    + destruct (pr =? 0)%Z; [done|].
      destruct s; simpl;
        [specialize (Hleft eq_refl)|specialize (Hright eq_refl)]; lia.
    + apply Forall_app. split.
      * apply (IH i (r - 1)%Z r true); [lia..|done|done|done].
      * apply (IH (r + 1)%Z j r false); [lia..|done|done|done].
Qed.

(** On a root table whose entries lie in range, every fact of the report
    over [1,n] has its node on the side where the index belongs: a left
    child is a smaller key than its parent and a right child a larger
    one, the gap reported as left child of key k is gap k - 1 and the gap
    reported as its right child is gap k. *)
Theorem report_children_sides (root : list (list nat)) (n fuel : nat)
    (out : list fact) :
  roots_in_range root n = true ->
  reportStructure fuel root 1 (Z.of_nat n) 0 false = Some out ->
  Forall on_its_side out.
Proof.
  intros Hroot Hrun.
  apply (reportStructure_sides root n Hroot fuel 1 (Z.of_nat n) 0 false);
    [lia..|done|done|done].
Qed.

Lemma report_children_sides_witness :
  exists out,
    roots_in_range (tab_root tables5) 5 = true /\
    reportStructure 6 (tab_root tables5) 1 (Z.of_nat 5) 0 false = Some out /\
    Forall on_its_side out.
Proof.
  eexists. split; [vm_compute; reflexivity|].
  split; [vm_compute; reflexivity|].
  apply (report_children_sides (tab_root tables5) 5 6);
    [vm_compute; reflexivity|vm_compute; reflexivity].
Defined.

(** ** The shape a root table describes *)

Lemma shape_of_roots_best {D} `{Number D} (p q : list D) (n : nat)
    (root : list (list nat)) :
  (forall i l, 1 <= i -> 1 <= l -> i + l <= n + 1 ->
     get2 root i (i + l - 1) = Some (R p q i l) /\ i <= R p q i l < i + l) ->
  forall fuel i l, 1 <= i -> i + l <= n + 1 -> l <= fuel ->
    shape_of_roots fuel root i l = best_shape p q fuel i l.
Proof.
  intros Hroot. induction fuel as [|fuel IH]; intros i l Hi Hil Hfuel;
    [done|].
  destruct l as [|l]; [done|].
  cbn [shape_of_roots best_shape].
  destruct (Hroot i (S l)) as [-> Hrange]; [lia..|].
  cbv zeta. rewrite !IH by lia. done.
Qed.

(** ** Runs without rounding *)

(** *** Sums of binary64 numbers that are not rounded *)

Lemma digits2_log2 m : Z.pos (digits2_pos m) = (Z.log2 (Z.pos m) + 1)%Z.
Proof.
  assert (forall n, digits2_pos n = Pos.size n) as Hsize.
  { induction n as [n IH|n IH|]; simpl; congruence. }
  rewrite Hsize. destruct m; simpl; lia.
Qed.

Lemma Zdigits2_log2 x : (0 < x)%Z -> Zdigits2 x = (Z.log2 x + 1)%Z.
Proof. destruct x; [lia| |lia]. intros _. apply digits2_log2. Qed.

Lemma fexp_mono x y :
  (x <= y)%Z -> (fexp prec emax x <= fexp prec emax y)%Z.
Proof. unfold fexp, SpecFloat.emin, prec, emax. lia. Qed.

Lemma repr_exponent k N :
  (0 < N < 2 ^ 53)%Z -> (0 <= k <= 1074)%Z ->
  (-1074 <= fexp prec emax (Z.log2 N + 1 - k) <= - k)%Z.
Proof.
  intros HN Hk.
  assert (Z.log2 N < 53)%Z by (apply Z.log2_lt_pow2; lia).
  pose proof (Z.log2_nonneg N).
  unfold fexp, SpecFloat.emin, prec, emax. lia.
Qed.

Lemma iter_xO m d : Z.pos (Pos.iter xO m d) = (Z.pos m * 2 ^ Z.pos d)%Z.
Proof.
  induction d as [|d IH] using Pos.peano_ind.
  - simpl. lia.
  - rewrite Pos.iter_succ, Pos2Z.inj_succ, Z.pow_succ_r by lia.
    rewrite Pos2Z.inj_xO, IH. lia.
Qed.

Lemma shl_align_spec mx ex ez :
  (ez <= ex)%Z ->
  Z.pos (shl_align mx ex ez).1 = (Z.pos mx * 2 ^ (ex - ez))%Z.
Proof.
  intros Hle. unfold shl_align.
  destruct (ez - ex)%Z as [|d|d] eqn:Hd; simpl.
  - replace (ex - ez)%Z with 0%Z by lia. lia.
  - lia.
  - rewrite iter_xO. f_equal. f_equal. lia.
Qed.

Lemma shr_1_double m :
  (0 <= m)%Z ->
  shr_1 (Build_shr_record (2 * m) false false) = Build_shr_record m false false.
Proof. destruct m; simpl; [done..|lia]. Qed.

Lemma iter_shr_1_exact (d : positive) : forall m,
  (0 <= m)%Z ->
  SpecFloat.iter_pos shr_1 d (Build_shr_record (m * 2 ^ Z.pos d) false false)
  = Build_shr_record m false false.
Proof.
  induction d as [d IH|d IH|]; intros m Hm; cbn [SpecFloat.iter_pos].
  - replace (m * 2 ^ Z.pos d~1)%Z
      with (2 * (m * 2 ^ Z.pos d * 2 ^ Z.pos d))%Z.
    + rewrite shr_1_double by nia. rewrite IH by nia. by apply IH.
    + replace (Z.pos d~1) with (Z.pos d + Z.pos d + 1)%Z by lia.
      rewrite !Z.pow_add_r by lia. lia.
  - replace (m * 2 ^ Z.pos d~0)%Z with (m * 2 ^ Z.pos d * 2 ^ Z.pos d)%Z.
    + rewrite IH by nia. by apply IH.
    + replace (Z.pos d~0) with (Z.pos d + Z.pos d)%Z by lia.
      rewrite Z.pow_add_r by lia. lia.
  - replace (m * 2 ^ 1)%Z with (2 * m)%Z by lia. by apply shr_1_double.
Qed.

Lemma shr_exact m e d :
  (0 <= m)%Z -> (0 <= d)%Z ->
  shr (Build_shr_record (m * 2 ^ d) false false) e d
  = (Build_shr_record m false false, (e + d)%Z).
Proof.
  intros Hm Hd. unfold shr. destruct d as [|d|d]; [|..|lia].
  - by rewrite Z.mul_1_r, Z.add_0_r.
  - by rewrite iter_shr_1_exact.
Qed.

(** A number of at most 53 bits above the least exponent is not
    rounded. *)
Lemma binary_round_aux_exact m d e :
  (0 < m)%Z -> (0 <= d)%Z ->
  fexp prec emax (Z.log2 m + 1 + d + e) = (e + d)%Z ->
  (e + d <= emax - prec)%Z ->
  binary_round_aux prec emax false (m * 2 ^ d) e loc_Exact
  = S754_finite false (Z.to_pos m) (e + d).
Proof.
  intros Hm Hd Hf Hmax. unfold binary_round_aux.
  assert (0 < 2 ^ d)%Z as Hpow by (apply Z.pow_pos_nonneg; lia).
  assert (shr_fexp prec emax (m * 2 ^ d) e loc_Exact
          = (Build_shr_record m false false, (e + d)%Z)) as ->.
  { unfold shr_fexp. rewrite Zdigits2_log2, Z.log2_mul_pow2 by nia.
    replace (d + Z.log2 m + 1 + e)%Z with (Z.log2 m + 1 + d + e)%Z by lia.
    rewrite Hf. replace (e + d - e)%Z with d by lia.
    simpl shr_record_of_loc. apply shr_exact; lia. }
  simpl loc_of_shr_record. simpl shr_m. simpl round_nearest_even.
  assert (shr_fexp prec emax m (e + d) loc_Exact
          = (Build_shr_record m false false, (e + d)%Z)) as ->.
  { unfold shr_fexp. rewrite Zdigits2_log2 by done.
    replace (Z.log2 m + 1 + (e + d))%Z with (Z.log2 m + 1 + d + e)%Z by lia.
    rewrite Hf, Z.sub_diag. done. }
  simpl shr_m. destruct m as [|m|m]; [lia| |lia].
  by rewrite (proj2 (Z.leb_le _ _)) by done.
Qed.

Lemma repr_pos k N :
  (0 < N)%Z ->
  repr k N
  = let f := fexp prec emax (Z.log2 N + 1 - k) in
    S754_finite false (Z.to_pos (N * 2 ^ (- k - f))) f.
Proof. destruct N; [lia|done|lia]. Qed.

(** The sum of two multiples of [2^-k] that stays below [2^53] units is
    exact. *)
Lemma SFadd_repr k N1 N2 :
  (0 <= k <= 1074)%Z -> (0 <= N1)%Z -> (0 <= N2)%Z ->
  (N1 + N2 < 2 ^ 53)%Z ->
  SFadd prec emax (repr k N1) (repr k N2) = repr k (N1 + N2).
Proof.
  intros Hk H1 H2 Hsum.
  destruct (decide (N1 = 0%Z)) as [->|Hn1].
  { simpl. destruct N2 as [|n2|n2]; [done| |lia]. by rewrite repr_pos. }
  destruct (decide (N2 = 0%Z)) as [->|Hn2].
  { rewrite Z.add_0_r. destruct N1 as [|n1|n1]; [done| |lia].
    by rewrite repr_pos. }
  rewrite !repr_pos by lia. cbv zeta.
  set (f1 := fexp prec emax (Z.log2 N1 + 1 - k)).
  set (f2 := fexp prec emax (Z.log2 N2 + 1 - k)).
  set (F := fexp prec emax (Z.log2 (N1 + N2) + 1 - k)).
  destruct (repr_exponent k N1) as [Hf1 Hf1']; [lia..|].
  destruct (repr_exponent k N2) as [Hf2 Hf2']; [lia..|].
  destruct (repr_exponent k (N1 + N2)) as [HF HF']; [lia..|].
  fold f1 in Hf1, Hf1'. fold f2 in Hf2, Hf2'. fold F in HF, HF'.
  assert (f1 <= F)%Z as Hf1F.
  { apply fexp_mono. pose proof (Z.log2_le_mono N1 (N1 + N2)). lia. }
  assert (f2 <= F)%Z as Hf2F.
  { apply fexp_mono. pose proof (Z.log2_le_mono N2 (N1 + N2)). lia. }
  cbn [SFadd]. set (ez := Z.min f1 f2). cbn [cond_Zopp].
  assert (forall N f, (0 < N)%Z -> (f <= - k)%Z ->
            Z.pos (Z.to_pos (N * 2 ^ (- k - f))) = (N * 2 ^ (- k - f))%Z)
    as Hpos.
  { intros N f HN Hf. apply Z2Pos.id.
    assert (0 < 2 ^ (- k - f))%Z by (apply Z.pow_pos_nonneg; lia). nia. }
  rewrite !shl_align_spec by lia. rewrite !Hpos by lia.
  assert (N1 * 2 ^ (- k - f1) * 2 ^ (f1 - ez)
          + N2 * 2 ^ (- k - f2) * 2 ^ (f2 - ez)
          = (N1 + N2) * 2 ^ (- k - F) * 2 ^ (F - ez))%Z as ->.
  { rewrite <- !Z.mul_assoc, <- !Z.pow_add_r by lia.
    replace (- k - f1 + (f1 - ez))%Z with (- k - ez)%Z by lia.
    replace (- k - f2 + (f2 - ez))%Z with (- k - ez)%Z by lia.
    replace (- k - F + (F - ez))%Z with (- k - ez)%Z by lia. lia. }
  set (mS := ((N1 + N2) * 2 ^ (- k - F))%Z).
  assert (0 < mS)%Z as HmS.
  { assert (0 < 2 ^ (- k - F))%Z by (apply Z.pow_pos_nonneg; lia).
    unfold mS. nia. }
  assert (Z.log2 mS = (- k - F + Z.log2 (N1 + N2))%Z) as Hlog.
  { unfold mS. apply Z.log2_mul_pow2; lia. }
  assert (0 < mS * 2 ^ (F - ez))%Z as HM.
  { assert (0 < 2 ^ (F - ez))%Z by (apply Z.pow_pos_nonneg; lia). nia. }
  unfold binary_normalize.
  destruct (mS * 2 ^ (F - ez))%Z as [|M|M] eqn:HMeq; [lia| |lia].
  unfold binary_round.
  assert (fexp prec emax (Z.pos (digits2_pos M) + ez) = F) as HFM.
  { rewrite digits2_log2, <- HMeq, Z.log2_mul_pow2, Hlog by lia.
    unfold F. f_equal. lia. }
  rewrite HFM.
  assert (shl_align M ez F = (M, ez)) as ->.
  { unfold shl_align. destruct (F - ez)%Z eqn:Hd; [done..|lia]. }
  rewrite <- HMeq.
  rewrite (binary_round_aux_exact mS (F - ez) ez); [|lia|lia| |].
  - replace (ez + (F - ez))%Z with F by lia. done.
  - rewrite Hlog. replace (ez + (F - ez))%Z with F by lia.
    unfold F. f_equal. lia.
  - unfold emax, prec. lia.
Qed.

(** Multiples of [2^-k] below [2^53] units compare as their numbers of
    units do. *)
Lemma SFltb_repr k N1 N2 :
  (0 <= k <= 1074)%Z -> (0 <= N1 < 2 ^ 53)%Z -> (0 <= N2 < 2 ^ 53)%Z ->
  SFltb (repr k N1) (repr k N2) = (N1 <? N2)%Z.
Proof.
  intros Hk H1 H2.
  destruct (decide (N1 = 0%Z)) as [->|Hn1].
  { destruct N2 as [|n2|n2]; [done|done|lia]. }
  destruct (decide (N2 = 0%Z)) as [->|Hn2].
  { destruct N1 as [|n1|n1]; [done| |lia]. simpl. symmetry. 
    apply Z.ltb_ge. lia. }
  rewrite !repr_pos by lia. cbv zeta.
  set (f1 := fexp prec emax (Z.log2 N1 + 1 - k)).
  set (f2 := fexp prec emax (Z.log2 N2 + 1 - k)).
  destruct (repr_exponent k N1) as [Hf1 Hf1']; [lia..|].
  destruct (repr_exponent k N2) as [Hf2 Hf2']; [lia..|].
  fold f1 in Hf1, Hf1'. fold f2 in Hf2, Hf2'.
  unfold SFltb, SFcompare.
  destruct (Z.compare_spec f1 f2) as [Heq|Hlt|Hgt].
  - rewrite Heq.
    assert (0 < 2 ^ (- k - f2))%Z as Hpow by (apply Z.pow_pos_nonneg; lia).
    change (Pos.compare_cont Eq ?a ?b) with (Z.compare (Z.pos a) (Z.pos b)).
    rewrite !Z2Pos.id by nia.
    destruct (Z.compare_spec (N1 * 2 ^ (- k - f2)) (N2 * 2 ^ (- k - f2)))
      as [He|Hl|Hg]; symmetry;
      [apply Z.ltb_ge|apply Z.ltb_lt|apply Z.ltb_ge]; nia.
  - symmetry. apply Z.ltb_lt.
    destruct (decide (N1 < N2)%Z) as [|Hge]; [done|].
    assert (f2 <= f1)%Z; [|lia].
    apply fexp_mono. pose proof (Z.log2_le_mono N2 N1). lia.
  - symmetry. apply Z.ltb_ge.
    destruct (decide (N2 <= N1)%Z) as [|Hlt]; [done|].
    assert (f1 <= f2)%Z; [|lia].
    apply fexp_mono. pose proof (Z.log2_le_mono N1 N2). lia.
Qed.

(** They are all below the sentinel. *)
Lemma SFltb_repr_DBL_MAX k N :
  (0 <= k <= 1074)%Z -> (0 <= N < 2 ^ 53)%Z ->
  SFltb (repr k N) (Prim2SF DBL_MAX) = true.
Proof.
  intros Hk HN.
  change (Prim2SF DBL_MAX) with (S754_finite false (2 ^ 53 - 1)%positive 971).
  destruct (decide (N = 0%Z)) as [->|Hn]; [done|].
  rewrite repr_pos by lia. cbv zeta.
  destruct (repr_exponent k N) as [Hf Hf']; [lia..|].
  unfold SFltb, SFcompare.
  destruct (Z.compare_spec (fexp prec emax (Z.log2 N + 1 - k)) 971);
    [lia|done|lia].
Qed.

(** The representation of a binary64 number that [units] accepts. *)
Lemma units_repr k x N : units k x = Some N -> Prim2SF x = repr k N.
Proof.
  unfold units. pose proof (Prim2SF_valid x) as Hvalid.
  destruct (Prim2SF x) as [[]|[]| |[] m e]; try done.
  { by intros [= <-]. }
  cbv zeta. destruct (0 <=? - (e + k))%Z eqn:Hz; [|done].
  destruct (Z.pos m mod 2 ^ (- (e + k)) =? 0)%Z eqn:Hmod; [|done].
  intros [= <-]. apply Z.leb_le in Hz. apply Z.eqb_eq in Hmod.
  set (z := (- (e + k))%Z) in *.
  assert (0 < 2 ^ z)%Z as Hpow by (apply Z.pow_pos_nonneg; lia).
  assert (Z.pos m = Z.pos m / 2 ^ z * 2 ^ z)%Z as Hm.
  { pose proof (Z.div_mod (Z.pos m) (2 ^ z)). lia. }
  set (N := (Z.pos m / 2 ^ z)%Z) in *.
  assert (0 < N)%Z as HN by nia.
  simpl in Hvalid. apply andb_prop in Hvalid as [Hcanon _].
  unfold canonical_mantissa in Hcanon. apply Z.eqb_eq in Hcanon.
  rewrite digits2_log2, Hm, Z.log2_mul_pow2 in Hcanon by lia.
  rewrite repr_pos by done. cbv zeta.
  replace (Z.log2 N + 1 - k)%Z with (z + Z.log2 N + 1 + e)%Z by lia.
  rewrite Hcanon. replace (- k - e)%Z with z by lia.
  rewrite <- Hm. done.
Qed.

Lemma units_nonneg k x N : units k x = Some N -> (0 <= N)%Z.
Proof.
  unfold units. destruct (Prim2SF x) as [[]|[]| |[] m e]; try done.
  { intros [= <-]. lia. }
  cbv zeta. destruct (_ && _) eqn:Hz; [|done]. intros [= <-].
  apply andb_prop in Hz as [Hz%Z.leb_le _].
  apply Z.div_pos; [lia|]. apply Z.pow_pos_nonneg; lia.
Qed.

(** The value of a multiple of [2^-k]. *)
Lemma exact_value_repr k x N :
  (0 <= k <= 1074)%Z -> (0 <= N < 2 ^ 53)%Z ->
  Prim2SF x = repr k N -> (exact_value x == unit_value k N)%Q.
Proof.
  intros Hk HN Hx. unfold exact_value, unit_value. rewrite Hx.
  destruct (decide (N = 0%Z)) as [->|Hn].
  { simpl repr. cbv iota. change (inject_Z 0) with 0%Q. ring. }
  rewrite repr_pos by lia. cbv zeta iota.
  destruct (repr_exponent k N) as [Hf Hf']; [lia..|].
  set (f := fexp prec emax (Z.log2 N + 1 - k)) in *.
  assert (0 < 2 ^ (- k - f))%Z as Hpow by (apply Z.pow_pos_nonneg; lia).
  rewrite Z2Pos.id by nia.
  rewrite inject_Z_mult, Zpower_Qpower by lia.
  change (inject_Z 2) with 2%Q.
  replace (- k)%Z with (- k - f + f)%Z at 2 by lia.
  rewrite (Qpower_plus 2 (- k - f) f) by done. ring.
Qed.

(** *** Rational numbers *)

Lemma Q2Qc_plus a b : (Q2Qc a + Q2Qc b)%Qc = Q2Qc (a + b).
Proof.
  apply Qc_is_canon. simpl. by rewrite !Qred_correct.
Qed.

Lemma Q2Qc_mult a b : (Q2Qc a * Q2Qc b)%Qc = Q2Qc (a * b).
Proof.
  apply Qc_is_canon. simpl. by rewrite !Qred_correct.
Qed.

Lemma Q2Qc_le a b : (Q2Qc a <= Q2Qc b)%Qc <-> (a <= b)%Q.
Proof. unfold Qcle. simpl. by rewrite !Qred_correct. Qed.

Lemma Q2Qc_lt a b : (Q2Qc a < Q2Qc b)%Qc <-> (a < b)%Q.
Proof. unfold Qclt. simpl. by rewrite !Qred_correct. Qed.

Lemma unit_value_plus k a b :
  (unit_value k (a + b) == unit_value k a + unit_value k b)%Q.
Proof. unfold unit_value. rewrite inject_Z_plus. ring. Qed.

Lemma unit_value_le k a b :
  (unit_value k a <= unit_value k b)%Q <-> (a <= b)%Z.
Proof.
  unfold unit_value. rewrite Qmult_le_r by (by apply Qpower_0_lt).
  by rewrite <- Zle_Qle.
Qed.

Lemma unit_value_lt k a b :
  (unit_value k a < unit_value k b)%Q <-> (a < b)%Z.
Proof.
  unfold unit_value. rewrite Qmult_lt_r by (by apply Qpower_0_lt).
  by rewrite <- Zlt_Qlt.
Qed.

Lemma unit_value_below_sentinel k N :
  (0 <= k)%Z -> (0 <= N < 2 ^ 53)%Z ->
  (Q2Qc (unit_value k N) < dmax)%Qc.
Proof.
  intros Hk HN. change (@dmax Qc _) with (Q2Qc (exact_value DBL_MAX)).
  apply Q2Qc_lt. apply Qle_lt_trans with (inject_Z N).
  - unfold unit_value. rewrite <- (Qmult_1_r (inject_Z N)) at 2.
    apply Qmult_le_compat_nonneg.
    + split; [|apply Qle_refl]. change 0%Q with (inject_Z 0).
      rewrite <- Zle_Qle. lia.
    + split; [by apply Qpower_0_le|].
      change 1%Q with (2 ^ 0)%Q. apply Qpower_le_compat_l; [lia|done].
  - apply Qlt_le_trans with (inject_Z (2 ^ 53)).
    + rewrite <- Zlt_Qlt. lia.
    + by vm_compute.
Qed.

Lemma units_value k x N :
  units k x = Some N -> (exact_value x == unit_value k N)%Q.
Proof.
  unfold units, exact_value, unit_value.
  destruct (Prim2SF x) as [[]|[]| |[] m e]; try done.
  { intros [= <-]. change (inject_Z 0) with 0%Q. ring. }
  cbv zeta. destruct (0 <=? - (e + k))%Z eqn:Hz; [|done].
  destruct (Z.pos m mod 2 ^ (- (e + k)) =? 0)%Z eqn:Hmod; [|done].
  intros [= <-]. apply Z.leb_le in Hz. apply Z.eqb_eq in Hmod.
  set (z := (- (e + k))%Z) in *.
  assert (0 < 2 ^ z)%Z as Hpow by (apply Z.pow_pos_nonneg; lia).
  assert (Z.pos m = Z.pos m / 2 ^ z * 2 ^ z)%Z as Hm.
  { pose proof (Z.div_mod (Z.pos m) (2 ^ z)). lia. }
  rewrite Hm at 1. rewrite inject_Z_mult, Zpower_Qpower by lia.
  change (inject_Z 2) with 2%Q.
  replace (- k)%Z with (z + e)%Z by lia.
  rewrite (Qpower_plus 2 z e) by done. ring.
Qed.

(** *** Binary64 numbers that are multiples of [2^-k] *)

Section Unrounded.
Variable k : Z.
Hypothesis Hk : (0 <= k <= 1074)%Z.

Lemma unrounded_units x N :
  units k x = Some N -> (N < 2 ^ 53)%Z ->
  unrounded k x (Q2Qc (exact_value x)).
Proof.
  intros Hx HN. exists N. split; [|split].
  - apply units_nonneg in Hx. lia.
  - by apply units_repr.
  - apply Q2Qc_eq_iff. by apply units_value.
Qed.

Lemma unrounded_value x c : unrounded k x c -> c = Q2Qc (exact_value x).
Proof.
  intros (N & HN & Hx & ->). apply Q2Qc_eq_iff. symmetry.
  by apply exact_value_repr.
Qed.

Lemma unrounded_nonneg x c : unrounded k x c -> (0 <= c)%Qc.
Proof.
  intros (N & HN & Hx & ->). apply Q2Qc_le. unfold unit_value.
  apply Qmult_le_0_compat; [|by apply Qpower_0_le].
  change 0%Q with (inject_Z 0). rewrite <- Zle_Qle. lia.
Qed.

Lemma unrounded_below_sentinel x c :
  unrounded k x c ->
  (x <? DBL_MAX)%float = true /\ Qcltb c dmax = true.
Proof.
  intros (N & HN & Hx & ->). split.
  - rewrite ltb_spec, Hx. by apply SFltb_repr_DBL_MAX.
  - apply Qcltb_lt. apply unit_value_below_sentinel; lia.
Qed.

(** A sum that stays below [2^53] units is not rounded. *)
Lemma unrounded_add x1 x2 c1 c2 M :
  unrounded k x1 c1 -> unrounded k x2 c2 ->
  (M < 2 ^ 53)%Z -> (c1 + c2 <= Q2Qc (unit_value k M))%Qc ->
  unrounded k (x1 + x2)%float (c1 + c2)%Qc.
Proof.
  intros (N1 & HN1 & Hx1 & ->) (N2 & HN2 & Hx2 & ->) HM Hle.
  rewrite Q2Qc_plus in Hle. apply (proj1 (Q2Qc_le _ _)) in Hle.
  assert (N1 + N2 <= M)%Z as HleZ.
  { apply (unit_value_le k). eapply Qle_trans; [|exact Hle].
    apply Qle_lteq. right. apply unit_value_plus. }
  exists (N1 + N2)%Z. split; [lia|]. split.
  - rewrite add_spec, Hx1, Hx2. apply SFadd_repr; lia.
  - rewrite Q2Qc_plus. apply Q2Qc_eq_iff. symmetry. apply unit_value_plus.
Qed.

(** The comparison of the code is the comparison of the values. *)
Lemma unrounded_ltb x1 x2 c1 c2 :
  unrounded k x1 c1 -> unrounded k x2 c2 ->
  (x1 <? x2)%float = Qcltb c1 c2.
Proof.
  intros (N1 & HN1 & Hx1 & ->) (N2 & HN2 & Hx2 & ->).
  rewrite ltb_spec, Hx1, Hx2, SFltb_repr by lia.
  destruct (N1 <? N2)%Z eqn:Hlt; symmetry.
  - apply Qcltb_lt, Q2Qc_lt, unit_value_lt. by apply Z.ltb_lt.
  - apply Qcltb_ge, Q2Qc_le, unit_value_le. by apply Z.ltb_ge.
Qed.

End Unrounded.

(** *** The tables when no sum is rounded *)

Lemma pv_exact_values p j :
  pv (exact_values p) j = Q2Qc (exact_value (pv p j)).
Proof.
  unfold pv, exact_values. rewrite list_lookup_fmap. by destruct (p !! j).
Qed.

Lemma qv_exact_values q j :
  qv (exact_values q) j = Q2Qc (exact_value (qv q j)).
Proof.
  unfold qv, exact_values. rewrite list_lookup_fmap. by destruct (q !! j).
Qed.

Lemma times_Qc_unit k d N :
  times_Qc d (Q2Qc (unit_value k N))
  = Q2Qc (unit_value k (Z.of_nat d * N)).
Proof.
  unfold times_Qc. rewrite Q2Qc_mult. apply Q2Qc_eq_iff.
  unfold unit_value. rewrite inject_Z_mult. ring.
Qed.

Lemma times_Qc_plus a b x :
  times_Qc (a + b) x = (times_Qc a x + times_Qc b x)%Qc.
Proof.
  induction b as [|b IH].
  - rewrite Nat.add_0_r. unfold times_Qc at 3.
    change (Q2Qc (inject_Z (Z.of_nat 0))) with 0%Qc. ring.
  - replace (a + S b) with (S (a + b)) by lia.
    rewrite !times_Qc_S, IH. ring.
Qed.

Lemma unit_weight_inputs k p q i l w :
  unit_weight k p q i l = Some w ->
  (0 <= w)%Z /\
  (forall j, i <= j < i + l ->
     exists N, units k (pv p j) = Some N /\ (N <= w)%Z) /\
  (forall j, i - 1 <= j < i + l -> 1 <= i ->
     exists N, units k (qv q j) = Some N /\ (N <= w)%Z).
Proof.
  revert w. induction l as [|l IH]; intros w Hw; simpl in Hw.
  - split; [by eapply units_nonneg|]. split; [lia|].
    intros j Hj Hi. assert (j = i - 1) as -> by lia. exists w. split; [done|lia].
  - destruct (unit_weight k p q i l) as [w'|]; [|done].
    destruct (units k (pv p (i + l))) as [a|] eqn:Ha; [|done].
    destruct (units k (qv q (i + l))) as [b|] eqn:Hb; [|done].
    injection Hw as <-. destruct (IH w' eq_refl) as (Hw' & Hps & Hqs).
    pose proof (units_nonneg _ _ _ Ha). pose proof (units_nonneg _ _ _ Hb).
    split; [lia|]. split.
    + intros j Hj. destruct (decide (j = i + l)) as [->|].
      * exists a. split; [done|lia].
      * destruct (Hps j) as (N & HN & Hle); [lia|].
        exists N. split; [done|lia].
    + intros j Hj Hi. destruct (decide (j = i + l)) as [->|].
      * exists b. split; [done|lia].
      * destruct (Hqs j) as (N & HN & Hle); [lia|done|].
        exists N. split; [done|lia].
Qed.

Lemma unit_weight_W k p q i l w :
  unit_weight k p q i l = Some w ->
  W (exact_values p) (exact_values q) i l = Q2Qc (unit_value k w).
Proof.
  revert w. induction l as [|l IH]; intros w Hw; simpl in Hw.
  - cbn [W]. rewrite qv_exact_values. apply Q2Qc_eq_iff.
    by apply units_value.
  - destruct (unit_weight k p q i l) as [w'|]; [|done].
    destruct (units k (pv p (i + l))) as [a|] eqn:Ha; [|done].
    destruct (units k (qv q (i + l))) as [b|] eqn:Hb; [|done].
    injection Hw as <-. cbn [W]. rewrite (IH w' eq_refl).
    rewrite pv_exact_values, qv_exact_values.
    change (@add Qc _) with Qcplus. rewrite !Q2Qc_plus.
    apply Q2Qc_eq_iff.
    rewrite (units_value _ _ _ Ha), (units_value _ _ _ Hb).
    rewrite !unit_value_plus. reflexivity.
Qed.

(** The scans of the code and of the recurrence on the values take the
    same steps. *)
Lemma scan_unrounded k (cost : nat -> float) (costQ : nat -> Qc) i m :
  (0 <= k <= 1074)%Z ->
  (forall r, i <= r < i + m -> unrounded k (cost r) (costQ r)) ->
  (scan cost i m).2 = (scan costQ i m).2 /\
  match m with
  | O => True
  | S _ => unrounded k (scan cost i m).1 (scan costQ i m).1
  end.
Proof.
  intros Hk. induction m as [|m IH]; intros Hcost; [done|].
  destruct IH as [Hroot Hacc]; [intros; apply Hcost; lia|].
  rewrite !scan_S. unfold scan_step.
  pose proof (Hcost (i + m) ltac:(lia)) as Hc.
  destruct m as [|m].
  - destruct (unrounded_below_sentinel k Hk _ _ Hc) as [H1 H2].
    change (scan cost i 0).1 with DBL_MAX.
    change (scan costQ i 0).1 with (@dmax Qc _).
    change (ltb (cost (i + 0)) DBL_MAX)
      with (PrimFloat.ltb (cost (i + 0)) DBL_MAX).
    change (ltb (costQ (i + 0)) dmax) with (Qcltb (costQ (i + 0)) dmax).
    by rewrite H1, H2.
  - assert (ltb (cost (i + S m)) (scan cost i (S m)).1
            = ltb (costQ (i + S m)) (scan costQ i (S m)).1) as ->.
    { by apply (unrounded_ltb k Hk). }
    by destruct (ltb (costQ (i + S m)) (scan costQ i (S m)).1).
Qed.

Lemma sum_range_single {D} `{Number D} (v : list D) a :
  sum_range v a a = default dzero (v !! a).
Proof. unfold sum_range. by rewrite Nat.sub_diag. Qed.

Lemma unrounded_inj k x y c :
  unrounded k x c -> unrounded k y c -> x = y.
Proof.
  intros (N & HN & Hx & ->) (N' & HN' & Hy & Heq).
  apply Q2Qc_eq_iff in Heq. apply Prim2SF_inj. rewrite Hx, Hy. f_equal.
  apply Z.le_antisymm; apply (unit_value_le k); apply Qle_lteq; right;
    [done|by symmetry].
Qed.

Section Dyadic.
Variables (k : Z) (p q : list float) (n : nat) (total : Z).
Hypothesis Hp : n + 1 <= length p.
Hypothesis Hq : n + 1 <= length q.
Hypothesis Hk : (0 <= k <= 1074)%Z.
Hypothesis Htotal : unit_weight k p q 1 n = Some total.
Hypothesis Hbound : (Z.of_nat (2 * n + 1) * total < 2 ^ 53)%Z.

Local Abbreviation pQ := (exact_values p).
Local Abbreviation qQ := (exact_values q).
Local Abbreviation bound :=
  (Q2Qc (unit_value k (Z.of_nat (2 * n + 1) * total))).

Lemma total_nonneg : (0 <= total)%Z.
Proof. by destruct (unit_weight_inputs _ _ _ _ _ _ Htotal) as [? _]. Qed.

Lemma unrounded_p j : 1 <= j <= n -> unrounded k (pv p j) (pv pQ j).
Proof.
  intros Hj. destruct (unit_weight_inputs _ _ _ _ _ _ Htotal)
    as (H0 & Hps & _).
  destruct (Hps j) as (N & HN & Hle); [lia|].
  rewrite pv_exact_values. apply (unrounded_units k _ N); [done|nia].
Qed.

Lemma unrounded_q j : j <= n -> unrounded k (qv q j) (qv qQ j).
Proof.
  intros Hj. destruct (unit_weight_inputs _ _ _ _ _ _ Htotal)
    as (H0 & _ & Hqs).
  destruct (Hqs j) as (N & HN & Hle); [lia|lia|].
  rewrite qv_exact_values. apply (unrounded_units k _ N); [done|nia].
Qed.

Lemma length_pQ : n + 1 <= length pQ.
Proof. unfold exact_values. by rewrite length_fmap. Qed.

Lemma length_qQ : n + 1 <= length qQ.
Proof. unfold exact_values. by rewrite length_fmap. Qed.

Lemma pQ_nonneg j : 1 <= j <= n -> (0 <= pv pQ j)%Qc.
Proof. intros Hj. by eapply unrounded_nonneg, unrounded_p. Qed.

Lemma qQ_nonneg j : j <= n -> (0 <= qv qQ j)%Qc.
Proof. intros Hj. by eapply unrounded_nonneg, unrounded_q. Qed.

Lemma times_total d :
  times_Qc d (W pQ qQ 1 n) = Q2Qc (unit_value k (Z.of_nat d * total)).
Proof. by rewrite (unit_weight_W k p q 1 n total Htotal), times_Qc_unit. Qed.

Lemma total_below_sentinel :
  (times_Qc (2 * n + 1) (W pQ qQ 1 n) < dmax)%Qc.
Proof.
  rewrite times_total. apply unit_value_below_sentinel; [lia|].
  pose proof total_nonneg. lia.
Qed.

Lemma times_le_bound d :
  d <= 2 * n + 1 -> (times_Qc d (W pQ qQ 1 n) <= bound)%Qc.
Proof.
  intros Hd. rewrite times_total. apply Q2Qc_le, unit_value_le.
  pose proof total_nonneg. nia.
Qed.

Lemma W_le_bound i l :
  1 <= i -> i + l <= n + 1 -> (W pQ qQ i l <= bound)%Qc.
Proof.
  intros Hi Hil.
  eapply Qcle_trans;
    [apply (W_total pQ qQ n length_pQ length_qQ pQ_nonneg qQ_nonneg i l);
       lia|].
  rewrite <- (times_Qc_1 (W pQ qQ 1 n)). apply times_le_bound. lia.
Qed.

Lemma unrounded_W i l :
  1 <= i -> i + l <= n + 1 -> unrounded k (W p q i l) (W pQ qQ i l).
Proof.
  intros Hi. induction l as [|l IH]; intros Hil.
  - apply unrounded_q. lia.
  - cbn [W].
    pose proof (W_le_bound i (S l) Hi Hil) as Hle. cbn [W] in Hle.
    change (@add Qc _) with Qcplus in *.
    assert (0 <= qv qQ (i + l))%Qc as Hq0 by (apply qQ_nonneg; lia).
    apply (unrounded_add k Hk _ _ _ _ (Z.of_nat (2 * n + 1) * total));
      [|apply unrounded_q; lia|done|done].
    apply (unrounded_add k Hk _ _ _ _ (Z.of_nat (2 * n + 1) * total));
      [apply IH; lia|apply unrounded_p; lia|done|].
    eapply Qcle_trans; [|exact Hle].
    by apply Qcle_plus_nonneg; [apply Qcle_refl|].
Qed.

Lemma E_bounded_values l i :
  1 <= i -> i + l <= n + 1 ->
  (0 <= E pQ qQ i l <= times_Qc (2 * l + 1) (W pQ qQ 1 n))%Qc /\
  (1 <= l -> i <= R pQ qQ i l < i + l).
Proof.
  apply (E_bounded pQ qQ n length_pQ length_qQ pQ_nonneg qQ_nonneg
           total_below_sentinel).
Qed.

(** Every candidate cost stays below [2^53] units. *)
Lemma cand_le_bound i l r :
  1 <= i -> i + l <= n + 1 -> i <= r < i + l ->
  (E pQ qQ i (r - i) + E pQ qQ (r + 1) (i + l - 1 - r) + W pQ qQ i l
   <= bound)%Qc.
Proof.
  intros Hi Hil Hr.
  destruct (E_bounded_values (r - i) i) as [[_ Ha] _]; [lia..|].
  destruct (E_bounded_values (i + l - 1 - r) (r + 1)) as [[_ Hb] _]; [lia..|].
  pose proof (W_total pQ qQ n length_pQ length_qQ pQ_nonneg qQ_nonneg i l
                Hi Hil) as Hw.
  rewrite <- (times_Qc_1 (W pQ qQ 1 n)) in Hw.
  eapply Qcle_trans;
    [apply Qcplus_le_compat; [apply Qcplus_le_compat|]; eassumption|].
  rewrite <- !times_Qc_plus. apply times_le_bound. lia.
Qed.

(** When no sum is rounded the costs of the code are those of the
    recurrence on the values, and the roots are the same. *)
Lemma unrounded_E l : forall i,
  1 <= i -> i + l <= n + 1 ->
  unrounded k (E p q i l) (E pQ qQ i l) /\ R p q i l = R pQ qQ i l.
Proof.
  induction l as [l IH] using lt_wf_ind. intros i Hi Hil.
  destruct l as [|l].
  - rewrite !E_0. split; [apply unrounded_q; lia|done].
  - rewrite !E_S, !R_S.
    destruct (scan_unrounded k (cand p q i (S l)) (cand pQ qQ i (S l)) i
                (S l) Hk) as [Hroot Hacc]; [|done].
    intros r Hr. unfold cand.
    destruct (IH (r - i) ltac:(lia) i) as [Ha _]; [lia..|].
    destruct (IH (i + S l - 1 - r) ltac:(lia) (r + 1)) as [Hb _]; [lia..|].
    pose proof (unrounded_W i (S l) Hi Hil) as Hw.
    pose proof (cand_le_bound i (S l) r Hi Hil Hr) as Hle.
    change (@add Qc _) with Qcplus.
    apply (unrounded_add k Hk _ _ _ _ (Z.of_nat (2 * n + 1) * total));
      [|done|done|done].
    apply (unrounded_add k Hk _ _ _ _ (Z.of_nat (2 * n + 1) * total));
      [done|done|done|].
    eapply Qcle_trans; [|exact Hle].
    apply Qcle_plus_nonneg; [apply Qcle_refl|].
    by eapply unrounded_nonneg.
Qed.

Lemma roots_of_values i l :
  1 <= i -> 1 <= l -> i + l <= n + 1 -> i <= R pQ qQ i l < i + l.
Proof. intros Hi Hl Hil. by apply E_bounded_values. Qed.

(** The sums of C3 on the values. *)
Lemma sum_pQ_nonneg a b :
  1 <= a -> a <= b -> b <= n -> (0 <= sum_range pQ a b)%Qc.
Proof.
  intros Ha Hab. induction b as [|b IH]; intros Hb; [lia|].
  destruct (decide (a = S b)) as [->|Hne].
  - rewrite sum_range_single. apply pQ_nonneg. lia.
  - rewrite sum_range_step by lia. change (@add Qc _) with Qcplus.
    apply Qcplus_nonneg_nonneg; [apply IH; lia|]. apply pQ_nonneg. lia.
Qed.

Lemma sum_qQ_nonneg a b :
  a <= b -> b <= n -> (0 <= sum_range qQ a b)%Qc.
Proof.
  intros Hab. induction b as [|b IH]; intros Hb.
  - assert (a = 0) as -> by lia. rewrite sum_range_single.
    apply qQ_nonneg. lia.
  - destruct (decide (a = S b)) as [->|Hne].
    + rewrite sum_range_single. apply qQ_nonneg. lia.
    + rewrite sum_range_step by lia. change (@add Qc _) with Qcplus.
      apply Qcplus_nonneg_nonneg; [apply IH; lia|]. apply qQ_nonneg. lia.
Qed.

Lemma sums_le_bound i j :
  1 <= i -> i <= j -> j <= n ->
  (sum_range pQ i j + sum_range qQ (i - 1) j <= bound)%Qc.
Proof.
  intros Hi Hij Hj.
  pose proof (W_le_bound i (S (j - i)) Hi ltac:(lia)) as Hle.
  rewrite W_sum_of_sums in Hle by done.
  by replace (i + (j - i)) with j in Hle by lia.
Qed.

Lemma unrounded_sum_p i j :
  1 <= i -> i <= j -> j <= n ->
  unrounded k (sum_range p i j) (sum_range pQ i j).
Proof.
  intros Hi Hij. induction j as [|j IH]; intros Hj; [lia|].
  destruct (decide (i = S j)) as [->|Hne].
  - rewrite !sum_range_single. apply unrounded_p. lia.
  - pose proof (sums_le_bound i (S j) Hi ltac:(lia) Hj) as Hle.
    rewrite (sum_range_step pQ) in Hle by lia.
    rewrite !sum_range_step by lia. change (@add Qc _) with Qcplus in *.
    apply (unrounded_add k Hk _ _ _ _ (Z.of_nat (2 * n + 1) * total));
      [apply IH; lia|apply unrounded_p; lia|done|].
    eapply Qcle_trans; [|exact Hle].
    apply Qcle_plus_nonneg; [apply Qcle_refl|].
    apply sum_qQ_nonneg; lia.
Qed.

Lemma unrounded_sum_q i j :
  1 <= i -> i - 1 <= j -> j <= n ->
  unrounded k (sum_range q (i - 1) j) (sum_range qQ (i - 1) j).
Proof.
  intros Hi Hij. induction j as [|j IH]; intros Hj.
  - assert (i - 1 = 0) as -> by lia. rewrite !sum_range_single.
    apply unrounded_q. lia.
  - destruct (decide (i - 1 = S j)) as [->|Hne].
    + rewrite !sum_range_single. apply unrounded_q. lia.
    + pose proof (sums_le_bound i (S j) Hi ltac:(lia) Hj) as Hle.
      rewrite (sum_range_step qQ) in Hle by lia.
      rewrite !sum_range_step by lia. change (@add Qc _) with Qcplus in *.
      apply (unrounded_add k Hk _ _ _ _ (Z.of_nat (2 * n + 1) * total));
        [apply IH; lia|apply unrounded_q; lia|done|].
      rewrite Qcplus_comm in Hle. eapply Qcle_trans; [|exact Hle].
      apply Qcle_plus_nonneg; [apply Qcle_refl|].
      apply sum_pQ_nonneg; lia.
Qed.

(** The weight is the sum of the two sums, each added up on its own. *)
Lemma W_sum_of_sums_unrounded i j :
  1 <= i -> i <= j -> j <= n ->
  W p q i (j + 1 - i)
  = (sum_range p i j + sum_range q (i - 1) j)%float.
Proof.
  intros Hi Hij Hj.
  apply (unrounded_inj k _ _ (W pQ qQ i (j + 1 - i))).
  - apply unrounded_W; lia.
  - replace (j + 1 - i) with (S (j - i)) by lia.
    rewrite W_sum_of_sums by done.
    replace (i + (j - i)) with j by lia.
    apply (unrounded_add k Hk _ _ _ _ (Z.of_nat (2 * n + 1) * total));
      [by apply unrounded_sum_p|apply unrounded_sum_q; lia|done|].
    by apply sums_le_bound.
Qed.

End Dyadic.

(** *** The expected cost on the values *)

Lemma weighted_depths_values ds (v : nat -> float) (vQ : nat -> Qc) first :
  (forall j, vQ j = Q2Qc (exact_value (v j))) ->
  weighted_depths times_Qc ds vQ first
  = Q2Qc (exact_weighted_depths ds v first).
Proof.
  intros Hv. revert first. induction ds as [|d ds IH]; intros first; [done|].
  cbn [weighted_depths exact_weighted_depths]. rewrite IH, Hv.
  unfold times_Qc. change (@add Qc _) with Qcplus.
  by rewrite Q2Qc_mult, Q2Qc_plus.
Qed.

Lemma expected_cost_values p q s :
  expected_cost times_Qc (exact_values p) (exact_values q) s
  = Q2Qc (exact_cost p q s).
Proof.
  unfold expected_cost, depth_cost, exact_cost.
  rewrite (weighted_depths_values _ (pv p)) by apply pv_exact_values.
  rewrite (weighted_depths_values _ (qv q)) by apply qv_exact_values.
  change (@add Qc _) with Qcplus. by rewrite Q2Qc_plus.
Qed.

Lemma exact_inputs_inv k p q n :
  exact_inputs k p q n = true ->
  (0 <= k <= 1074)%Z /\
  exists total, unit_weight k p q 1 n = Some total /\
                (Z.of_nat (2 * n + 1) * total < 2 ^ 53)%Z.
Proof.
  unfold exact_inputs. intros [[Hk1 Hk2]%andb_prop Hw]%andb_prop.
  apply Z.leb_le in Hk1, Hk2. split; [lia|].
  destruct (unit_weight k p q 1 n) as [total|]; [|done].
  exists total. split; [done|]. by apply Z.ltb_lt.
Qed.

(** The run when no sum is rounded: the costs have the values of the
    recurrence on the values of the inputs, and the roots are its
    roots. *)
Lemma unrounded_run k p q n :
  n + 1 <= length p -> n + 1 <= length q ->
  exact_inputs k p q n = true ->
  exists t,
    BuildOptimalBST p q n = Some t /\
    (exists c, get2 (tab_e t) 1 n = Some c /\
       Q2Qc (exact_value c) = E (exact_values p) (exact_values q) 1 n) /\
    (forall i l, 1 <= i -> 1 <= l -> i + l <= n + 1 ->
       get2 (tab_root t) i (i + l - 1)
       = Some (R (exact_values p) (exact_values q) i l) /\
       i <= R (exact_values p) (exact_values q) i l < i + l).
Proof.
  intros Hp Hq (Hk & total & Htotal & Hbound)%exact_inputs_inv.
  destruct (BuildOptimalBST_cells p q n Hp Hq) as (t & Hrun & _).
  exists t. split; [done|]. split.
  - destruct (BuildOptimalBST_cell p q n Hp Hq t 1 n) as (He & _ & _);
      [done|lia..|].
    replace (n + 1 - 1) with n in He by lia.
    exists (E p q 1 n). split; [done|].
    destruct (unrounded_E k p q n total Hp Hq Hk Htotal Hbound n 1)
      as [Hu _]; [lia..|].
    symmetry. by eapply unrounded_value.
  - intros i l Hi Hl Hil. split.
    + destruct (BuildOptimalBST_cell p q n Hp Hq t i (i + l - 1))
        as (_ & _ & HR); [done|lia..|].
      rewrite HR by lia. replace (i + l - 1 + 1 - i) with l by lia.
      f_equal.
      by destruct (unrounded_E k p q n total Hp Hq Hk Htotal Hbound l i)
        as [_ ?]; [lia..|].
    + by apply (roots_of_values k p q n total).
Qed.

(** C1 (amended): when no sum of the run is rounded (the inputs
    p[1..n], q[0..n] are 0 or positive multiples of some 2^-k,
    0 <= k <= 1074, and their total taken 2n + 1 times is less than 2^53
    such units), the run on binary64 numbers ends and the value of
    e[1][n] is the least expected cost
    sum(depth(key_i) * p[i]) + sum(depth(gap_j) * q[j]) of a binary search
    tree shape on the n keys, the root at depth 1: no shape costs less
    and one shape costs as much. *)
Theorem optimal_cost_without_rounding (k : Z) (p q : list float) (n : nat) :
  n + 1 <= length p -> n + 1 <= length q ->
  exact_inputs k p q n = true ->
  exists t c,
    BuildOptimalBST p q n = Some t /\
    get2 (tab_e t) 1 n = Some c /\
    (forall s, keys_in s = n -> (exact_value c <= exact_cost p q s)%Q) /\
    (exists s, keys_in s = n /\ (exact_cost p q s == exact_value c)%Q).
Proof.
  intros Hp Hq Hexact.
  destruct (unrounded_run k p q n Hp Hq Hexact)
    as (t & Hrun & (c & He & Hc) & Hroots).
  destruct (E_optimal (exact_values p) (exact_values q) n
              (length_pQ p n Hp) (length_pQ q n Hq)) as [Hleast Hsome].
  { intros i l Hi Hl Hil. by apply Hroots. }
  exists t, c. split; [done|]. split; [done|]. split.
  - intros s Hs. apply Q2Qc_le. rewrite Hc, <- expected_cost_values.
    by apply Hleast.
  - destruct Hsome as (s & Hs & Hcost). exists s. split; [done|].
    apply Q2Qc_eq_iff. by rewrite <- expected_cost_values, Hcost.
Qed.

Lemma optimal_cost_without_rounding_witness :
  5 + 1 <= length p_dyadic /\ 5 + 1 <= length q_dyadic /\
  exact_inputs 4 p_dyadic q_dyadic 5 = true /\
  exists t c,
    BuildOptimalBST p_dyadic q_dyadic 5 = Some t /\
    get2 (tab_e t) 1 5 = Some c /\
    (forall s, keys_in s = 5 ->
       (exact_value c <= exact_cost p_dyadic q_dyadic s)%Q) /\
    (exists s, keys_in s = 5 /\
       (exact_cost p_dyadic q_dyadic s == exact_value c)%Q).
Proof.
  split; [simpl; lia|]. split; [simpl; lia|].
  split; [vm_compute; reflexivity|].
  apply (optimal_cost_without_rounding 4 p_dyadic q_dyadic 5);
    [simpl; lia|simpl; lia|vm_compute; reflexivity].
Defined.

(** ** The report of an optimal tree *)

(** When no sum of the run is rounded the two functions compose: the
    report over [1,n] of the root table that [optimalBST] builds is the
    pre-order listing of a search tree on the n keys whose expected cost
    is the value of e[1][n], and no search tree on the n keys costs
    less. *)
Theorem report_of_optimal_tree (k : Z) (p q : list float) (n : nat) :
  n + 1 <= length p -> n + 1 <= length q ->
  exact_inputs k p q n = true ->
  exists t s c,
    BuildOptimalBST p q n = Some t /\
    keys_in s = n /\
    reportStructure (n + 1) (tab_root t) 1 (Z.of_nat n) 0 false
    = Some (shape_facts s 1 0 false) /\
    get2 (tab_e t) 1 n = Some c /\
    (exact_cost p q s == exact_value c)%Q /\
    forall s', keys_in s' = n ->
      (exact_cost p q s <= exact_cost p q s')%Q.
Proof.
  intros Hp Hq Hexact.
  destruct (unrounded_run k p q n Hp Hq Hexact)
    as (t & Hrun & (c & He & Hc) & Hcells).
  set (pQ := exact_values p) in *. set (qQ := exact_values q) in *.
  pose proof (length_pQ p n Hp) as HpQ. pose proof (length_pQ q n Hq) as HqQ.
  fold pQ in HpQ. fold qQ in HqQ.
  assert (forall i l, 1 <= i -> 1 <= l -> i + l <= n + 1 ->
            i <= R pQ qQ i l < i + l) as Hroots.
  { intros i l Hi Hl Hil. by apply Hcells. }
  assert (roots_in_range (tab_root t) n = true) as Hrange.
  { unfold roots_in_range. apply forallb_forall. intros a Ha%in_seq.
    apply forallb_forall. intros b Hb%in_seq.
    destruct (Hcells a (b + 1 - a)) as [Hg Hr]; [lia..|].
    replace (a + (b + 1 - a) - 1) with b in Hg by lia. rewrite Hg.
    apply andb_true_intro. split; apply Nat.leb_le; lia. }
  destruct (reportStructure_shape (tab_root t) n Hrange n 1 n 0%Z false)
    as [_ Hrep]; [lia..|].
  rewrite (shape_of_roots_best pQ qQ n) in Hrep by (done || lia).
  destruct (best_shape_cost pQ qQ n HpQ HqQ Hroots n 1 n) as [Hk Hcost];
    [lia..|].
  assert (Q2Qc (exact_cost p q (best_shape pQ qQ n 1 n)) = E pQ qQ 1 n)
    as Hbest.
  { rewrite <- expected_cost_values. unfold expected_cost.
    by rewrite depth_cost_recurrence by lia. }
  exists t, (best_shape pQ qQ n 1 n), c. split_and!.
  - done.
  - done.
  - replace (n + 1) with (S n) by lia.
    replace (Z.of_nat n) with (Z.of_nat (1 + n) - 1)%Z by lia. done.
  - done.
  - apply Q2Qc_eq_iff. by rewrite Hbest.
  - intros s' Hs'. apply Q2Qc_le. rewrite Hbest, <- expected_cost_values.
    by apply (E_optimal pQ qQ n HpQ HqQ Hroots).
Qed.

Lemma report_of_optimal_tree_witness :
  5 + 1 <= length p_dyadic /\ 5 + 1 <= length q_dyadic /\
  exact_inputs 4 p_dyadic q_dyadic 5 = true /\
  exists t s c,
    BuildOptimalBST p_dyadic q_dyadic 5 = Some t /\
    keys_in s = 5 /\
    reportStructure (5 + 1) (tab_root t) 1 (Z.of_nat 5) 0 false
    = Some (shape_facts s 1 0 false) /\
    get2 (tab_e t) 1 5 = Some c /\
    (exact_cost p_dyadic q_dyadic s == exact_value c)%Q /\
    forall s', keys_in s' = 5 ->
      (exact_cost p_dyadic q_dyadic s <= exact_cost p_dyadic q_dyadic s')%Q.
Proof.
  split; [simpl; lia|]. split; [simpl; lia|].
  split; [vm_compute; reflexivity|].
  apply (report_of_optimal_tree 4 p_dyadic q_dyadic 5);
    [simpl; lia|simpl; lia|vm_compute; reflexivity].
Defined.

(** ** The weights when no sum is rounded *)

(** When no sum of the run is rounded the weights are the sums of C3:
    w[i][j] is sum(p[i..j]) + sum(q[i-1..j]), each of the two sums added
    up on its own in binary64. *)
Theorem weight_sum_of_sums_without_rounding (k : Z) (p q : list float)
    (n : nat) :
  n + 1 <= length p -> n + 1 <= length q ->
  exact_inputs k p q n = true ->
  exists t, BuildOptimalBST p q n = Some t /\
    forall i j, 1 <= i <= j -> j <= n ->
      get2 (tab_w t) i j
      = Some (add (sum_range p i j) (sum_range q (i - 1) j)).
Proof.
  intros Hp Hq (Hk & total & Htotal & Hbound)%exact_inputs_inv.
  destruct (BuildOptimalBST_cells p q n Hp Hq) as (t & Hrun & _).
  exists t. split; [done|]. intros i j Hij Hj.
  destruct (BuildOptimalBST_cell p q n Hp Hq t i j) as (_ & -> & _);
    [done|lia..|].
  f_equal.
  apply (W_sum_of_sums_unrounded k p q n total Hp Hq Hk Htotal Hbound);
    lia.
Qed.

Lemma weight_sum_of_sums_without_rounding_witness :
  5 + 1 <= length p_dyadic /\ 5 + 1 <= length q_dyadic /\
  exact_inputs 4 p_dyadic q_dyadic 5 = true /\
  exists t, BuildOptimalBST p_dyadic q_dyadic 5 = Some t /\
    forall i j, 1 <= i <= j -> j <= 5 ->
      get2 (tab_w t) i j
      = Some (add (sum_range p_dyadic i j) (sum_range q_dyadic (i - 1) j)).
Proof.
  split; [simpl; lia|]. split; [simpl; lia|].
  split; [vm_compute; reflexivity|].
  apply (weight_sum_of_sums_without_rounding 4 p_dyadic q_dyadic 5);
    [simpl; lia|simpl; lia|vm_compute; reflexivity].
Defined.

(** ** The reference run is rounded *)

Lemma shapes_complete fuel : forall s,
  keys_in s <= fuel -> In s (shapes fuel (keys_in s)).
Proof.
  induction fuel as [|fuel IH]; intros s Hs.
  - destruct s as [|l r]; [by left|simpl in Hs; lia].
  - destruct s as [|l r]; [by left|].
    cbn [keys_in] in *.
    replace (keys_in l + 1 + keys_in r) with (S (keys_in l + keys_in r))
      by lia.
    cbn [shapes]. apply in_flat_map. exists (keys_in l). split.
    { apply in_seq. lia. }
    apply in_flat_map. exists l. split; [apply IH; lia|].
    apply in_map.
    replace (keys_in l + keys_in r - keys_in l) with (keys_in r) by lia.
    apply IH. lia.
Qed.

Lemma all_above_spec p q x n s :
  all_above p q x (shapes n n) = true -> keys_in s = n ->
  (x < exact_cost p q s)%Q.
Proof.
  unfold all_above. rewrite forallb_forall. intros Hall Hs.
  specialize (Hall s). rewrite <- Hs in Hall at 2.
  specialize (Hall (shapes_complete n s ltac:(lia))).
  apply Qlt_alt. by destruct (x ?= exact_cost p q s)%Q.
Qed.

(** On the inputs of [main] the sums are rounded, and the result is not
    the optimum of C1 on the values of these inputs: e[1][5] = 2.75 is
    less than the expected cost of every tree on the five keys, and the
    tree the program reports, with k2 at its root, costs
    2.75 + 9 * 2^-56, more than the tree with k4 at its root, which costs
    2.75 + 2^-53. *)
Theorem reference_tree_not_cheapest :
  exists t c s,
    BuildOptimalBST p5 q5 5 = Some t /\
    get2 (tab_e t) 1 5 = Some c /\
    keys_in s = 5 /\
    reportStructure 6 (tab_root t) 1 5 0 false
    = Some (shape_facts s 1 0 false) /\
    (forall s', keys_in s' = 5 -> (exact_value c < exact_cost p5 q5 s')%Q) /\
    exists s', keys_in s' = 5 /\ (exact_cost p5 q5 s' < exact_cost p5 q5 s)%Q.
Proof.
  exists tables5, 2.75%float,
    (Key (Key Gap Gap) (Key (Key (Key Gap Gap) Gap) Gap)).
  split; [vm_compute; reflexivity|]. split; [vm_compute; reflexivity|].
  split; [done|]. split; [vm_compute; reflexivity|]. split.
  - intros s' Hs'. apply (all_above_spec p5 q5 _ 5); [|done].
    vm_compute. reflexivity.
  - exists (Key (Key (Key Gap Gap) (Key Gap Gap)) (Key Gap Gap)).
    split; [done|]. vm_compute. reflexivity.
Qed.

(** * The sibling programs *)

(** ** [int] arithmetic *)

Lemma int_Some z : (INT_MIN <= z <= INT_MAX)%Z -> int z = Some z.
Proof. intros Hz. unfold int. by rewrite decide_True. Qed.

Lemma int_inv z v : int z = Some v -> v = z /\ (INT_MIN <= z <= INT_MAX)%Z.
Proof. unfold int. case_decide; [|done]. by intros [= <-]. Qed.

(** ** Longest common subsequence *)

Section LCSFacts.
Import LCS.
Variables (X Y : list Ascii.ascii).

Lemma lcs_0_r i : lcs X Y i 0 = 0%Z.
Proof. by destruct i. Qed.

Lemma lcs_S i j :
  lcs X Y (S i) (S j)
  = match X !! i, Y !! j with
    | Some x, Some y =>
        if Ascii.eqb x y then (lcs X Y i j + 1)%Z
        else if (lcs X Y (S i) j <=? lcs X Y i (S j))%Z then lcs X Y i (S j)
        else lcs X Y (S i) j
    | _, _ => 0%Z
    end.
Proof. done. Qed.

Lemma lcs_bounds i j : (0 <= lcs X Y i j <= Z.of_nat (i `min` j))%Z.
Proof.
  revert j. induction i as [|i IHi]; intros j; [simpl; lia|].
  induction j as [|j IHj]; [rewrite lcs_0_r; lia|].
  rewrite lcs_S.
  destruct (X !! i) as [x|]; [|lia]. destruct (Y !! j) as [y|]; [|lia].
  pose proof (IHi j). pose proof (IHi (S j)).
  destruct (Ascii.eqb x y); [lia|].
  destruct (_ <=? _)%Z; lia.
Qed.

Lemma arrow_S i j x y :
  X !! i = Some x -> Y !! j = Some y ->
  arrow X Y (S i) (S j)
  = if Ascii.eqb x y then DIAGONAL
    else if (lcs X Y (S i) j <=? lcs X Y i (S j))%Z then UP else LEFT.
Proof. intros Hx Hy. unfold arrow. by rewrite Hx, Hy. Qed.

Lemma lcs_cell_step_filled i j t :
  1 <= i <= length X -> 1 <= j <= length Y ->
  (Z.of_nat (length X) < INT_MAX)%Z ->
  filled X Y i j t ->
  exists t', cell_step X Y i j t = Some t' /\ filled X Y i (j + 1) t'.
Proof.
  intros Hi Hj Hm (Hsh & Hdone & Hnone). unfold cell_step.
  destruct (lookup_lt_is_Some_2 X (i - 1)) as [x Hx]; [lia|].
  destruct (lookup_lt_is_Some_2 Y (j - 1)) as [y Hy]; [lia|].
  rewrite Hx, Hy. simpl.
  destruct (Hdone (i - 1) (j - 1)) as [Hdiag _]; [lia..|].
  destruct (Hdone (i - 1) j) as [Hup _]; [lia..|].
  destruct (Hdone i (j - 1)) as [Hleft _]; [lia..|].
  destruct (Hsh i j) as [Hc Hb]; [lia..|].
  assert (lcs X Y i j
          = if Ascii.eqb x y then (lcs X Y (i - 1) (j - 1) + 1)%Z
            else if (lcs X Y i (j - 1) <=? lcs X Y (i - 1) j)%Z
                 then lcs X Y (i - 1) j else lcs X Y i (j - 1)) as Hlcs.
  { destruct i as [|i]; [lia|]. destruct j as [|j]; [lia|].
    rewrite lcs_S. replace (S i - 1) with i in * by lia.
    replace (S j - 1) with j in * by lia. by rewrite Hx, Hy. }
  assert (arrow X Y i j
          = if Ascii.eqb x y then DIAGONAL
            else if (lcs X Y i (j - 1) <=? lcs X Y (i - 1) j)%Z
                 then UP else LEFT) as Harrow.
  { destruct i as [|i]; [lia|]. destruct j as [|j]; [lia|].
    replace (S i - 1) with i in * by lia.
    replace (S j - 1) with j in * by lia. by apply arrow_S. }
  assert (forall v d c' b',
            set2 (tab_c t) i j v = Some c' -> set2 (tab_b t) i j d = Some b' ->
            v = lcs X Y i j -> d = arrow X Y i j ->
            filled X Y i (j + 1) (Tables c' b')) as Hfin.
  { intros v d c' b' Hc' Hb' -> ->. split_and!; cbn [tab_c tab_b].
    - intros a b Ha Hb0. destruct (Hsh a b Ha Hb0).
      split; by eapply get2_set2_is_Some.
    - intros a b Ha Hb0 Hab.
      destruct (decide ((a, b) = (i, j))) as [[= -> ->]|Hne].
      + by rewrite (get2_set2_eq _ _ _ _ _ Hc'), (get2_set2_eq _ _ _ _ _ Hb').
      + rewrite (get2_set2_ne _ _ _ _ _ _ _ Hc'),
          (get2_set2_ne _ _ _ _ _ _ _ Hb') by done.
        apply Hdone; [done..|].
        destruct Hab as [?|[?|[?|[-> ?]]]]; [auto..|].
        right. right. right. split; [done|].
        destruct (decide (b = j)) as [->|]; [done|lia].
    - intros a b Ha Hb0 Ha1 Hb1 Hab.
      rewrite (get2_set2_ne _ _ _ _ _ _ _ Hb') by (intros [= -> ->]; lia).
      apply Hnone; [done..|lia]. }
  destruct (Ascii.eqb x y).
  - rewrite Hdiag. simpl.
    pose proof (lcs_bounds (i - 1) (j - 1)).
    rewrite int_Some by (unfold INT_MIN, INT_MAX in *; lia). simpl.
    destruct (set2_is_Some (tab_c t) i j (lcs X Y (i - 1) (j - 1) + 1)%Z Hc)
      as [c' Hc'].
    destruct (set2_is_Some (tab_b t) i j DIAGONAL Hb) as [b' Hb'].
    rewrite Hc', Hb'. simpl. eexists. split; [done|]. by eapply Hfin.
  - rewrite Hup, Hleft. simpl.
    destruct (lcs X Y i (j - 1) <=? lcs X Y (i - 1) j)%Z.
    + destruct (set2_is_Some (tab_c t) i j (lcs X Y (i - 1) j) Hc) as [c' Hc'].
      destruct (set2_is_Some (tab_b t) i j UP Hb) as [b' Hb'].
      rewrite Hc', Hb'. simpl. eexists. split; [done|]. by eapply Hfin.
    + destruct (set2_is_Some (tab_c t) i j (lcs X Y i (j - 1)) Hc) as [c' Hc'].
      destruct (set2_is_Some (tab_b t) i j LEFT Hb) as [b' Hb'].
      rewrite Hc', Hb'. simpl. eexists. split; [done|]. by eapply Hfin.
Qed.

Lemma lcs_row_filled i t :
  1 <= i <= length X -> (Z.of_nat (length X) < INT_MAX)%Z ->
  filled X Y i 1 t ->
  exists t', for_each (seq 1 (length Y)) (cell_step X Y i) t = Some t' /\
             filled X Y (i + 1) 1 t'.
Proof.
  intros Hi Hm Ht.
  destruct (for_each_seq (filled X Y i) (cell_step X Y i) 1 (length Y) t)
    as (t' & Hrun & Hsh & Hdone & Hnone).
  - done.
  - intros j t0 Hj Ht0. apply lcs_cell_step_filled; [done|lia|done..].
  - exists t'. split; [done|]. split_and!; [done| |].
    + intros a b Ha Hb Hab. apply Hdone; [done..|lia].
    + intros a b Ha Hb Ha1 Hb1 Hab. apply Hnone; [done..|lia].
Qed.

End LCSFacts.

Lemma set2_same {A} (t : list (list A)) i j x :
  get2 t i j = Some x -> set2 t i j x = Some t.
Proof.
  unfold get2, set2. destruct (t !! i) as [row|] eqn:Hrow; [|done].
  intros Hj. rewrite decide_True by (by eapply lookup_lt_Some).
  f_equal. rewrite (list_insert_id row) by done. by apply list_insert_id.
Qed.

Lemma for_each_same {S} (ks : list nat) (body : nat -> S -> option S) (s : S) :
  (forall k, k ∈ ks -> body k s = Some s) -> for_each ks body s = Some s.
Proof.
  induction ks as [|k ks IH]; intros Hb; [done|].
  simpl. rewrite Hb by (apply elem_of_cons; by left).
  apply IH. intros k' Hk'. apply Hb. apply elem_of_cons. by right.
Qed.

(** The run ends on strings whose lengths are below INT_MAX, and leaves
    in every cell the value of the recurrence and its arrow. *)
Lemma lcsLength_filled (X Y : list Ascii.ascii) :
  (Z.of_nat (length X) < INT_MAX)%Z -> (Z.of_nat (length Y) < INT_MAX)%Z ->
  exists t, LCS.lcsLength X Y = Some t /\
            LCS.filled X Y (length X + 1) 1 t.
Proof.
  intros Hm Hn. unfold LCS.lcsLength.
  rewrite !int_Some by (unfold INT_MIN, INT_MAX in *; lia). simpl.
  rewrite for_each_same; simpl.
  2:{ intros i Hi%elem_of_seq. apply set2_same.
      apply get2_replicate; lia. }
  rewrite for_each_same; simpl.
  2:{ intros j Hj%elem_of_seq. apply set2_same.
      apply get2_replicate; lia. }
  destruct (for_each_seq (fun i => LCS.filled X Y i 1)
              (fun i => for_each (seq 1 (length Y)) (LCS.cell_step X Y i))
              1 (length X)
              (LCS.Tables
                 (replicate (length X + 1) (replicate (length Y + 1) 0%Z))
                 (replicate (length X + 1) (replicate (length Y + 1) LCS.NONE))))
    as (t & Hrun & Hfin).
  - split_and!; cbn [LCS.tab_c LCS.tab_b].
    + intros a b Ha Hb. rewrite !get2_replicate by lia. done.
    + intros a b Ha Hb Hab. rewrite !get2_replicate by lia.
      assert (a = 0 \/ b = 0) as H0 by lia.
      destruct H0 as [-> | ->].
      * done.
      * rewrite lcs_0_r. by destruct a.
    + intros a b Ha Hb _ _ _. by rewrite get2_replicate by lia.
  - intros i t Hi Ht. apply lcs_row_filled; [lia|done..].
  - exists t. split; [done|]. by rewrite Nat.add_comm.
Qed.

(** *** Common subsequences *)

Lemma sublist_snoc_inv {A} (C l : list A) (x : A) :
  sublist C (l ++ [x]) ->
  sublist C l \/ exists C', C = C' ++ [x] /\ sublist C' l.
Proof.
  intros (l1 & l2 & -> & H1 & H2)%sublist_app_r.
  inversion H2 as [|? ? ? H3|? ? ? H3]; subst.
  - apply sublist_nil_r in H3 as ->. right. by exists l1.
  - apply sublist_nil_r in H3 as ->. left. by rewrite app_nil_r.
Qed.

Lemma sublist_snoc_snoc {A} (C l : list A) (z x : A) :
  sublist (C ++ [z]) (l ++ [x]) -> sublist C l.
Proof.
  intros [H|(C' & Heq & H)]%sublist_snoc_inv.
  - etrans; [|exact H]. by apply sublist_inserts_r.
  - by apply app_inj_tail in Heq as [-> _].
Qed.

Section LCSLongest.
Import LCS.
Variables (X Y : list Ascii.ascii).

(** No common subsequence of the two prefixes is longer than the value
    of the recurrence. *)
Lemma lcs_upper_bound i j C :
  i <= length X -> j <= length Y ->
  common C (take i X) (take j Y) ->
  (Z.of_nat (length C) <= lcs X Y i j)%Z.
Proof.
  revert j C. induction i as [|i IHi]; intros j C Hi Hj [HX HY].
  { rewrite take_0 in HX. apply sublist_nil_r in HX as ->. simpl. lia. }
  revert C HX HY. induction j as [|j IHj]; intros C HX HY.
  { rewrite take_0 in HY. apply sublist_nil_r in HY as ->.
    rewrite lcs_0_r. simpl. lia. }
  destruct (lookup_lt_is_Some_2 X i) as [x Hx]; [lia|].
  destruct (lookup_lt_is_Some_2 Y j) as [y Hy]; [lia|].
  rewrite lcs_S, Hx, Hy.
  rewrite (take_S_r _ _ _ Hx) in HX. rewrite (take_S_r _ _ _ Hy) in HY.
  destruct (Ascii.eqb x y) eqn:Hxy.
  - destruct C as [|z0 C0 _] using rev_ind.
    { pose proof (lcs_bounds X Y i j). simpl. lia. }
    apply sublist_snoc_snoc in HX, HY.
    pose proof (IHi j C0 ltac:(lia) ltac:(lia) (conj HX HY)).
    rewrite length_app. simpl. lia.
  - assert (Z.of_nat (length C) <= lcs X Y i (S j) \/
            Z.of_nat (length C) <= lcs X Y (S i) j)%Z as Hmax.
    { apply sublist_snoc_inv in HX as [HX|(C' & -> & HX)].
      - left. apply IHi; [lia..|]. split; [done|].
        by rewrite (take_S_r _ _ _ Hy).
      - apply sublist_snoc_inv in HY as [HY|(C'' & Heq & HY)].
        + right. apply IHj; [lia| |done].
          by rewrite (take_S_r _ _ _ Hx), <- (app_nil_r (C' ++ [x])),
            <- (app_nil_r (take i X ++ [x]));
            apply sublist_app; [apply sublist_app|]; done.
        + apply app_inj_tail in Heq as [_ ->].
          by rewrite Ascii.eqb_refl in Hxy. }
    destruct (lcs X Y (S i) j <=? lcs X Y i (S j))%Z eqn:Hle.
    + apply Z.leb_le in Hle. lia.
    + apply Z.leb_gt in Hle. lia.
Qed.

(** On filled tables the printer ends and prints a common subsequence of
    the two prefixes that is as long as the value of the recurrence. *)
Lemma printLCS_filled t :
  filled X Y (length X + 1) 1 t ->
  forall fuel i j, i <= length X -> j <= length Y -> i + j < fuel ->
    exists C,
      printLCS fuel (tab_b t) X i j = Some C /\
      common C (take i X) (take j Y) /\
      Z.of_nat (length C) = lcs X Y i j.
Proof.
  intros (_ & Hdone & _).
  induction fuel as [|fuel IH]; intros i j Hi Hj Hfuel; [lia|].
  cbn [printLCS]. destruct ((i =? 0) || (j =? 0)) eqn:H0.
  { exists []. split; [done|]. split; [split; apply sublist_nil_l|].
    apply orb_true_iff in H0 as [->%Nat.eqb_eq | ->%Nat.eqb_eq]; [done|].
    by rewrite lcs_0_r. }
  apply orb_false_iff in H0 as [Hi0%Nat.eqb_neq Hj0%Nat.eqb_neq].
  destruct i as [|i]; [done|]. destruct j as [|j]; [done|].
  destruct (Hdone (S i) (S j)) as [_ Hb]; [lia..|].
  rewrite Hb. cbn [mbind option_bind].
  destruct (lookup_lt_is_Some_2 X i) as [x Hx]; [lia|].
  destruct (lookup_lt_is_Some_2 Y j) as [y Hy]; [lia|].
  rewrite (arrow_S X Y i j x y Hx Hy), lcs_S, Hx, Hy.
  rewrite (take_S_r _ _ _ Hx), (take_S_r _ _ _ Hy).
  replace (S i - 1) with i by lia. replace (S j - 1) with j by lia.
  destruct (Ascii.eqb x y) eqn:Hxy.
  - apply Ascii.eqb_eq in Hxy as <-.
    destruct (IH i j) as (C & -> & [HX HY] & Hlen); [lia..|].
    cbn [mbind option_bind]. rewrite Hx. cbn [mbind option_bind].
    eexists. split; [done|]. split.
    + split; by apply sublist_app.
    + rewrite length_app. simpl. lia.
  - destruct (lcs X Y (S i) j <=? lcs X Y i (S j))%Z.
    + destruct (IH i (S j)) as (C & -> & [HX HY] & Hlen); [lia..|].
      exists C. split; [done|]. split; [|done]. split.
      * by apply sublist_inserts_r.
      * by rewrite (take_S_r _ _ _ Hy) in HY.
    + destruct (IH (S i) j) as (C & -> & [HX HY] & Hlen); [lia..|].
      exists C. split; [done|]. split; [|done]. split.
      * by rewrite (take_S_r _ _ _ Hx) in HX.
      * by apply sublist_inserts_r.
Qed.

End LCSLongest.

(** [lcsLength] on strings shorter than INT_MAX: the run ends, and every
    cell c[i][j] holds the length of a longest common subsequence of the
    first i characters of X and the first j characters of Y: no common
    subsequence is longer, and one is as long. *)
Theorem lcsLength_longest (X Y : list Ascii.ascii) :
  (Z.of_nat (length X) < INT_MAX)%Z -> (Z.of_nat (length Y) < INT_MAX)%Z ->
  exists t,
    LCS.lcsLength X Y = Some t /\
    forall i j, i <= length X -> j <= length Y ->
      exists c,
        get2 (LCS.tab_c t) i j = Some c /\
        (forall C, LCS.common C (take i X) (take j Y) ->
           (Z.of_nat (length C) <= c)%Z) /\
        (exists C, LCS.common C (take i X) (take j Y) /\
           Z.of_nat (length C) = c).
Proof.
  intros Hm Hn. destruct (lcsLength_filled X Y Hm Hn) as (t & Hrun & Ht).
  exists t. split; [done|]. intros i j Hi Hj.
  exists (LCS.lcs X Y i j). split_and!.
  - destruct Ht as (_ & Hdone & _). apply Hdone; [done..|lia].
  - intros C HC. by apply lcs_upper_bound.
  - destruct (printLCS_filled X Y t Ht (i + j + 1) i j) as (C & _ & HC & Hlen);
      [lia..|].
    by exists C.
Qed.

Lemma lcsLength_longest_witness :
  (Z.of_nat (length LCS.X1) < INT_MAX)%Z /\ (Z.of_nat (length LCS.Y1) < INT_MAX)%Z /\
  exists t,
    LCS.lcsLength LCS.X1 LCS.Y1 = Some t /\
    forall i j, i <= length LCS.X1 -> j <= length LCS.Y1 ->
      exists c,
        get2 (LCS.tab_c t) i j = Some c /\
        (forall C, LCS.common C (take i LCS.X1) (take j LCS.Y1) ->
           (Z.of_nat (length C) <= c)%Z) /\
        (exists C, LCS.common C (take i LCS.X1) (take j LCS.Y1) /\
           Z.of_nat (length C) = c).
Proof.
  split; [vm_compute; reflexivity|]. split; [vm_compute; reflexivity|].
  apply (lcsLength_longest LCS.X1 LCS.Y1); vm_compute; reflexivity.
Defined.

(** The two functions compose: on the arrows of [lcsLength], [printLCS]
    called with the two lengths ends within depth m + n + 1 and prints a
    common subsequence of X and Y whose length is c[m][n], so a longest
    one. *)
Theorem printLCS_longest (X Y : list Ascii.ascii) :
  (Z.of_nat (length X) < INT_MAX)%Z -> (Z.of_nat (length Y) < INT_MAX)%Z ->
  exists t C,
    LCS.lcsLength X Y = Some t /\
    LCS.printLCS (length X + length Y + 1) (LCS.tab_b t) X
      (length X) (length Y) = Some C /\
    LCS.common C X Y /\
    get2 (LCS.tab_c t) (length X) (length Y) = Some (Z.of_nat (length C)) /\
    forall C', LCS.common C' X Y -> length C' <= length C.
Proof.
  intros Hm Hn. destruct (lcsLength_filled X Y Hm Hn) as (t & Hrun & Ht).
  destruct (printLCS_filled X Y t Ht (length X + length Y + 1)
              (length X) (length Y)) as (C & Hprint & HC & Hlen); [lia..|].
  rewrite !firstn_all in HC.
  exists t, C. split_and!; [done..| |].
  - rewrite Hlen. destruct Ht as (_ & Hdone & _). apply Hdone; [done..|lia].
  - intros C' HC'.
    pose proof (lcs_upper_bound X Y (length X) (length Y) C') as Hle.
    rewrite !firstn_all in Hle. specialize (Hle ltac:(lia) ltac:(lia) HC').
    lia.
Qed.

Lemma printLCS_longest_witness :
  (Z.of_nat (length LCS.X1) < INT_MAX)%Z /\ (Z.of_nat (length LCS.Y1) < INT_MAX)%Z /\
  exists t C,
    LCS.lcsLength LCS.X1 LCS.Y1 = Some t /\
    LCS.printLCS (length LCS.X1 + length LCS.Y1 + 1) (LCS.tab_b t) LCS.X1
      (length LCS.X1) (length LCS.Y1) = Some C /\
    LCS.common C LCS.X1 LCS.Y1 /\
    get2 (LCS.tab_c t) (length LCS.X1) (length LCS.Y1) = Some (Z.of_nat (length C)) /\
    forall C', LCS.common C' LCS.X1 LCS.Y1 -> length C' <= length C.
Proof.
  split; [vm_compute; reflexivity|]. split; [vm_compute; reflexivity|].
  apply (printLCS_longest LCS.X1 LCS.Y1); vm_compute; reflexivity.
Defined.

(** The tables [lcsLength] leaves obey the recurrence: the cells of row 0
    and of column 0 hold 0 and NONE; every other cell holds an arrow and
    the length the arrow points to: DIAGONAL exactly when the two
    characters are equal, with one more than c[i-1][j-1]; otherwise UP
    with c[i-1][j] when c[i-1][j] >= c[i][j-1], and LEFT with c[i][j-1]
    when not. No cell inside keeps NONE. *)
Theorem lcsLength_recurrence (X Y : list Ascii.ascii) :
  (Z.of_nat (length X) < INT_MAX)%Z -> (Z.of_nat (length Y) < INT_MAX)%Z ->
  exists t,
    LCS.lcsLength X Y = Some t /\
    (forall i j, i <= length X -> j <= length Y -> i = 0 \/ j = 0 ->
       get2 (LCS.tab_c t) i j = Some 0%Z /\
       get2 (LCS.tab_b t) i j = Some LCS.NONE) /\
    (forall i j, i < length X -> j < length Y ->
       exists x y diag up left c,
         X !! i = Some x /\ Y !! j = Some y /\
         get2 (LCS.tab_c t) i j = Some diag /\
         get2 (LCS.tab_c t) i (S j) = Some up /\
         get2 (LCS.tab_c t) (S i) j = Some left /\
         get2 (LCS.tab_c t) (S i) (S j) = Some c /\
         ((x = y /\ c = (diag + 1)%Z /\
           get2 (LCS.tab_b t) (S i) (S j) = Some LCS.DIAGONAL) \/
          (x <> y /\ (left <= up)%Z /\ c = up /\
           get2 (LCS.tab_b t) (S i) (S j) = Some LCS.UP) \/
          (x <> y /\ (up < left)%Z /\ c = left /\
           get2 (LCS.tab_b t) (S i) (S j) = Some LCS.LEFT))).
Proof.
  intros Hm Hn.
  destruct (lcsLength_filled X Y Hm Hn) as (t & Hrun & _ & Hdone & _).
  exists t. split; [done|]. split.
  - intros i j Hi Hj H0. destruct (Hdone i j) as [-> ->]; [lia..|].
    destruct H0 as [-> | ->]; [done|]. rewrite lcs_0_r. by destruct i.
  - intros i j Hi Hj.
    destruct (lookup_lt_is_Some_2 X i) as [x Hx]; [lia|].
    destruct (lookup_lt_is_Some_2 Y j) as [y Hy]; [lia|].
    exists x, y, (LCS.lcs X Y i j), (LCS.lcs X Y i (S j)),
      (LCS.lcs X Y (S i) j), (LCS.lcs X Y (S i) (S j)).
    destruct (Hdone i j) as [-> _]; [lia..|].
    destruct (Hdone i (S j)) as [-> _]; [lia..|].
    destruct (Hdone (S i) j) as [-> _]; [lia..|].
    destruct (Hdone (S i) (S j)) as [-> ->]; [lia..|].
    split_and!; [done..|].
    rewrite (arrow_S X Y i j x y Hx Hy), lcs_S, Hx, Hy.
    destruct (Ascii.eqb_spec x y) as [->|Hne]; [by left|].
    right. destruct (Z.leb_spec (LCS.lcs X Y (S i) j) (LCS.lcs X Y i (S j)));
      [left|right]; split_and!; done || lia.
Qed.

Lemma lcsLength_recurrence_witness :
  (Z.of_nat (length LCS.X2) < INT_MAX)%Z /\
  (Z.of_nat (length LCS.Y2) < INT_MAX)%Z /\
  exists t,
    LCS.lcsLength LCS.X2 LCS.Y2 = Some t /\
    (forall i j, i <= length LCS.X2 -> j <= length LCS.Y2 -> i = 0 \/ j = 0 ->
       get2 (LCS.tab_c t) i j = Some 0%Z /\
       get2 (LCS.tab_b t) i j = Some LCS.NONE) /\
    (forall i j, i < length LCS.X2 -> j < length LCS.Y2 ->
       exists x y diag up left c,
         LCS.X2 !! i = Some x /\ LCS.Y2 !! j = Some y /\
         get2 (LCS.tab_c t) i j = Some diag /\
         get2 (LCS.tab_c t) i (S j) = Some up /\
         get2 (LCS.tab_c t) (S i) j = Some left /\
         get2 (LCS.tab_c t) (S i) (S j) = Some c /\
         ((x = y /\ c = (diag + 1)%Z /\
           get2 (LCS.tab_b t) (S i) (S j) = Some LCS.DIAGONAL) \/
          (x <> y /\ (left <= up)%Z /\ c = up /\
           get2 (LCS.tab_b t) (S i) (S j) = Some LCS.UP) \/
          (x <> y /\ (up < left)%Z /\ c = left /\
           get2 (LCS.tab_b t) (S i) (S j) = Some LCS.LEFT))).
Proof.
  split; [vm_compute; reflexivity|]. split; [vm_compute; reflexivity|].
  apply (lcsLength_recurrence LCS.X2 LCS.Y2); vm_compute; reflexivity.
Defined.

(** *** The printer on any table of arrows *)

(** Whatever arrows the table holds, it need not come from [lcsLength],
    the printer called on cells that exist ends within depth i + j + 1,
    and prints a subsequence of the first i characters of X that has at
    most min(i, j) characters. *)
Theorem printLCS_any_table (b : list (list LCS.Direction))
    (X : list Ascii.ascii) (fuel i j : nat) :
  i <= length X ->
  (forall a c, a <= i -> c <= j -> is_Some (get2 b a c)) ->
  i + j < fuel ->
  exists C, LCS.printLCS fuel b X i j = Some C /\
            sublist C (take i X) /\ length C <= i `min` j.
Proof.
  revert i j. induction fuel as [|fuel IH]; intros i j Hi Hb Hfuel; [lia|].
  cbn [LCS.printLCS]. destruct ((i =? 0) || (j =? 0)) eqn:H0.
  { exists []. split; [done|]. split; [apply sublist_nil_l|simpl; lia]. }
  apply orb_false_iff in H0 as [Hi0%Nat.eqb_neq Hj0%Nat.eqb_neq].
  destruct i as [|i]; [done|]. destruct j as [|j]; [done|].
  destruct (Hb (S i) (S j)) as [d Hd]; [lia..|]. rewrite Hd.
  cbn [mbind option_bind].
  replace (S i - 1) with i by lia. replace (S j - 1) with j by lia.
  destruct (lookup_lt_is_Some_2 X i) as [x Hx]; [lia|].
  rewrite (take_S_r _ _ _ Hx).
  assert (exists C, LCS.printLCS fuel b X (S i) j = Some C /\
            sublist C (take i X ++ [x]) /\ length C <= S i `min` S j)
    as Hleft.
  { destruct (IH (S i) j) as (C & -> & HC & Hlen); [lia| |lia|].
    { intros a c Ha Hc. apply Hb; lia. }
    exists C. split; [done|].
    rewrite (take_S_r _ _ _ Hx) in HC. split; [done|lia]. }
  destruct d; [done| | |done].
  - destruct (IH i j) as (C & -> & HC & Hlen); [lia| |lia|].
    { intros a c Ha Hc. apply Hb; lia. }
    cbn [mbind option_bind]. rewrite Hx. cbn [mbind option_bind].
    eexists. split; [done|]. split; [by apply sublist_app|].
    rewrite length_app. simpl. lia.
  - destruct (IH i (S j)) as (C & -> & HC & Hlen); [lia| |lia|].
    { intros a c Ha Hc. apply Hb; lia. }
    exists C. split; [done|]. split; [by apply sublist_inserts_r|lia].
Qed.

Lemma printLCS_any_table_witness :
  3 <= length LCS.X1 /\
  (forall a c, a <= 3 -> c <= 2 ->
     is_Some (get2 (replicate 4 (replicate 3 LCS.DIAGONAL)) a c)) /\
  3 + 2 < 6 /\
  exists C,
    LCS.printLCS 6 (replicate 4 (replicate 3 LCS.DIAGONAL)) LCS.X1 3 2
    = Some C /\
            sublist C (take 3 LCS.X1) /\ length C <= 3 `min` 2.
Proof.
  assert (forall a c, a <= 3 -> c <= 2 ->
            is_Some (get2 (replicate 4 (replicate 3 LCS.DIAGONAL)) a c)) as Hb.
  { intros a c Ha Hc. rewrite get2_replicate by lia. done. }
  split; [vm_compute; lia|]. split; [exact Hb|]. split; [lia|].
  apply (printLCS_any_table _ LCS.X1 6 3 2); [vm_compute; lia|exact Hb|lia].
Defined.

(** The three tests of [main] print the lengths 4, 4 and 7 and the
    subsequences BCBA, GTAB and CGTCGAT. The comments of the third test
    expect the length 6 and GTCGGA: the two strings of that test have the
    longer common subsequence CGTCGAT. *)
Lemma lcs_main_tests :
  LCS.test LCS.X1 LCS.Y1 = Some (4%Z, "BCBA"%string) /\
  LCS.test LCS.X2 LCS.Y2 = Some (4%Z, "GTAB"%string) /\
  LCS.test LCS.X3 LCS.Y3 = Some (7%Z, "CGTCGAT"%string).
Proof. split_and!; vm_compute; reflexivity. Qed.

(** ** The 0/1 knapsack *)

Lemma sumZ_app l1 l2 : sumZ (l1 ++ l2) = (sumZ l1 + sumZ l2)%Z.
Proof. induction l1 as [|x l1 IH]; simpl; lia. Qed.

Lemma getZ2_of_nat {A} (t : list (list A)) (i w : nat) :
  getZ2 t i (Z.of_nat w) = get2 t i w.
Proof.
  unfold getZ2, get2, lookupZ. destruct (t !! i) as [row|]; [|done]. simpl.
  by rewrite (proj2 (Z.ltb_ge _ _)), Nat2Z.id by lia.
Qed.

Section KnapsackFacts.
Import Knapsack.
Variables (W : nat) (wt val : list Z) (n : nat).
Hypothesis Hwt : n <= length wt.
Hypothesis Hval : n <= length val.
Hypothesis Hpos : forall k wk, k < n -> wt !! k = Some wk -> (0 <= wk)%Z.
Hypothesis Hsum : (sumZ (Z.abs <$> take n val) <= INT_MAX)%Z.
Hypothesis Hn : (Z.of_nat n < INT_MAX)%Z.
Hypothesis HW : (Z.of_nat W < INT_MAX)%Z.

Lemma knap_S i w wi vi :
  wt !! i = Some wi -> val !! i = Some vi -> 1 <= w ->
  knap wt val (S i) w
  = if (wi <=? Z.of_nat w)%Z then
      if (knap wt val i w <? vi + knap wt val i (Z.to_nat (Z.of_nat w - wi)))%Z
      then (vi + knap wt val i (Z.to_nat (Z.of_nat w - wi)))%Z
      else knap wt val i w
    else knap wt val i w.
Proof.
  intros Hwi Hvi Hw. cbn [knap]. rewrite (proj2 (Nat.eqb_neq w 0)) by lia.
  by rewrite Hwi, Hvi.
Qed.

Lemma choice_S i w wi vi :
  wt !! i = Some wi -> val !! i = Some vi -> 1 <= w ->
  choice wt val (S i) w
  = if (wi <=? Z.of_nat w)%Z then
      if (knap wt val i w <? vi + knap wt val i (Z.to_nat (Z.of_nat w - wi)))%Z
      then KEEP else SKIP
    else SKIP.
Proof.
  intros Hwi Hvi Hw. cbn [choice]. rewrite (proj2 (Nat.eqb_neq w 0)) by lia.
  by rewrite Hwi, Hvi.
Qed.

Lemma sumZ_abs_take i :
  i < n -> forall vi, val !! i = Some vi ->
  (sumZ (Z.abs <$> take (S i) val)
   = sumZ (Z.abs <$> take i val) + Z.abs vi)%Z.
Proof.
  intros Hi vi Hvi. rewrite (take_S_r _ _ _ Hvi), fmap_app, sumZ_app.
  change (sumZ (Z.abs <$> [vi])) with (Z.abs vi + 0)%Z. lia.
Qed.

Lemma sumZ_abs_nonneg l : (0 <= sumZ (Z.abs <$> l))%Z.
Proof.
  induction l as [|x l IH]; [done|].
  change (sumZ (Z.abs <$> x :: l)) with (Z.abs x + sumZ (Z.abs <$> l))%Z. lia.
Qed.

Lemma sumZ_abs_take_le i j :
  i <= j -> (sumZ (Z.abs <$> take i val) <= sumZ (Z.abs <$> take j val))%Z.
Proof.
  intros Hij. rewrite <- (take_drop i (take j val)).
  rewrite take_take, Nat.min_l by done.
  rewrite fmap_app, sumZ_app.
  pose proof (sumZ_abs_nonneg (drop i (take j val))). lia.
Qed.

(** The entries are values of selections: they are not negative and do
    not exceed the sum of the absolute values of the items considered. *)
Lemma knap_bounds i w :
  i <= n -> (0 <= knap wt val i w <= sumZ (Z.abs <$> take i val))%Z.
Proof.
  revert w. induction i as [|i IH]; intros w Hi; [simpl; lia|].
  destruct (lookup_lt_is_Some_2 wt i) as [wi Hwi]; [lia|].
  destruct (lookup_lt_is_Some_2 val i) as [vi Hvi]; [lia|].
  rewrite (sumZ_abs_take i ltac:(lia) vi Hvi).
  destruct (decide (w = 0)) as [->|Hw].
  { simpl. pose proof (sumZ_abs_nonneg (take i val)). lia. }
  rewrite (knap_S i w wi vi) by (done || lia).
  pose proof (IH w ltac:(lia)).
  pose proof (IH (Z.to_nat (Z.of_nat w - wi)) ltac:(lia)).
  destruct (wi <=? Z.of_nat w)%Z; [|lia].
  destruct (_ <? _)%Z eqn:Hlt; [|lia].
  apply Z.ltb_lt in Hlt. lia.
Qed.

Lemma knapsack_cell_step_filled i w t :
  i <= n -> w <= W ->
  filled W wt val n i w t ->
  exists t', cell_step wt val i w t = Some t' /\
             filled W wt val n i (w + 1) t'.
Proof.
  intros Hi Hw (Hsh & Hdone). unfold cell_step.
  destruct (Hsh i w) as [HK Hd]; [lia..|].
  assert (forall v dec K' d',
            set2 (tab_K t) i w v = Some K' -> set2 (tab_d t) i w dec = Some d' ->
            v = knap wt val i w -> dec = choice wt val i w ->
            filled W wt val n i (w + 1) (Tables K' d')) as Hfin.
  { intros v dec K' d' HK' Hd' -> ->. split; cbn [tab_K tab_d].
    - intros a b Ha Hb. destruct (Hsh a b Ha Hb).
      split; by eapply get2_set2_is_Some.
    - intros a b Ha Hb Hab.
      destruct (decide ((a, b) = (i, w))) as [[= -> ->]|Hne].
      + by rewrite (get2_set2_eq _ _ _ _ _ HK'), (get2_set2_eq _ _ _ _ _ Hd').
      + rewrite (get2_set2_ne _ _ _ _ _ _ _ HK'),
          (get2_set2_ne _ _ _ _ _ _ _ Hd') by done.
        apply Hdone; [done..|].
        destruct Hab as [?|[-> ?]]; [by left|]. right. split; [done|].
        destruct (decide (b = w)) as [->|]; [done|lia]. }
  destruct ((i =? 0) || (w =? 0)) eqn:H0.
  { destruct (set2_is_Some (tab_K t) i w 0%Z HK) as [K' HK'].
    destruct (set2_is_Some (tab_d t) i w NONE Hd) as [d' Hd'].
    rewrite HK', Hd'. simpl. eexists. split; [done|].
    eapply Hfin; [done..| |].
    - apply orb_true_iff in H0 as [->%Nat.eqb_eq | ->%Nat.eqb_eq]; [done|].
      by destruct i.
    - apply orb_true_iff in H0 as [->%Nat.eqb_eq | ->%Nat.eqb_eq]; [done|].
      by destruct i. }
  apply orb_false_iff in H0 as [Hi0%Nat.eqb_neq Hw0%Nat.eqb_neq].
  destruct i as [|i]; [done|]. replace (S i - 1) with i by lia.
  destruct (lookup_lt_is_Some_2 wt i) as [wi Hwi]; [lia|].
  destruct (lookup_lt_is_Some_2 val i) as [vi Hvi]; [lia|].
  rewrite Hwi. cbn [mbind option_bind].
  destruct (Hdone i w) as [Hup _]; [lia..|].
  pose proof (knap_S i w wi vi Hwi Hvi ltac:(lia)) as Hknap.
  pose proof (choice_S i w wi vi Hwi Hvi ltac:(lia)) as Hchoice.
  pose proof (Hpos i wi ltac:(lia) Hwi) as Hwi0.
  destruct (wi <=? Z.of_nat w)%Z eqn:Hle.
  - apply Z.leb_le in Hle. rewrite Hup, Hvi. cbn [mbind option_bind].
    rewrite int_Some by (unfold INT_MIN, INT_MAX in *; lia).
    cbn [mbind option_bind].
    assert (getZ2 (tab_K t) i (Z.of_nat w - wi)
            = get2 (tab_K t) i (Z.to_nat (Z.of_nat w - wi))) as ->.
    { rewrite <- getZ2_of_nat. f_equal. lia. }
    destruct (Hdone i (Z.to_nat (Z.of_nat w - wi))) as [-> _]; [lia..|].
    cbn [mbind option_bind].
    pose proof (knap_bounds i (Z.to_nat (Z.of_nat w - wi)) ltac:(lia)).
    pose proof (sumZ_abs_take i ltac:(lia) vi Hvi).
    pose proof (sumZ_abs_take_le (S i) n ltac:(lia)).
    rewrite int_Some by (unfold INT_MIN, INT_MAX in *; lia).
    cbn [mbind option_bind].
    destruct (_ <? _)%Z.
    + destruct (set2_is_Some (tab_K t) (S i) w
                  (vi + knap wt val i (Z.to_nat (Z.of_nat w - wi)))%Z HK)
        as [K' HK'].
      destruct (set2_is_Some (tab_d t) (S i) w KEEP Hd) as [d' Hd'].
      rewrite HK', Hd'. simpl. eexists. split; [done|]. by eapply Hfin.
    + destruct (set2_is_Some (tab_K t) (S i) w (knap wt val i w) HK)
        as [K' HK'].
      destruct (set2_is_Some (tab_d t) (S i) w SKIP Hd) as [d' Hd'].
      rewrite HK', Hd'. simpl. eexists. split; [done|]. by eapply Hfin.
  - rewrite Hup. cbn [mbind option_bind].
    destruct (set2_is_Some (tab_K t) (S i) w (knap wt val i w) HK)
      as [K' HK'].
    destruct (set2_is_Some (tab_d t) (S i) w SKIP Hd) as [d' Hd'].
    rewrite HK', Hd'. simpl. eexists. split; [done|]. by eapply Hfin.
Qed.

Lemma knapsack_row_filled i t :
  i <= n -> filled W wt val n i 0 t ->
  exists t', for_each (seq 0 (W + 1)) (cell_step wt val i) t = Some t' /\
             filled W wt val n (i + 1) 0 t'.
Proof.
  intros Hi Ht.
  destruct (for_each_seq (filled W wt val n i) (cell_step wt val i) 0 (W + 1) t)
    as (t' & Hrun & Hsh & Hdone).
  - done.
  - intros w t0 Hw Ht0. apply knapsack_cell_step_filled; [done|lia|done].
  - exists t'. split; [done|]. split; [done|].
    intros a b Ha Hb Hab. apply Hdone; [done..|lia].
Qed.

(** The run ends on all tables whose rows hold W + 1 entries or more,
    and leaves in every cell the value of the recurrence and its
    decision. *)
Lemma knapsack01_filled K0 d0 :
  rows_hold (W + 1) K0 -> rows_hold (W + 1) d0 ->
  exists t, knapsack01 W wt val n K0 d0 = Some t /\
            filled W wt val n (n + 1) 0 t.
Proof.
  intros HK0 Hd0. unfold knapsack01.
  rewrite !int_Some by (unfold INT_MIN, INT_MAX in *; lia). simpl.
  destruct (for_each_seq (fun i => filled W wt val n i 0)
              (fun i => for_each (seq 0 (W + 1)) (cell_step wt val i))
              0 (n + 1)
              (Tables (resize (n + 1) (replicate (W + 1) 0%Z) K0)
                      (resize (n + 1) (replicate (W + 1) NONE) d0)))
    as (t & Hrun & Hfin).
  - split; cbn [tab_K tab_d].
    + intros a b Ha Hb.
      split; apply (get2_resize_is_Some (W + 1)); done || lia.
    + intros a b Ha Hb Hab. lia.
  - intros i t Hi Ht. apply knapsack_row_filled; [lia|done].
  - by exists t.
Qed.

End KnapsackFacts.

(** *** Selections of items *)

Lemma take_S_items (wt val : list Z) i wi vi :
  wt !! i = Some wi -> val !! i = Some vi ->
  take (S i) (Knapsack.items wt val)
  = take i (Knapsack.items wt val) ++ [(wi, vi)].
Proof.
  intros Hwi Hvi. apply take_S_r. unfold Knapsack.items.
  apply lookup_zip_with_Some. eauto.
Qed.

Lemma weight_app sel1 sel2 :
  Knapsack.weight (sel1 ++ sel2)
  = (Knapsack.weight sel1 + Knapsack.weight sel2)%Z.
Proof. unfold Knapsack.weight. by rewrite fmap_app, sumZ_app. Qed.

Lemma value_app sel1 sel2 :
  Knapsack.value (sel1 ++ sel2)
  = (Knapsack.value sel1 + Knapsack.value sel2)%Z.
Proof. unfold Knapsack.value. by rewrite fmap_app, sumZ_app. Qed.

Section KnapsackOptimal.
Import Knapsack.
Variables (W : nat) (wt val : list Z) (n : nat).
Hypothesis Hwt : n <= length wt.
Hypothesis Hval : n <= length val.
Hypothesis Hpos : forall k wk, k < n -> wt !! k = Some wk -> (1 <= wk)%Z.

Lemma weight_nonneg i sel :
  i <= n -> sublist sel (take i (items wt val)) -> (0 <= weight sel)%Z.
Proof.
  revert sel. induction i as [|i IH]; intros sel Hi Hsel.
  { rewrite take_0 in Hsel. by apply sublist_nil_r in Hsel as ->. }
  destruct (lookup_lt_is_Some_2 wt i) as [wi Hwi]; [lia|].
  destruct (lookup_lt_is_Some_2 val i) as [vi Hvi]; [lia|].
  rewrite (take_S_items wt val i wi vi Hwi Hvi) in Hsel.
  apply sublist_snoc_inv in Hsel as [Hsel|(sel' & -> & Hsel)].
  - apply IH; [lia|done].
  - rewrite weight_app. pose proof (IH sel' ltac:(lia) Hsel).
    pose proof (Hpos i wi ltac:(lia) Hwi).
    change (weight [(wi, vi)]) with (wi + 0)%Z. lia.
Qed.

(** No selection among the first [i] items that fits the capacity [w] is
    worth more than the value of the recurrence. *)
Lemma knap_upper_bound i w sel :
  i <= n -> sublist sel (take i (items wt val)) ->
  (weight sel <= Z.of_nat w)%Z -> (value sel <= knap wt val i w)%Z.
Proof.
  revert w sel. induction i as [|i IH]; intros w sel Hi Hsel Hw.
  { rewrite take_0 in Hsel. by apply sublist_nil_r in Hsel as ->. }
  destruct (lookup_lt_is_Some_2 wt i) as [wi Hwi]; [lia|].
  destruct (lookup_lt_is_Some_2 val i) as [vi Hvi]; [lia|].
  pose proof (Hpos i wi ltac:(lia) Hwi) as Hwi1.
  rewrite (take_S_items wt val i wi vi Hwi Hvi) in Hsel.
  destruct (decide (w = 0)) as [->|Hw0].
  { apply sublist_snoc_inv in Hsel as [Hsel|(sel' & -> & Hsel)].
    - apply (IH 0) in Hsel; [|lia|done]. simpl.
      replace (knap wt val i 0) with 0%Z in Hsel; [done|].
      by destruct i.
    - rewrite weight_app in Hw. pose proof (weight_nonneg i sel' ltac:(lia) Hsel).
      change (weight [(wi, vi)]) with (wi + 0)%Z in Hw. lia. }
  cbn [knap]. rewrite (proj2 (Nat.eqb_neq w 0)) by lia. rewrite Hwi, Hvi.
  apply sublist_snoc_inv in Hsel as [Hsel|(sel' & -> & Hsel)].
  - pose proof (IH w sel ltac:(lia) Hsel Hw).
    destruct (wi <=? Z.of_nat w)%Z; [|done]. cbv zeta.
    destruct (_ <? _)%Z eqn:Hlt; [|done]. apply Z.ltb_lt in Hlt. lia.
  - rewrite weight_app in Hw. rewrite value_app.
    change (weight [(wi, vi)]) with (wi + 0)%Z in Hw.
    change (value [(wi, vi)]) with (vi + 0)%Z.
    pose proof (weight_nonneg i sel' ltac:(lia) Hsel).
    rewrite (proj2 (Z.leb_le wi (Z.of_nat w))) by lia. cbv zeta.
    pose proof (IH (Z.to_nat (Z.of_nat w - wi)) sel' ltac:(lia) Hsel
                  ltac:(lia)).
    destruct (_ <? _)%Z eqn:Hlt; [lia|]. apply Z.ltb_ge in Hlt. lia.
Qed.

(** On filled tables the printer lists, by increasing number, items
    that fit the capacity and are worth the value of the recurrence. *)
Lemma printSelectedItems_filled t :
  (Z.of_nat W < INT_MAX)%Z ->
  filled W wt val n (n + 1) 0 t ->
  forall i w, i <= n -> w <= W ->
    exists out,
      printSelectedItems (tab_d t) wt val i (Z.of_nat w) = Some out /\
      Forall (line_ok wt val) out /\
      sublist (out.*1.*1) (seq 1 i) /\
      sublist (selected out)
        (take i (items wt val)) /\
      (weight (selected out) <= Z.of_nat w)%Z /\
      value (selected out) = knap wt val i w.
Proof.
  intros HW (_ & Hdone).
  induction i as [|i IH]; intros w Hi Hw.
  { exists []. split_and!;
      [done|done|apply sublist_nil_l|apply sublist_nil_l
      |change (weight (selected [])) with 0%Z; lia|done]. }
  destruct (decide (w = 0)) as [->|Hw0].
  { exists []. split_and!;
      [done|done|apply sublist_nil_l|apply sublist_nil_l
      |change (weight (selected [])) with 0%Z; lia|done]. }
  cbn [printSelectedItems knap].
  rewrite (proj2 (Z.eqb_neq _ 0)), (proj2 (Nat.eqb_neq w 0)) by lia.
  rewrite getZ2_of_nat. destruct (Hdone (S i) w) as [_ ->]; [lia..|].
  cbn [mbind option_bind].
  destruct (lookup_lt_is_Some_2 wt i) as [wi Hwi]; [lia|].
  destruct (lookup_lt_is_Some_2 val i) as [vi Hvi]; [lia|].
  pose proof (Hpos i wi ltac:(lia) Hwi) as Hwi1.
  cbn [choice]. rewrite (proj2 (Nat.eqb_neq w 0)) by lia. rewrite Hwi, Hvi.
  rewrite (take_S_items wt val i wi vi Hwi Hvi).
  replace (seq 1 (S i)) with (seq 1 i ++ [S i])
    by (by rewrite seq_S).
  assert (exists out,
            printSelectedItems (tab_d t) wt val i (Z.of_nat w) = Some out /\
            Forall (line_ok wt val) out /\
            sublist (out.*1.*1) (seq 1 i ++ [S i]) /\
            sublist (selected out)
              (take i (items wt val) ++ [(wi, vi)]) /\
            (weight (selected out) <= Z.of_nat w)%Z /\
            value (selected out) = knap wt val i w) as Hskip.
  { destruct (IH w) as (out & Hout & Hl & Hk & Hs & Hwt' & Hv); [lia..|].
    exists out. split_and!; [done..| | |done|done];
      by apply sublist_inserts_r. }
  destruct (wi <=? Z.of_nat w)%Z eqn:Hle; [|done].
  apply Z.leb_le in Hle. cbv zeta.
  destruct (_ <? _)%Z; [|done].
  cbn [mbind option_bind].
  rewrite int_Some by (unfold INT_MIN, INT_MAX in *; lia).
  cbn [mbind option_bind].
  destruct (IH (Z.to_nat (Z.of_nat w - wi)))
    as (out & Hout & Hl & Hk & Hs & Hwt' & Hv); [lia..|].
  rewrite Z2Nat.id in Hout, Hwt' by lia. rewrite Hout.
  cbn [mbind option_bind].
  eexists. split; [done|]. split_and!.
  - apply Forall_app. split; [done|]. apply Forall_singleton.
    unfold line_ok. cbn [fst snd]. by replace (S i - 1) with i by lia.
  - rewrite !fmap_app. by apply sublist_app.
  - unfold selected. rewrite fmap_app. by apply sublist_app.
  - unfold selected. rewrite fmap_app, weight_app.
    change (weight _) with (wi + 0)%Z at 2. fold (selected out). lia.
  - unfold selected. rewrite fmap_app, value_app.
    change (value _) with (vi + 0)%Z at 2. fold (selected out). lia.
Qed.

End KnapsackOptimal.

Lemma Forall_take_lookup {A} (P : A -> Prop) (n : nat) (l : list A) :
  Forall P (take n l) -> forall k x, k < n -> l !! k = Some x -> P x.
Proof.
  intros HP k x Hk Hx. apply (proj1 (Forall_lookup _ _) HP k).
  by rewrite lookup_take_lt.
Qed.

(** [knapsack01] on items of positive weight whose absolute values add up
    to INT_MAX at most, for tables passed in whose rows hold W + 1
    entries or more (empty tables, or those of an earlier run with at
    least this capacity): the run ends, and every cell K[i][w] holds the
    largest value of a selection among the first i items whose weights
    add up to w at most: no such selection is worth more, and one is
    worth as much. *)
Theorem knapsack01_optimal (W : nat) (wt val : list Z) (n : nat)
    (K0 : list (list Z)) (d0 : list (list Knapsack.Decision)) :
  n <= length wt -> n <= length val ->
  Forall (fun wk => (1 <= wk)%Z) (take n wt) ->
  (sumZ (Z.abs <$> take n val) <= INT_MAX)%Z ->
  (Z.of_nat n < INT_MAX)%Z -> (Z.of_nat W < INT_MAX)%Z ->
  rows_hold (W + 1) K0 -> rows_hold (W + 1) d0 ->
  exists t,
    Knapsack.knapsack01 W wt val n K0 d0 = Some t /\
    forall i w, i <= n -> w <= W ->
      exists k,
        get2 (Knapsack.tab_K t) i w = Some k /\
        (forall sel, sublist sel (take i (Knapsack.items wt val)) ->
           (Knapsack.weight sel <= Z.of_nat w)%Z ->
           (Knapsack.value sel <= k)%Z) /\
        (exists sel, sublist sel (take i (Knapsack.items wt val)) /\
           (Knapsack.weight sel <= Z.of_nat w)%Z /\
           Knapsack.value sel = k).
Proof.
  intros Hwt Hval Hpos Hsum Hn HW HK0 Hd0.
  pose proof (Forall_take_lookup _ _ _ Hpos) as Hpos1.
  destruct (knapsack01_filled W wt val n Hwt Hval) with (K0 := K0) (d0 := d0)
    as (t & Hrun & Ht); [|done..|].
  { intros k wk Hk Hwk. specialize (Hpos1 k wk Hk Hwk). simpl in Hpos1. lia. }
  exists t. split; [done|]. intros i w Hi Hw.
  exists (Knapsack.knap wt val i w). split_and!.
  - destruct Ht as [_ Hdone]. apply Hdone; [done..|lia].
  - intros sel Hsel Hfit. by apply (knap_upper_bound wt val n Hwt Hval Hpos1).
  - destruct (printSelectedItems_filled W wt val n Hwt Hval Hpos1 t HW Ht i w)
      as (out & _ & _ & _ & Hsel & Hfit & Hworth); [done..|].
    by exists (Knapsack.selected out).
Qed.

Lemma knapsack01_optimal_witness :
  3 <= length Knapsack.wt2 /\ 3 <= length Knapsack.val2 /\
  Forall (fun wk => (1 <= wk)%Z) (take 3 Knapsack.wt2) /\
  (sumZ (Z.abs <$> take 3 Knapsack.val2) <= INT_MAX)%Z /\
  (Z.of_nat 3 < INT_MAX)%Z /\ (Z.of_nat 7 < INT_MAX)%Z /\
  rows_hold (7 + 1) (@nil (list Z)) /\
  rows_hold (7 + 1) (@nil (list Knapsack.Decision)) /\
  exists t,
    Knapsack.knapsack01 7 Knapsack.wt2 Knapsack.val2 3 [] [] = Some t /\
    forall i w, i <= 3 -> w <= 7 ->
      exists k,
        get2 (Knapsack.tab_K t) i w = Some k /\
        (forall sel,
           sublist sel (take i (Knapsack.items Knapsack.wt2 Knapsack.val2)) ->
           (Knapsack.weight sel <= Z.of_nat w)%Z ->
           (Knapsack.value sel <= k)%Z) /\
        (exists sel,
           sublist sel (take i (Knapsack.items Knapsack.wt2 Knapsack.val2)) /\
           (Knapsack.weight sel <= Z.of_nat w)%Z /\
           Knapsack.value sel = k).
Proof.
  assert (Forall (fun wk => (1 <= wk)%Z) (take 3 Knapsack.wt2)) as Hpos.
  { repeat constructor; lia. }
  split; [simpl; lia|]. split; [simpl; lia|]. split; [exact Hpos|].
  split; [vm_compute; discriminate|]. split; [vm_compute; reflexivity|].
  split; [vm_compute; reflexivity|]. split; [constructor|].
  split; [constructor|].
  apply (knapsack01_optimal 7 Knapsack.wt2 Knapsack.val2 3 [] []);
    [simpl; lia|simpl; lia|exact Hpos|vm_compute; discriminate
    |vm_compute; reflexivity|vm_compute; reflexivity
    |constructor|constructor].
Defined.

(** The two functions compose: on the decisions of [knapsack01], under
    the same conditions, [printSelectedItems] called with n and W ends
    and prints lines with the weights and values of their items, by
    increasing item number and no item twice; the items printed fit the
    capacity W, their values add up to K[n][W], and no selection that
    fits is worth more. *)
Theorem printSelectedItems_optimal (W : nat) (wt val : list Z) (n : nat)
    (K0 : list (list Z)) (d0 : list (list Knapsack.Decision)) :
  n <= length wt -> n <= length val ->
  Forall (fun wk => (1 <= wk)%Z) (take n wt) ->
  (sumZ (Z.abs <$> take n val) <= INT_MAX)%Z ->
  (Z.of_nat n < INT_MAX)%Z -> (Z.of_nat W < INT_MAX)%Z ->
  rows_hold (W + 1) K0 -> rows_hold (W + 1) d0 ->
  exists t out,
    Knapsack.knapsack01 W wt val n K0 d0 = Some t /\
    Knapsack.printSelectedItems (Knapsack.tab_d t) wt val n (Z.of_nat W)
    = Some out /\
    Forall (Knapsack.line_ok wt val) out /\
    sublist (out.*1.*1) (seq 1 n) /\
    (Knapsack.weight (Knapsack.selected out) <= Z.of_nat W)%Z /\
    get2 (Knapsack.tab_K t) n W
    = Some (Knapsack.value (Knapsack.selected out)) /\
    forall sel, sublist sel (take n (Knapsack.items wt val)) ->
      (Knapsack.weight sel <= Z.of_nat W)%Z ->
      (Knapsack.value sel <= Knapsack.value (Knapsack.selected out))%Z.
Proof.
  intros Hwt Hval Hpos Hsum Hn HW HK0 Hd0.
  pose proof (Forall_take_lookup _ _ _ Hpos) as Hpos1.
  destruct (knapsack01_filled W wt val n Hwt Hval) with (K0 := K0) (d0 := d0)
    as (t & Hrun & Ht); [|done..|].
  { intros k wk Hk Hwk. specialize (Hpos1 k wk Hk Hwk). simpl in Hpos1. lia. }
  destruct (printSelectedItems_filled W wt val n Hwt Hval Hpos1 t HW Ht n W)
    as (out & Hout & Hlines & Hinc & Hsel & Hfit & Hworth); [done..|].
  exists t, out. split_and!; [done..| |].
  - rewrite Hworth. destruct Ht as [_ Hdone]. apply Hdone; [done..|lia].
  - intros sel Hsel' Hfit'. rewrite Hworth.
    by apply (knap_upper_bound wt val n Hwt Hval Hpos1).
Qed.

Lemma printSelectedItems_optimal_witness :
  3 <= length Knapsack.wt1 /\ 3 <= length Knapsack.val1 /\
  Forall (fun wk => (1 <= wk)%Z) (take 3 Knapsack.wt1) /\
  (sumZ (Z.abs <$> take 3 Knapsack.val1) <= INT_MAX)%Z /\
  (Z.of_nat 3 < INT_MAX)%Z /\ (Z.of_nat 50 < INT_MAX)%Z /\
  rows_hold (50 + 1) (@nil (list Z)) /\
  rows_hold (50 + 1) (@nil (list Knapsack.Decision)) /\
  exists t out,
    Knapsack.knapsack01 50 Knapsack.wt1 Knapsack.val1 3 [] [] = Some t /\
    Knapsack.printSelectedItems (Knapsack.tab_d t) Knapsack.wt1 Knapsack.val1
      3 (Z.of_nat 50) = Some out /\
    Forall (Knapsack.line_ok Knapsack.wt1 Knapsack.val1) out /\
    sublist (out.*1.*1) (seq 1 3) /\
    (Knapsack.weight (Knapsack.selected out) <= Z.of_nat 50)%Z /\
    get2 (Knapsack.tab_K t) 3 50
    = Some (Knapsack.value (Knapsack.selected out)) /\
    forall sel,
      sublist sel (take 3 (Knapsack.items Knapsack.wt1 Knapsack.val1)) ->
      (Knapsack.weight sel <= Z.of_nat 50)%Z ->
      (Knapsack.value sel <= Knapsack.value (Knapsack.selected out))%Z.
Proof.
  assert (Forall (fun wk => (1 <= wk)%Z) (take 3 Knapsack.wt1)) as Hpos.
  { repeat constructor; lia. }
  split; [simpl; lia|]. split; [simpl; lia|]. split; [exact Hpos|].
  split; [vm_compute; discriminate|]. split; [vm_compute; reflexivity|].
  split; [vm_compute; reflexivity|]. split; [constructor|].
  split; [constructor|].
  apply (printSelectedItems_optimal 50 Knapsack.wt1 Knapsack.val1 3 [] []);
    [simpl; lia|simpl; lia|exact Hpos|vm_compute; discriminate
    |vm_compute; reflexivity|vm_compute; reflexivity
    |constructor|constructor].
Defined.

(** The three tests of [main], run one after the other on the same two
    tables, print the values 220, 18 and 100 and the items 2 and 3, 2 and
    3, and 1, 2 and 4. *)
Lemma knapsack_main_tests :
  Knapsack.main
  = Some [(220%Z, [(2, 20%Z, 100%Z); (3, 30%Z, 120%Z)]);
          (18%Z, [(2, 4%Z, 9%Z); (3, 3%Z, 9%Z)]);
          (100%Z, [(1, 12%Z, 40%Z); (2, 2%Z, 50%Z); (4, 1%Z, 10%Z)])].
Proof. vm_compute. reflexivity. Qed.

(** *** Capacity 0 and items of weight 0 *)

(** For weights that are not negative the run ends as well, and row 0
    and column 0 hold 0 and NONE whatever the items are: at capacity 0
    nothing is taken, not even an item of weight 0, and
    [printSelectedItems] prints nothing there. *)
Theorem knapsack01_base_cases (W : nat) (wt val : list Z) (n : nat)
    (K0 : list (list Z)) (d0 : list (list Knapsack.Decision)) :
  n <= length wt -> n <= length val ->
  Forall (fun wk => (0 <= wk)%Z) (take n wt) ->
  (sumZ (Z.abs <$> take n val) <= INT_MAX)%Z ->
  (Z.of_nat n < INT_MAX)%Z -> (Z.of_nat W < INT_MAX)%Z ->
  rows_hold (W + 1) K0 -> rows_hold (W + 1) d0 ->
  exists t,
    Knapsack.knapsack01 W wt val n K0 d0 = Some t /\
    (forall i w, i <= n -> w <= W -> i = 0 \/ w = 0 ->
       get2 (Knapsack.tab_K t) i w = Some 0%Z /\
       get2 (Knapsack.tab_d t) i w = Some Knapsack.NONE) /\
    (forall i, Knapsack.printSelectedItems (Knapsack.tab_d t) wt val i 0
               = Some []) /\
    (forall w, Knapsack.printSelectedItems (Knapsack.tab_d t) wt val 0 w
               = Some []).
Proof.
  intros Hwt Hval Hpos Hsum Hn HW HK0 Hd0.
  destruct (knapsack01_filled W wt val n Hwt Hval) with (K0 := K0) (d0 := d0)
    as (t & Hrun & _ & Hdone); [|done..|].
  { by apply Forall_take_lookup. }
  exists t. split; [done|]. split_and!.
  - intros i w Hi Hw H0. destruct (Hdone i w) as [-> ->]; [lia..|].
    destruct H0 as [-> | ->]; [done|]. by destruct i.
  - intros i. by destruct i.
  - done.
Qed.

Lemma knapsack01_base_cases_witness :
  2 <= length Knapsack.wt_weightless /\
  2 <= length Knapsack.val_weightless /\
  Forall (fun wk => (0 <= wk)%Z) (take 2 Knapsack.wt_weightless) /\
  (sumZ (Z.abs <$> take 2 Knapsack.val_weightless) <= INT_MAX)%Z /\
  (Z.of_nat 2 < INT_MAX)%Z /\ (Z.of_nat 3 < INT_MAX)%Z /\
  rows_hold (3 + 1) (@nil (list Z)) /\
  rows_hold (3 + 1) (@nil (list Knapsack.Decision)) /\
  exists t,
    Knapsack.knapsack01 3 Knapsack.wt_weightless Knapsack.val_weightless 2
      [] [] = Some t /\
    (forall i w, i <= 2 -> w <= 3 -> i = 0 \/ w = 0 ->
       get2 (Knapsack.tab_K t) i w = Some 0%Z /\
       get2 (Knapsack.tab_d t) i w = Some Knapsack.NONE) /\
    (forall i,
       Knapsack.printSelectedItems (Knapsack.tab_d t)
         Knapsack.wt_weightless Knapsack.val_weightless i 0 = Some []) /\
    (forall w,
       Knapsack.printSelectedItems (Knapsack.tab_d t)
         Knapsack.wt_weightless Knapsack.val_weightless 0 w = Some []).
Proof.
  assert (Forall (fun wk => (0 <= wk)%Z) (take 2 Knapsack.wt_weightless))
    as Hpos.
  { repeat constructor; lia. }
  split; [simpl; lia|]. split; [simpl; lia|]. split; [exact Hpos|].
  split; [vm_compute; discriminate|]. split; [vm_compute; reflexivity|].
  split; [vm_compute; reflexivity|]. split; [constructor|].
  split; [constructor|].
  apply (knapsack01_base_cases 3 Knapsack.wt_weightless
           Knapsack.val_weightless 2 [] []);
    [simpl; lia|simpl; lia|exact Hpos|vm_compute; discriminate
    |vm_compute; reflexivity|vm_compute; reflexivity
    |constructor|constructor].
Defined.

(** With an item of weight 0 the table can stay below the best value:
    for the weights 0 and 3, the values 5 and 1 and the capacity 3 the
    run leaves K[2][3] = 5, although both items fit and are worth 6
    (item 2 is weighed against K[1][0], which is 0 by the base case). *)
Theorem knapsack01_misses_weightless_item :
  exists t sel,
    Knapsack.knapsack01 3 Knapsack.wt_weightless Knapsack.val_weightless 2
      [] [] = Some t /\
    get2 (Knapsack.tab_K t) 2 3 = Some 5%Z /\
    sublist sel
      (take 2 (Knapsack.items Knapsack.wt_weightless Knapsack.val_weightless))
    /\
    (Knapsack.weight sel <= 3)%Z /\ Knapsack.value sel = 6%Z.
Proof.
  eexists.
  exists (Knapsack.items Knapsack.wt_weightless Knapsack.val_weightless).
  split; [vm_compute; reflexivity|]. split; [reflexivity|].
  split; [done|]. split; [vm_compute; discriminate|reflexivity].
Qed.

(** *** Tables passed in from an earlier run *)

Lemma knapsack_cell_step_lengths wt val i w t t' :
  Knapsack.cell_step wt val i w t = Some t' ->
  map length (Knapsack.tab_K t') = map length (Knapsack.tab_K t).
Proof.
  unfold Knapsack.cell_step. intros Hstep.
  repeat match type of Hstep with
  | (if ?c then _ else _) = Some _ => destruct c
  | (?m ≫= _) = Some _ =>
      let H := fresh "H" in destruct m eqn:H; [cbn [mbind option_bind] in Hstep|done]
  end;
  injection Hstep as <-; cbn [Knapsack.tab_K]; by eapply set2_lengths.
Qed.

(** The tables a run has filled cannot be passed to a run with a larger
    capacity: [resize] keeps the old rows, which hold W0 + 1 entries
    only, and the run indexes row 0 out of its range, whatever the items
    are. *)
Theorem tables_of_smaller_capacity (W0 W : nat) (wt0 val0 wt val : list Z)
    (n0 n : nat) (t0 : Knapsack.tables) :
  Knapsack.knapsack01 W0 wt0 val0 n0 [] [] = Some t0 -> W0 < W ->
  Knapsack.knapsack01 W wt val n (Knapsack.tab_K t0) (Knapsack.tab_d t0)
  = None.
Proof.
  intros Hrun0 HW.
  destruct (Knapsack.knapsack01 W wt val n _ _) as [t|] eqn:Hrun; [|done].
  exfalso. unfold Knapsack.knapsack01 in Hrun0, Hrun.
  destruct (int (Z.of_nat n0 + 1)); [|done].
  destruct (int (Z.of_nat W0 + 1)); [|done].
  destruct (int (Z.of_nat n + 1)); [|done].
  destruct (int (Z.of_nat W + 1)); [|done].
  cbn [mbind option_bind] in Hrun0, Hrun.
  assert (forall (L : list nat) W1 i t1 t2,
            for_each (seq 0 (W1 + 1)) (Knapsack.cell_step wt0 val0 i) t1
            = Some t2 ->
            map length (Knapsack.tab_K t1) = L ->
            map length (Knapsack.tab_K t2) = L) as Hrow0.
  { intros L W1 i t1 t2 Hrow HL.
    eapply (for_each_preserves
              (fun t3 => map length (Knapsack.tab_K t3) = L));
      [|exact Hrow|exact HL].
    intros w t3 t4 _ Hstep <-. by eapply knapsack_cell_step_lengths. }
  assert (forall (L : list nat) W1 i t1 t2,
            for_each (seq 0 (W1 + 1)) (Knapsack.cell_step wt val i) t1
            = Some t2 ->
            map length (Knapsack.tab_K t1) = L ->
            map length (Knapsack.tab_K t2) = L) as Hrow.
  { intros L W1 i t1 t2 Hr HL.
    eapply (for_each_preserves
              (fun t3 => map length (Knapsack.tab_K t3) = L));
      [|exact Hr|exact HL].
    intros w t3 t4 _ Hstep <-. by eapply knapsack_cell_step_lengths. }
  assert (map length (Knapsack.tab_K t0) = replicate (n0 + 1) (W0 + 1)) as Le.
  { apply (for_each_preserves
             (fun t3 => map length (Knapsack.tab_K t3)
                        = replicate (n0 + 1) (W0 + 1)) _ _ _ _) in Hrun0;
      [done| |].
    - intros i t3 t4 _. apply Hrow0.
    - cbn [Knapsack.tab_K]. by rewrite resize_nil, map_length_replicate. }
  set (L := map length (resize (n + 1) (replicate (W + 1) 0%Z)
                          (Knapsack.tab_K t0))).
  destruct (for_each_reaches
              (fun t3 => map length (Knapsack.tab_K t3) = L) _ _ _ _ 0 Hrun)
    as (t1 & t2 & Ht1 & Hstep);
    [apply elem_of_seq; lia|done|by intros i t3 t4 _; apply Hrow|].
  destruct (for_each_reaches
              (fun t3 => map length (Knapsack.tab_K t3) = L) _ _ _ _ W Hstep)
    as (t3 & t4 & Ht3 & Hstep');
    [apply elem_of_seq; lia|done
    |by intros w t5 t6 _ Hs <-; eapply knapsack_cell_step_lengths|].
  unfold Knapsack.cell_step in Hstep'. cbn [Nat.eqb orb] in Hstep'.
  destruct (set2 (Knapsack.tab_K t3) 0 W 0%Z) as [K'|] eqn:HK'; [|done].
  apply set2_inv in HK' as (row & Hrow3 & Hlt & _).
  assert (L !! 0 = Some (length row)) as HL.
  { rewrite <- Ht3.
    change (map length (Knapsack.tab_K t3))
      with (length <$> Knapsack.tab_K t3).
    by rewrite list_lookup_fmap, Hrow3. }
  unfold L, resize in HL. rewrite map_app in HL.
  assert (length (Knapsack.tab_K t0) = n0 + 1) as Hrows.
  { rewrite <- (length_map length), Le. apply length_replicate. }
  rewrite lookup_app_l in HL by (rewrite length_map, length_take; lia).
  change (map length (take (n + 1) (Knapsack.tab_K t0)))
    with (length <$> take (n + 1) (Knapsack.tab_K t0)) in HL.
  rewrite fmap_take in HL.
  change (length <$> Knapsack.tab_K t0)
    with (map length (Knapsack.tab_K t0)) in HL.
  rewrite Le in HL. rewrite lookup_take_lt in HL by lia.
  rewrite lookup_replicate_2 in HL by lia. injection HL as HL. lia.
Qed.

Lemma tables_of_smaller_capacity_witness :
  exists t0,
    Knapsack.knapsack01 7 Knapsack.wt2 Knapsack.val2 3 [] [] = Some t0 /\
    7 < 50 /\
    Knapsack.knapsack01 50 Knapsack.wt1 Knapsack.val1 3
      (Knapsack.tab_K t0) (Knapsack.tab_d t0) = None.
Proof.
  eexists. split; [vm_compute; reflexivity|]. split; [lia|].
  apply (tables_of_smaller_capacity 7 50 Knapsack.wt2 Knapsack.val2
           Knapsack.wt1 Knapsack.val1 3 3); [vm_compute; reflexivity|lia].
Defined.

(** ** Rod cutting *)

Lemma set1_is_Some {A} (v : list A) i x :
  i < length v -> set1 v i x = Some (<[i := x]> v).
Proof. intros Hi. unfold set1. by rewrite decide_True. Qed.

Lemma lookupZ_of_nat {A} (v : list A) (i : nat) :
  lookupZ v (Z.of_nat i) = v !! i.
Proof.
  unfold lookupZ. by rewrite (proj2 (Z.ltb_ge _ _)), Nat2Z.id by lia.
Qed.

Section RodCuttingFacts.
Import RodCutting.
Variables (prices : list Z) (B : Z) (n : nat).
Hypothesis Hprices : Forall (fun x => (Z.abs x <= B)%Z) prices.
Hypothesis Hbound : (Z.of_nat n * B <= INT_MAX)%Z.

Lemma price_bound i :
  1 <= i <= length prices ->
  (Z.abs (default 0 (prices !! (i - 1)%nat)) <= B)%Z.
Proof.
  intros Hi. destruct (lookup_lt_is_Some_2 prices (i - 1)) as [x Hx]; [lia|].
  rewrite Hx. simpl. by apply (proj1 (Forall_lookup _ _) Hprices (i - 1)).
Qed.

Lemma B_nonneg : 1 <= length prices -> (0 <= B)%Z.
Proof. intros Hm. pose proof (price_bound 1 ltac:(lia)). lia. Qed.

(** The running maximum: it is INT_MIN or the revenue of a first piece
    already tried, and no first piece already tried gives more. *)
Lemma fold_best_piece val j k :
  let cand i :=
    (default 0 (prices !! (i - 1)%nat) + default 0 (val !! (j - i)%nat))%Z in
  let F := fold_left (best_piece prices val j) (seq 1 k) INT_MIN in
  (forall i, 1 <= i <= k -> i <= length prices -> (cand i <= F)%Z) /\
  (F = INT_MIN \/ exists i, 1 <= i <= k /\ i <= length prices /\ F = cand i).
Proof.
  intros cand. induction k as [|k [IH1 IH2]]; [split; [lia|by left]|].
  rewrite seq_S, fold_left_app. cbn [fold_left].
  set (F := fold_left (best_piece prices val j) (seq 1 k) INT_MIN) in *.
  cbv zeta. replace (1 + k) with (S k) by lia.
  assert (best_piece prices val j F (S k)
          = if S k <=? length prices then Z.max F (cand (S k)) else F) as ->
    by done.
  destruct (S k <=? length prices) eqn:Hle.
  - apply Nat.leb_le in Hle. split.
    + intros i Hi Him. destruct (decide (i = S k)) as [->|]; [lia|].
      pose proof (IH1 i ltac:(lia) Him). lia.
    + destruct (Z.max_spec F (cand (S k))) as [[_ ->]|[_ ->]].
      * right. exists (S k). split; [lia|done].
      * destruct IH2 as [?|(i & ? & ? & ?)]; [by left|].
        right. exists i. split; [lia|done].
  - apply Nat.leb_gt in Hle. split.
    + intros i Hi Him. apply IH1; lia.
    + destruct IH2 as [?|(i & ? & ? & ?)]; [by left|].
      right. exists i. split; [lia|done].
Qed.

Lemma length_revenues j : length (revenues prices j) = S j.
Proof.
  induction j as [|j IH]; [done|].
  cbn [revenues]. cbv zeta. rewrite length_app, IH. simpl. lia.
Qed.

Lemma revenues_prefix j k x :
  k <= j -> revenues prices k !! k = Some x -> revenues prices j !! k = Some x.
Proof.
  induction j as [|j IH]; intros Hk Hx.
  - by assert (k = 0) as -> by lia.
  - destruct (decide (k = S j)) as [->|]; [done|].
    cbn [revenues]. cbv zeta. rewrite lookup_app_l
      by (rewrite length_revenues; lia).
    apply IH; [lia|done].
Qed.

Lemma revenues_last j :
  revenues prices (S j) !! S j
  = Some (best prices (revenues prices j) (S j)).
Proof.
  cbn [revenues]. cbv zeta.
  rewrite lookup_app_r by (rewrite length_revenues; lia).
  by rewrite length_revenues, Nat.sub_diag.
Qed.

Lemma cutting_0 pieces : cutting prices 0 pieces -> pieces = [].
Proof.
  intros [Hlen Hsum]. destruct pieces as [|len pieces]; [done|].
  apply Forall_cons in Hlen as [Hlen _]. simpl in Hsum. lia.
Qed.

Lemma revenue_cons len pieces :
  revenue prices (len :: pieces)
  = (default 0 (prices !! (len - 1)%nat) + revenue prices pieces)%Z.
Proof. done. Qed.

(** The entry of the length [j] is the best revenue of a way to cut a
    rod of length [j], and its absolute value is at most [j * B]. *)
Lemma revenues_best j :
  1 <= length prices -> j <= n ->
  exists r,
    revenues prices j !! j = Some r /\
    (Z.abs r <= Z.of_nat j * B)%Z /\
    (forall pieces, cutting prices j pieces -> (revenue prices pieces <= r)%Z) /\
    (exists pieces, cutting prices j pieces /\ revenue prices pieces = r).
Proof.
  intros Hm. pose proof (B_nonneg Hm) as HB.
  induction j as [j IH] using lt_wf_ind. intros Hj.
  destruct j as [|j].
  { exists 0%Z. split_and!; [done|lia| |].
    - intros pieces ->%cutting_0. done.
    - exists []. by split. }
  rewrite revenues_last. eexists. split; [done|].
  set (val := revenues prices j).
  assert (forall i, 1 <= i <= S j -> i <= length prices ->
            exists r, val !! (S j - i) = Some r /\
              (Z.abs r <= Z.of_nat (S j - i) * B)%Z /\
              (forall pieces, cutting prices (S j - i) pieces ->
                 (revenue prices pieces <= r)%Z) /\
              (exists pieces, cutting prices (S j - i) pieces /\
                 revenue prices pieces = r)) as Hval.
  { intros i Hi Him.
    destruct (IH (S j - i)) as (r & Hr & Hrest); [lia..|].
    exists r. split; [|done]. apply revenues_prefix; [lia|done]. }
  destruct (fold_best_piece val (S j) (S j)) as [Hle Hex].
  cbv zeta in Hle, Hex. unfold best.
  set (F := fold_left (best_piece prices val (S j)) (seq 1 (S j)) INT_MIN) in *.
  assert (forall i, 1 <= i <= S j -> i <= length prices ->
            (Z.abs (default 0 (prices !! (i - 1)%nat)
                    + default 0 (val !! (S j - i)%nat))
             <= Z.of_nat (S j) * B)%Z) as Hcand.
  { intros i Hi Him. destruct (Hval i Hi Him) as (r & -> & Hr & _).
    pose proof (price_bound i ltac:(lia)). simpl. nia. }
  assert (Z.of_nat (S j) * B <= Z.of_nat n * B)%Z as HjB by nia.
  assert (F <> INT_MIN) as HF.
  { pose proof (Hle 1 ltac:(lia) ltac:(lia)).
    pose proof (Hcand 1 ltac:(lia) ltac:(lia)).
    unfold INT_MIN, INT_MAX in *. lia. }
  rewrite (proj2 (Z.eqb_neq _ _) HF).
  destruct Hex as [?|(i0 & Hi0 & Hi0m & HFi0)]; [done|].
  split_and!.
  - rewrite HFi0. by apply Hcand.
  - intros pieces [Hlen Hsum].
    destruct pieces as [|i pieces]; [done|].
    apply Forall_cons in Hlen as [Hi Hlen]. simpl in Hsum.
    destruct (Hval i ltac:(lia) ltac:(lia)) as (r & Hr & _ & Hup & _).
    rewrite revenue_cons.
    pose proof (Hup pieces ltac:(split; [done|lia])).
    pose proof (Hle i ltac:(lia) ltac:(lia)) as Hi'. rewrite Hr in Hi'.
    simpl in Hi'. lia.
  - destruct (Hval i0 Hi0 Hi0m) as (r & Hr & _ & _ & pieces & [Hlen Hsum] & Hrev).
    exists (i0 :: pieces). split.
    + split; [apply Forall_cons; split; [lia|done]|simpl; lia].
    + rewrite revenue_cons, Hrev, HFi0, Hr. done.
Qed.

End RodCuttingFacts.

Lemma for_each_fold {S} (ks : list nat) (body : nat -> S -> option S)
    (f : S -> nat -> S) (s : S) :
  (forall k s0, k ∈ ks -> body k s0 = Some (f s0 k)) ->
  for_each ks body s = Some (fold_left f ks s).
Proof.
  revert s. induction ks as [|k ks IH]; intros s Hb; [done|].
  simpl. rewrite Hb by (apply elem_of_cons; by left).
  apply IH. intros k' s0 Hk'. apply Hb. apply elem_of_cons. by right.
Qed.

Section RodCuttingRun.
Import RodCutting.
Variables (prices : list Z) (B : Z) (n : nat).
Hypothesis Hprices : Forall (fun x => (Z.abs x <= B)%Z) prices.
Hypothesis Hbound : (Z.of_nat n * B <= INT_MAX)%Z.
Hypothesis Hm : 1 <= length prices.

Lemma length_step_revenues j :
  S j <= n ->
  length_step prices (length prices) (S j)
    (revenues prices j ++ replicate (n - j) 0%Z)
  = Some (revenues prices (S j) ++ replicate (n - S j) 0%Z).
Proof.
  intros Hj. unfold length_step.
  pose proof (B_nonneg prices B n Hprices Hm) as HB.
  rewrite (for_each_fold _ _ (best_piece prices (revenues prices j) (S j))).
  - cbn [mbind option_bind]. fold (best prices (revenues prices j) (S j)).
    rewrite set1_is_Some
      by (rewrite length_app, (length_revenues prices n), length_replicate; lia).
    f_equal. cbn [revenues]. cbv zeta.
    replace (n - j) with (S (n - S j)) by lia. cbn [replicate].
    rewrite insert_app_r_alt by (rewrite (length_revenues prices n); lia).
    rewrite (length_revenues prices n), Nat.sub_diag. cbn [insert list_insert].
    by rewrite <- app_assoc.
  - intros i s0 Hi%elem_of_seq. unfold piece_step, best_piece.
    destruct (i <=? length prices) eqn:Hle; [|done].
    apply Nat.leb_le in Hle.
    destruct (lookup_lt_is_Some_2 prices (i - 1)) as [price Hprice]; [lia|].
    rewrite Hprice. cbn [mbind option_bind].
    rewrite lookup_app_l by (rewrite (length_revenues prices n); lia).
    destruct (revenues_best prices B n Hprices Hbound (S j - i) Hm)
      as (r & Hr & Hrb & _); [lia|].
    rewrite (revenues_prefix prices n j (S j - i) r) by (lia || done).
    cbn [mbind option_bind default].
    pose proof (price_bound prices B n Hprices i ltac:(lia)) as Hpb.
    rewrite Hprice in Hpb. simpl in Hpb.
    rewrite int_Some; [done|].
    assert (Z.of_nat (S j - i) * B + B <= Z.of_nat n * B)%Z by nia.
    unfold INT_MIN, INT_MAX in *. lia.
Qed.

Lemma cutRod_revenues :
  (Z.of_nat n < INT_MAX)%Z -> (Z.of_nat (length prices) <= INT_MAX)%Z ->
  cutRod prices (Z.of_nat n) = revenues prices n !! n.
Proof.
  intros Hn Hlen. unfold cutRod.
  rewrite (int_Some (Z.of_nat n + 1))
    by (unfold INT_MIN, INT_MAX in *; lia).
  cbn [mbind option_bind].
  rewrite (proj2 (Z.ltb_ge _ _)) by lia.
  replace (Z.to_nat (Z.of_nat n + 1)) with (S n) by lia.
  rewrite set1_is_Some by (rewrite length_replicate; lia).
  cbn [mbind option_bind replicate list_insert insert].
  rewrite int_Some by (unfold INT_MIN, INT_MAX in *; lia).
  cbn [mbind option_bind]. rewrite Nat2Z.id.
  destruct (for_each_seq
              (fun j val =>
                 val = revenues prices (j - 1) ++ replicate (n + 1 - j) 0%Z)
              (length_step prices (length prices)) 1 n
              (0%Z :: replicate n 0%Z)) as (val & -> & Hval).
  - simpl. by replace (n + 1 - 1) with n by lia.
  - intros j val0 Hj ->. eexists. split.
    + replace j with (S (j - 1)) at 1 by lia.
      replace (n + 1 - j) with (n - (j - 1)) by lia.
      apply length_step_revenues. lia.
    + do 2 f_equal; lia.
  - cbn [mbind option_bind]. rewrite lookupZ_of_nat, Hval.
    replace (1 + n - 1) with n by lia.
    rewrite lookup_app_l by (rewrite (length_revenues prices n); lia). done.
Qed.

End RodCuttingRun.

(** [cutRod] for a rod of length n >= 0 and at least one price, when the
    prices are at most B in absolute value and n * B does not exceed
    INT_MAX: the call returns the largest revenue of a way to cut the rod
    into pieces whose lengths have a price: no way to cut it brings more,
    and one brings as much. Lengths beyond the last price are not
    sold. *)
Theorem cutRod_optimal (prices : list Z) (B : Z) (n : nat) :
  1 <= length prices -> (Z.of_nat (length prices) <= INT_MAX)%Z ->
  Forall (fun x => (Z.abs x <= B)%Z) prices ->
  (Z.of_nat n * B <= INT_MAX)%Z -> (Z.of_nat n < INT_MAX)%Z ->
  exists r,
    RodCutting.cutRod prices (Z.of_nat n) = Some r /\
    (forall pieces, RodCutting.cutting prices n pieces ->
       (RodCutting.revenue prices pieces <= r)%Z) /\
    (exists pieces, RodCutting.cutting prices n pieces /\
       RodCutting.revenue prices pieces = r).
Proof.
  intros Hm Hlen Hprices Hbound Hn.
  rewrite (cutRod_revenues prices B n) by done.
  destruct (revenues_best prices B n Hprices Hbound n Hm)
    as (r & Hr & _ & Hup & Hex); [lia|].
  by exists r.
Qed.

Lemma cutRod_optimal_witness :
  1 <= length RodCutting.prices /\
  (Z.of_nat (length RodCutting.prices) <= INT_MAX)%Z /\
  Forall (fun x => (Z.abs x <= 30)%Z) RodCutting.prices /\
  (Z.of_nat 13 * 30 <= INT_MAX)%Z /\ (Z.of_nat 13 < INT_MAX)%Z /\
  exists r,
    RodCutting.cutRod RodCutting.prices (Z.of_nat 13) = Some r /\
    (forall pieces, RodCutting.cutting RodCutting.prices 13 pieces ->
       (RodCutting.revenue RodCutting.prices pieces <= r)%Z) /\
    (exists pieces, RodCutting.cutting RodCutting.prices 13 pieces /\
       RodCutting.revenue RodCutting.prices pieces = r).
Proof.
  assert (Forall (fun x => (Z.abs x <= 30)%Z) RodCutting.prices) as Hp.
  { repeat constructor; lia. }
  split; [simpl; lia|]. split; [vm_compute; discriminate|].
  split; [exact Hp|]. split; [vm_compute; discriminate|].
  split; [vm_compute; reflexivity|].
  apply (cutRod_optimal RodCutting.prices 30 13);
    [simpl; lia|vm_compute; discriminate|exact Hp|vm_compute; discriminate
    |vm_compute; reflexivity].
Defined.

(** The edge cases of [cutRod]: a negative length gives no result (the
    vector [val] cannot be built for n < -1, and [val[0]] is out of range
    for n = -1); with no price at all nothing can be sold and the result
    is 0, whatever the length; the rod of length 0 brings 0. *)
Theorem cutRod_edge_cases (prices : list Z) (n : Z) :
  ((n < 0)%Z -> RodCutting.cutRod prices n = None) /\
  ((0 <= n < INT_MAX)%Z -> RodCutting.cutRod [] n = Some 0%Z) /\
  ((Z.of_nat (length prices) <= INT_MAX)%Z ->
   RodCutting.cutRod prices 0 = Some 0%Z).
Proof.
  split_and!.
  - intros Hn. unfold RodCutting.cutRod.
    destruct (int (n + 1)) as [size|] eqn:Hsize; [|reflexivity].
    apply int_inv in Hsize as [-> _]. cbn [mbind option_bind].
    destruct (n + 1 <? 0)%Z eqn:Hlt; [reflexivity|]. apply Z.ltb_ge in Hlt.
    by replace (n + 1)%Z with 0%Z by lia.
  - intros Hn. unfold RodCutting.cutRod.
    rewrite (int_Some (n + 1)) by (unfold INT_MIN, INT_MAX in *; lia).
    cbn [mbind option_bind]. rewrite (proj2 (Z.ltb_ge _ _)) by lia.
    replace (Z.to_nat (n + 1)) with (S (Z.to_nat n)) by lia.
    rewrite set1_is_Some by (rewrite length_replicate; lia).
    cbn [mbind option_bind replicate insert list_insert length].
    rewrite int_Some by done. cbn [mbind option_bind].
    rewrite for_each_same.
    + cbn [mbind option_bind]. rewrite <- (Z2Nat.id n) at 2 by lia.
      rewrite lookupZ_of_nat.
      change (0%Z :: replicate (Z.to_nat n) 0%Z)
        with (replicate (S (Z.to_nat n)) 0%Z).
      apply lookup_replicate_2. lia.
    + intros j Hj%elem_of_seq. unfold RodCutting.length_step.
      rewrite (for_each_fold _ _ (fun max_val _ => max_val)).
      * assert (forall ks : list nat,
                  fold_left (fun (max_val : Z) (_ : nat) => max_val) ks INT_MIN
                  = INT_MIN) as -> by (by induction ks).
        cbn [mbind option_bind]. rewrite Z.eqb_refl.
        change (0%Z :: replicate (Z.to_nat n) 0%Z)
          with (replicate (S (Z.to_nat n)) 0%Z).
        rewrite set1_is_Some by (rewrite length_replicate; lia).
        f_equal. apply list_insert_id. apply lookup_replicate_2. lia.
      * intros i s0 Hi%elem_of_seq. unfold RodCutting.piece_step.
        by rewrite (proj2 (Nat.leb_gt _ _)) by lia.
  - intros Hlen. unfold RodCutting.cutRod.
    rewrite (int_Some (0 + 1)) by done. cbn [mbind option_bind].
    change (0 + 1 <? 0)%Z with false. cbv iota.
    change (set1 (replicate (Z.to_nat (0 + 1)) 0%Z) 0 0%Z) with (Some [0%Z]).
    cbn [mbind option_bind].
    rewrite int_Some by (unfold INT_MIN, INT_MAX in *; lia). done.
Qed.

Lemma cutRod_edge_cases_witness :
  (-1 < 0)%Z /\ RodCutting.cutRod RodCutting.prices (-1) = None /\
  (0 <= 13 < INT_MAX)%Z /\ RodCutting.cutRod [] 13 = Some 0%Z /\
  (Z.of_nat (length RodCutting.prices) <= INT_MAX)%Z /\
  RodCutting.cutRod RodCutting.prices 0 = Some 0%Z.
Proof.
  destruct (cutRod_edge_cases RodCutting.prices (-1)) as (H1 & _ & H3).
  destruct (cutRod_edge_cases RodCutting.prices 13) as (_ & H2 & _).
  split; [lia|]. split; [apply H1; lia|].
  split; [split; [lia|vm_compute; reflexivity]|].
  split; [apply H2; split; [lia|vm_compute; reflexivity]|].
  split; [vm_compute; discriminate|]. apply H3. vm_compute. discriminate.
Defined.

(** The three tests of [main]: the rods of length 7, 10 and 13 bring 18,
    30 and 38. *)
Lemma cutRod_main_tests :
  RodCutting.cutRod RodCutting.prices 7 = Some 18%Z /\
  RodCutting.cutRod RodCutting.prices 10 = Some 30%Z /\
  RodCutting.cutRod RodCutting.prices 13 = Some 38%Z.
Proof. split_and!; vm_compute; reflexivity. Qed.

(** ** Matrix chain multiplication *)

Section MatrixChainFacts.
Import MatrixChain.
Variable p : list Z.

Lemma mscan_ext cost cost' ks acc :
  (forall k, k ∈ ks -> cost k = cost' k) ->
  fold_left (scan_step cost) ks acc = fold_left (scan_step cost') ks acc.
Proof.
  revert acc. induction ks as [|k ks IH]; intros acc Hc; [done|].
  simpl. unfold scan_step at 2 4. rewrite (Hc k) by (apply elem_of_cons; by left).
  apply IH. intros k' Hk'. apply Hc. apply elem_of_cons. by right.
Qed.

Lemma mc_fuel f f' i L : L <= f -> L <= f' -> mc p f i L = mc p f' i L.
Proof.
  revert f' i L. induction f as [|f IH]; intros f' i L Hf Hf'.
  - assert (L = 0) as -> by lia. by destruct f'.
  - destruct L as [|[|L]]; [by destruct f'..|].
    destruct f' as [|f']; [lia|]. cbn [mc].
    apply mscan_ext. intros k Hk%elem_of_seq.
    rewrite (IH f' i (k + 1 - i)), (IH f' (k + 1)) by lia. done.
Qed.

Lemma mc_SS f i L :
  mc p (S f) i (S (S L))
  = fold_left
      (scan_step (fun k =>
         (mc p f i (k + 1 - i) + mc p f (k + 1) (i + S (S L) - 1 - k)
          + dim p (i - 1) * dim p k * dim p (i + S (S L) - 1))%Z))
      (seq i (S L)) INT_MAX.
Proof. done. Qed.

Lemma MC_1 i : MC p i 1 = 0%Z.
Proof. done. Qed.

Lemma MC_S i L :
  MC p i (S (S L))
  = fold_left (scan_step (split_cost p i (S (S L)))) (seq i (S L)) INT_MAX.
Proof.
  unfold MC at 1. rewrite mc_SS.
  apply mscan_ext. intros k Hk%elem_of_seq. unfold split_cost, MC.
  cbv beta. rewrite (mc_fuel (S L) (k + 1 - i) i),
    (mc_fuel (S L) (i + S (S L) - 1 - k)) by lia.
  done.
Qed.

(** The scan keeps a least cost: its result does not exceed any cost
    scanned, and it is INT_MAX or one of them. *)
Lemma mscan_least cost i len :
  let r := fold_left (scan_step cost) (seq i len) INT_MAX in
  (r <= INT_MAX)%Z /\
  (forall k, i <= k < i + len -> (r <= cost k)%Z) /\
  (r = INT_MAX \/ exists k, i <= k < i + len /\ r = cost k).
Proof.
  induction len as [|len (IH0 & IH1 & IH2)]; [by split_and!; [|lia|left]|].
  rewrite seq_S, fold_left_app. cbn [fold_left].
  set (r := fold_left (scan_step cost) (seq i len) INT_MAX) in *.
  cbv zeta.
  assert (scan_step cost r (i + len)
          = if (cost (i + len)%nat <? r)%Z then cost (i + len) else r) as ->
    by done.
  destruct (Z.ltb_spec (cost (i + len)) r) as [Hlt|Hge].
  - split_and!; [lia| |].
    + intros k Hk. destruct (decide (k = i + len)) as [->|]; [lia|].
      pose proof (IH1 k ltac:(lia)). lia.
    + right. exists (i + len). split; [lia|done].
  - split_and!; [done| |].
    + intros k Hk. destruct (decide (k = i + len)) as [->|]; [lia|].
      apply IH1. lia.
    + destruct IH2 as [?|(k & ? & ?)]; [by left|].
      right. exists k. split; [lia|done].
Qed.

Variable B : Z.
Hypothesis Hlen : 1 <= length p.
Hypothesis Hdims : Forall (fun x => (0 <= x <= B)%Z) p.
Hypothesis Hbound : (Z.of_nat (length p) * (B * B * B) <= INT_MAX)%Z.

Local Abbreviation n := (length p - 1).

Lemma lookup_dim k : k <= n -> p !! k = Some (dim p k).
Proof.
  intros Hk. unfold dim.
  destruct (lookup_lt_is_Some_2 p k) as [x ->]; [lia|done].
Qed.

Lemma dim_bounds k : k <= n -> (0 <= dim p k <= B)%Z.
Proof.
  intros Hk. pose proof (lookup_dim k Hk) as Hx.
  by apply (proj1 (Forall_lookup _ _) Hdims k).
Qed.

Lemma B_cube : (0 <= B /\ 0 <= B * B <= INT_MAX /\ 0 <= B * B * B)%Z.
Proof.
  pose proof (dim_bounds 0 ltac:(lia)) as H0.
  assert (0 <= B)%Z as HB by lia.
  assert (0 <= B * B)%Z by nia. assert (0 <= B * B * B)%Z by nia.
  split; [done|]. split; [|done]. split; [done|].
  destruct (decide (B = 0%Z)) as [HB0|]; [by rewrite HB0|].
  assert (B * B <= B * B * B)%Z by nia.
  assert (B * B * B <= Z.of_nat (length p) * (B * B * B))%Z by nia.
  lia.
Qed.

Lemma product_bounds a b c :
  (0 <= a <= B)%Z -> (0 <= b <= B)%Z -> (0 <= c <= B)%Z ->
  (0 <= a * b <= B * B /\ 0 <= a * b * c <= B * B * B)%Z.
Proof.
  intros Ha Hb Hc.
  assert (0 <= a * b <= B * B)%Z by nia.
  split; [done|]. split; [nia|].
  assert (a * b * c <= B * B * c)%Z by nia.
  assert (B * B * c <= B * B * B)%Z by nia. lia.
Qed.

(** The entries are not negative, and a chain of [L] matrices takes at
    most [(L - 1) * B^3] multiplications. *)
Lemma MC_bounds L : forall i,
  1 <= i -> 1 <= L -> i + L <= n + 1 ->
  (0 <= MC p i L <= Z.of_nat (L - 1) * (B * B * B))%Z /\
  (forall k, 2 <= L -> i <= k < i + L - 1 ->
     (0 <= split_cost p i L k <= Z.of_nat (L - 1) * (B * B * B))%Z).
Proof.
  pose proof B_cube as (HB & HBB & HBBB).
  induction L as [L IH] using lt_wf_ind. intros i Hi HL HiL.
  assert (forall k, 2 <= L -> i <= k < i + L - 1 ->
            (0 <= split_cost p i L k <= Z.of_nat (L - 1) * (B * B * B))%Z)
    as Hsplit.
  { intros k HL2 Hk. unfold split_cost.
    destruct (IH (k + 1 - i) ltac:(lia) i) as [Hl _]; [lia..|].
    destruct (IH (i + L - 1 - k) ltac:(lia) (k + 1)) as [Hr _]; [lia..|].
    destruct (product_bounds (dim p (i - 1)) (dim p k) (dim p (i + L - 1)))
      as [_ Hprod]; [apply dim_bounds; lia..|].
    replace (Z.of_nat (L - 1))
      with (Z.of_nat (k + 1 - i - 1) + Z.of_nat (i + L - 1 - k - 1) + 1)%Z
      by lia.
    lia. }
  split; [|done].
  destruct L as [|[|L]]; [lia|rewrite MC_1; simpl; lia|].
  rewrite MC_S.
  destruct (mscan_least (split_cost p i (S (S L))) i (S L))
    as (_ & Hle & Hex).
  cbv zeta in Hle, Hex.
  pose proof (Hle i ltac:(lia)). pose proof (Hsplit i ltac:(lia) ltac:(lia)).
  split; [|lia].
  destruct Hex as [->|(k & Hk & ->)]; [done|].
  apply Hsplit; lia.
Qed.

Lemma mc_split_step_scanning L i k m_table :
  1 <= i -> 2 <= L -> i + L <= n + 1 -> i <= k < i + L - 1 ->
  scanning p n L i k m_table ->
  exists m', split_step p i (i + L - 1) k m_table = Some m' /\
             scanning p n L i (k + 1) m'.
Proof.
  intros Hi HL HiL Hk (Hsh & Hdone & Hcur). unfold split_step.
  pose proof B_cube as (HB & HBB & HBBB).
  pose proof (Hdone i (k + 1 - i)) as Hl.
  replace (i + (k + 1 - i) - 1) with k in Hl by lia.
  rewrite Hl by lia. cbn [mbind option_bind].
  pose proof (Hdone (k + 1) (i + L - 1 - k)) as Hr.
  replace (k + 1 + (i + L - 1 - k) - 1) with (i + L - 1) in Hr by lia.
  rewrite Hr by lia. cbn [mbind option_bind].
  destruct (MC_bounds (k + 1 - i) i) as [Hlb _]; [lia..|].
  destruct (MC_bounds (i + L - 1 - k) (k + 1)) as [Hrb _]; [lia..|].
  destruct (MC_bounds L i) as [_ Hsb]; [lia..|].
  specialize (Hsb k ltac:(lia) ltac:(lia)). unfold split_cost in Hsb.
  destruct (product_bounds (dim p (i - 1)) (dim p k) (dim p (i + L - 1)))
    as [Hp2 Hp3]; [apply dim_bounds; lia..|].
  assert (Z.of_nat (L - 1) * (B * B * B)
          <= Z.of_nat (length p) * (B * B * B))%Z as HLB by nia.
  rewrite int_Some by (unfold INT_MIN, INT_MAX in *; lia).
  cbn [mbind option_bind].
  rewrite !lookup_dim by lia. cbn [mbind option_bind].
  rewrite int_Some by (unfold INT_MIN, INT_MAX in *; lia).
  cbn [mbind option_bind].
  rewrite int_Some by (unfold INT_MIN, INT_MAX in *; lia).
  cbn [mbind option_bind].
  rewrite int_Some by (unfold INT_MIN, INT_MAX in *; lia).
  cbn [mbind option_bind]. rewrite Hcur. cbn [mbind option_bind].
  fold (split_cost p i L k).
  set (cur := fold_left (scan_step (split_cost p i L)) (seq i (k - i))
                INT_MAX) in *.
  assert (fold_left (scan_step (split_cost p i L)) (seq i (k + 1 - i)) INT_MAX
          = if (split_cost p i L k <? cur)%Z then split_cost p i L k else cur)
    as Hscan.
  { replace (k + 1 - i) with (S (k - i)) by lia.
    rewrite seq_S, fold_left_app. cbn [fold_left].
    by replace (i + (k - i)) with k by lia. }
  destruct (_ <? _)%Z.
  - destruct (set2_is_Some m_table i (i + L - 1) (split_cost p i L k))
      as [m' Hm']; [apply Hsh; lia|].
    rewrite Hm'. exists m'. split; [done|]. split_and!.
    + intros a b Ha Hb. eapply get2_set2_is_Some; [done|by apply Hsh].
    + intros a k' Ha Hk' Hak' Hd.
      rewrite (get2_set2_ne _ _ _ _ _ _ _ Hm').
      * by apply Hdone.
      * intros [= -> ?]. lia.
    + rewrite Hscan. by eapply get2_set2_eq.
  - exists m_table. split; [done|]. split_and!; [done..|].
    by rewrite Hscan.
Qed.

Lemma mc_chain_step_filled L i m_table :
  1 <= i -> 2 <= L -> i + L <= n + 1 ->
  filled p n L i m_table ->
  exists m', chain_step p L i m_table = Some m' /\ filled p n L (i + 1) m'.
Proof.
  intros Hi HL HiL (Hsh & Hdone). unfold chain_step. cbv zeta.
  destruct (set2_is_Some m_table i (i + L - 1) INT_MAX) as [m0 Hm0];
    [apply Hsh; lia|].
  rewrite Hm0. cbn [mbind option_bind].
  destruct (for_each_seq (scanning p n L i) (split_step p i (i + L - 1)) i
              (i + L - 1 - i) m0) as (m' & Hrun & Hsh' & Hdone' & Hcur).
  - split_and!.
    + intros a b Ha Hb. eapply get2_set2_is_Some; [done|by apply Hsh].
    + intros a k' Ha Hk' Hak' Hd.
      rewrite (get2_set2_ne _ _ _ _ _ _ _ Hm0).
      * by apply Hdone.
      * intros [= -> ?]. lia.
    + rewrite Nat.sub_diag. by eapply get2_set2_eq.
  - intros k m1 Hk Hm1. apply mc_split_step_scanning; [done..|lia|done].
  - exists m'. split; [done|]. split; [done|].
    intros a k' Ha Hk' Hak' Hd.
    destruct (decide ((a, k') = (i, L))) as [[= -> ->]|Hne].
    + rewrite Hcur. f_equal. destruct L as [|[|L]]; [lia..|].
      rewrite MC_S. do 2 f_equal. lia.
    + apply Hdone'; [done..|].
      destruct Hd as [?|[-> ?]]; [by left|]. right. split; [done|].
      destruct (decide (a = i)) as [->|]; [done|lia].
Qed.

Lemma mc_length_step_filled L m_table :
  2 <= L <= n ->
  filled p n L 1 m_table ->
  exists m', length_step p n L m_table = Some m' /\ filled p n (L + 1) 1 m'.
Proof.
  intros HL Hm. unfold length_step.
  destruct (for_each_seq (filled p n L) (chain_step p L) 1 (n - L + 1) m_table)
    as (m' & Hrun & Hsh & Hdone).
  - done.
  - intros i m0 Hi Hm0. apply mc_chain_step_filled; [lia..|done].
  - exists m'. split; [done|]. split; [done|].
    intros a k Ha Hk Hak Hd. apply Hdone; [done..|lia].
Qed.

(** The result is the entry of the whole chain. *)
Lemma matrixChainOrder_MC :
  2 <= length p -> (Z.of_nat (length p) <= INT_MAX)%Z ->
  matrixChainOrder p = Some (MC p 1 n).
Proof.
  intros H2 Hmax. unfold matrixChainOrder.
  rewrite (proj2 (Nat.ltb_ge _ _)) by lia.
  rewrite !int_Some by (unfold INT_MIN, INT_MAX in *; lia).
  cbn [mbind option_bind]. cbv zeta.
  rewrite for_each_same.
  2:{ intros i Hi%elem_of_seq. apply set2_same. apply get2_replicate; lia. }
  cbn [mbind option_bind].
  destruct (for_each_seq (fun L => filled p n L 1) (length_step p n) 2 (n - 1)
              (replicate (n + 1) (replicate (n + 1) 0%Z)))
    as (m' & Hrun & Hsh & Hdone).
  - split.
    + intros a b Ha Hb. rewrite get2_replicate by lia. done.
    + intros a k Ha Hk Hak Hd. assert (k = 1) as -> by lia.
      rewrite get2_replicate by lia. by rewrite MC_1.
  - intros L m0 HL Hm0. apply mc_length_step_filled; [lia|done].
  - rewrite Hrun. cbn [mbind option_bind].
    rewrite <- (Hdone 1 n); [f_equal|..]; lia.
Qed.

Lemma matrices_pos c : 1 <= matrices c.
Proof. induction c; simpl; lia. Qed.

(** No way to parenthesize the chain takes fewer multiplications than
    the entry of the chain. *)
Lemma MC_lower_bound c : forall i,
  1 <= i -> i + matrices c <= n + 1 ->
  (MC p i (matrices c) <= multiplications p c i)%Z.
Proof.
  induction c as [|l IHl r IHr]; intros i Hi Hic; [done|].
  cbn [matrices multiplications] in *.
  pose proof (matrices_pos l) as Hl1. pose proof (matrices_pos r) as Hr1.
  pose proof (IHl i ltac:(lia) ltac:(lia)).
  pose proof (IHr (i + matrices l) ltac:(lia) ltac:(lia)).
  destruct (matrices l + matrices r) as [|[|L]] eqn:HL; [lia..|].
  rewrite MC_S.
  destruct (mscan_least (split_cost p i (S (S L))) i (S L)) as (_ & Hle & _).
  cbv zeta in Hle.
  etrans; [apply (Hle (i + matrices l - 1)); lia|].
  unfold split_cost.
  replace (i + matrices l - 1 + 1 - i) with (matrices l) by lia.
  replace (i + matrices l - 1 + 1) with (i + matrices l) by lia.
  replace (i + S (S L) - 1 - (i + matrices l - 1)) with (matrices r) by lia.
  lia.
Qed.

(** One way to parenthesize the chain takes as many multiplications as
    the entry of the chain. *)
Lemma MC_attained L : forall i,
  1 <= i -> 1 <= L -> i + L <= n + 1 ->
  exists c, matrices c = L /\ multiplications p c i = MC p i L.
Proof.
  induction L as [L IH] using lt_wf_ind. intros i Hi HL HiL.
  destruct L as [|[|L]]; [lia|by exists Matrix|].
  destruct (MC_bounds (S (S L)) i) as [Hb Hsb]; [lia..|].
  rewrite MC_S in *.
  destruct (mscan_least (split_cost p i (S (S L))) i (S L))
    as (_ & Hle & Hex).
  cbv zeta in Hle, Hex.
  assert (exists k, i <= k < i + S L /\
            fold_left (scan_step (split_cost p i (S (S L)))) (seq i (S L))
              INT_MAX = split_cost p i (S (S L)) k) as (k & Hk & ->).
  { destruct Hex as [Hmax|?]; [|done]. exists i. split; [lia|].
    pose proof (Hle i ltac:(lia)). pose proof (Hsb i ltac:(lia) ltac:(lia)).
    assert (Z.of_nat (S (S L) - 1) * (B * B * B)
            <= Z.of_nat (length p) * (B * B * B))%Z.
    { pose proof B_cube. nia. }
    lia. }
  destruct (IH (k + 1 - i) ltac:(lia) i) as (l & Hl & Hlc); [lia..|].
  destruct (IH (i + S (S L) - 1 - k) ltac:(lia) (k + 1)) as (r & Hr & Hrc);
    [lia..|].
  exists (Product l r). cbn [matrices multiplications]. rewrite Hl, Hr.
  split; [lia|].
  replace (i + (k + 1 - i)) with (k + 1) by lia. rewrite Hlc, Hrc.
  unfold split_cost. do 2 f_equal; [f_equal|]; f_equal; lia.
Qed.

End MatrixChainFacts.

(** [matrixChainOrder] on n >= 1 matrices whose dimensions lie between 0
    and B, when the number of dimensions times B^3 does not exceed
    INT_MAX: the call returns the least number of scalar multiplications
    of a way to parenthesize the chain: no way takes fewer, and one takes
    as many. *)
Theorem matrixChainOrder_optimal (p : list Z) (B : Z) :
  2 <= length p -> (Z.of_nat (length p) <= INT_MAX)%Z ->
  Forall (fun x => (0 <= x <= B)%Z) p ->
  (Z.of_nat (length p) * (B * B * B) <= INT_MAX)%Z ->
  exists cost,
    MatrixChain.matrixChainOrder p = Some cost /\
    (forall c, MatrixChain.matrices c = length p - 1 ->
       (cost <= MatrixChain.multiplications p c 1)%Z) /\
    (exists c, MatrixChain.matrices c = length p - 1 /\
       MatrixChain.multiplications p c 1 = cost).
Proof.
  intros H2 Hmax Hdims Hbound.
  rewrite (matrixChainOrder_MC p B) by (done || lia).
  eexists. split; [done|]. split.
  - intros c Hc. rewrite <- Hc. apply MC_lower_bound; lia.
  - apply (MC_attained p B); done || lia.
Qed.

Lemma matrixChainOrder_optimal_witness :
  2 <= length MatrixChain.dims /\
  (Z.of_nat (length MatrixChain.dims) <= INT_MAX)%Z /\
  Forall (fun x => (0 <= x <= 35)%Z) MatrixChain.dims /\
  (Z.of_nat (length MatrixChain.dims) * (35 * 35 * 35) <= INT_MAX)%Z /\
  exists cost,
    MatrixChain.matrixChainOrder MatrixChain.dims = Some cost /\
    (forall c, MatrixChain.matrices c = length MatrixChain.dims - 1 ->
       (cost <= MatrixChain.multiplications MatrixChain.dims c 1)%Z) /\
    (exists c, MatrixChain.matrices c = length MatrixChain.dims - 1 /\
       MatrixChain.multiplications MatrixChain.dims c 1 = cost).
Proof.
  assert (Forall (fun x => (0 <= x <= 35)%Z) MatrixChain.dims) as Hd.
  { repeat constructor; lia. }
  split; [simpl; lia|]. split; [vm_compute; discriminate|].
  split; [exact Hd|]. split; [vm_compute; discriminate|].
  apply (matrixChainOrder_optimal MatrixChain.dims 35);
    [simpl; lia|vm_compute; discriminate|exact Hd|vm_compute; discriminate].
Defined.

(** The two tests of [main] give 15125 and 8000 multiplications; with
    fewer than two dimensions there is no matrix and the result is 0. *)
Lemma matrixChainOrder_main_tests :
  MatrixChain.matrixChainOrder MatrixChain.dims = Some 15125%Z /\
  MatrixChain.matrixChainOrder MatrixChain.dims2 = Some 8000%Z /\
  MatrixChain.matrixChainOrder [] = Some 0%Z /\
  forall x, MatrixChain.matrixChainOrder [x] = Some 0%Z.
Proof. split_and!; done. Qed.

(** ** Further properties of the sibling programs *)

Lemma sublist_same_length {A} (l1 l2 : list A) :
  sublist l1 l2 -> length l2 <= length l1 -> l1 = l2.
Proof.
  induction 1 as [|x l1 l2 Hs IH|x l1 l2 Hs IH]; intros Hlen; [done| |].
  - simpl in Hlen. f_equal. apply IH. lia.
  - apply sublist_length in Hs. simpl in Hlen. lia.
Qed.

(** A string against itself: [lcsLength] leaves its length in c[m][m]
    and [printLCS] prints the string itself. *)
Theorem lcs_of_a_string_with_itself (X : list Ascii.ascii) :
  (Z.of_nat (length X) < INT_MAX)%Z ->
  exists t,
    LCS.lcsLength X X = Some t /\
    get2 (LCS.tab_c t) (length X) (length X) = Some (Z.of_nat (length X)) /\
    LCS.printLCS (length X + length X + 1) (LCS.tab_b t) X
      (length X) (length X) = Some X.
Proof.
  intros Hm. destruct (lcsLength_filled X X Hm Hm) as (t & Hrun & Ht).
  destruct (printLCS_filled X X t Ht (length X + length X + 1)
              (length X) (length X)) as (C & Hprint & HC & Hlen); [lia..|].
  rewrite !firstn_all in HC.
  pose proof (lcs_upper_bound X X (length X) (length X) X) as Hle.
  rewrite !firstn_all in Hle.
  specialize (Hle ltac:(lia) ltac:(lia) ltac:(by split)).
  assert (C = X) as ->.
  { destruct HC as [HC _]. apply sublist_same_length; [done|lia]. }
  exists t. split_and!; [done| |done].
  rewrite Hlen. destruct Ht as (_ & Hdone & _). apply Hdone; [done..|lia].
Qed.

Lemma lcs_of_a_string_with_itself_witness :
  (Z.of_nat (length LCS.X3) < INT_MAX)%Z /\
  exists t,
    LCS.lcsLength LCS.X3 LCS.X3 = Some t /\
    get2 (LCS.tab_c t) (length LCS.X3) (length LCS.X3)
    = Some (Z.of_nat (length LCS.X3)) /\
    LCS.printLCS (length LCS.X3 + length LCS.X3 + 1) (LCS.tab_b t) LCS.X3
      (length LCS.X3) (length LCS.X3) = Some LCS.X3.
Proof.
  split; [vm_compute; reflexivity|].
  apply (lcs_of_a_string_with_itself LCS.X3). vm_compute. reflexivity.
Defined.

(** The sentinel of [cutRod] is INT_MIN, a value a sum of prices can
    take: with the single price x, the rod of length 1 brings x, except
    for x = INT_MIN, where the result is 0. *)
Theorem cutRod_sentinel (x : Z) :
  (INT_MIN <= x <= INT_MAX)%Z ->
  RodCutting.cutRod [x] 1 = Some (if (x =? INT_MIN)%Z then 0%Z else x).
Proof.
  intros Hx. unfold RodCutting.cutRod.
  rewrite (int_Some (1 + 1)) by done. cbn [mbind option_bind].
  change (1 + 1 <? 0)%Z with false. cbv iota.
  change (set1 (replicate (Z.to_nat (1 + 1)) 0%Z) 0 0%Z)
    with (Some [0%Z; 0%Z]).
  cbn [mbind option_bind]. rewrite int_Some by done.
  cbn [mbind option_bind]. change (Z.to_nat 1) with 1.
  cbn [seq for_each]. unfold RodCutting.length_step.
  cbn [seq for_each]. unfold RodCutting.piece_step.
  change (1 <=? length [x]) with true. cbv iota.
  change ([x] !! (1 - 1)) with (Some x).
  change ([0%Z; 0%Z] !! (1 - 1)) with (Some 0%Z).
  cbn [mbind option_bind]. rewrite int_Some by lia.
  cbn [mbind option_bind].
  replace (Z.max INT_MIN (x + 0)) with x by lia.
  by destruct (x =? INT_MIN)%Z.
Qed.

Lemma cutRod_sentinel_witness :
  (INT_MIN <= INT_MIN <= INT_MAX)%Z /\
  RodCutting.cutRod [INT_MIN] 1
  = Some (if (INT_MIN =? INT_MIN)%Z then 0%Z else INT_MIN).
Proof.
  split; [done|]. apply (cutRod_sentinel INT_MIN). done.
Defined.

(** A negative weight is not rejected: for a capacity W >= 1 and tables
    that start empty, the run reads [K[i-1][W - wt[i-1]]] beyond the end
    of its row when it reaches the item, and gives no result. *)
Theorem knapsack01_negative_weight (W : nat) (wt val : list Z) (n i : nat)
    (wi : Z) :
  1 <= W -> i < n -> wt !! i = Some wi -> (wi < 0)%Z ->
  Knapsack.knapsack01 W wt val n [] [] = None.
Proof.
  intros HW Hi Hwi Hneg.
  destruct (Knapsack.knapsack01 W wt val n [] []) as [t|] eqn:Hrun; [|done].
  exfalso. unfold Knapsack.knapsack01 in Hrun.
  destruct (int (Z.of_nat n + 1)); [|done].
  destruct (int (Z.of_nat W + 1)); [|done].
  cbn [mbind option_bind] in Hrun.
  set (P := fun t1 : Knapsack.tables =>
    map length (Knapsack.tab_K t1) = replicate (n + 1) (W + 1)).
  assert (forall j w t1 t2, Knapsack.cell_step wt val j w t1 = Some t2 ->
            P t1 -> P t2) as Hcell.
  { intros j w t1 t2 Hstep Ht1. unfold P in *.
    by rewrite (knapsack_cell_step_lengths _ _ _ _ _ _ Hstep). }
  destruct (for_each_reaches P _ _ _ _ (S i) Hrun) as (t1 & t2 & Ht1 & Hrow).
  { apply elem_of_seq. lia. }
  { unfold P. cbn [Knapsack.tab_K].
    by rewrite resize_nil, map_length_replicate. }
  { intros j t1 t2 _ Hrow.
    eapply (for_each_preserves P); [|exact Hrow].
    intros w t3 t4 _. apply Hcell. }
  destruct (for_each_reaches P _ _ _ _ W Hrow) as (t3 & t4 & Ht3 & Hstep).
  { apply elem_of_seq. lia. }
  { done. }
  { intros w t3 t4 _. apply Hcell. }
  unfold Knapsack.cell_step in Hstep.
  rewrite (proj2 (Nat.eqb_neq W 0)) in Hstep by lia.
  cbn [Nat.eqb orb] in Hstep. replace (S i - 1) with i in Hstep by lia.
  rewrite Hwi in Hstep. cbn [mbind option_bind] in Hstep.
  rewrite (proj2 (Z.leb_le wi (Z.of_nat W))) in Hstep by lia.
  destruct (get2 (Knapsack.tab_K t3) i W); [|done].
  destruct (val !! i); [|done]. cbn [mbind option_bind] in Hstep.
  destruct (int (Z.of_nat W - wi)) as [rest_w|] eqn:Hrest; [|done].
  apply int_inv in Hrest as [-> _]. cbn [mbind option_bind] in Hstep.
  destruct (getZ2 (Knapsack.tab_K t3) i (Z.of_nat W - wi)) as [rest|] eqn:Hget;
    [|done].
  unfold getZ2 in Hget.
  destruct (Knapsack.tab_K t3 !! i) as [row|] eqn:Hrowi; [|done].
  cbn [mbind option_bind] in Hget. unfold lookupZ in Hget.
  rewrite (proj2 (Z.ltb_ge _ _)) in Hget by lia.
  apply lookup_lt_Some in Hget.
  assert (replicate (n + 1) (W + 1) !! i = Some (length row)) as Hlen.
  { rewrite <- Ht3.
    change (map length (Knapsack.tab_K t3))
      with (length <$> Knapsack.tab_K t3).
    by rewrite list_lookup_fmap, Hrowi. }
  rewrite lookup_replicate_2 in Hlen by lia. injection Hlen as Hlen. lia.
Qed.

Lemma knapsack01_negative_weight_witness :
  1 <= 7 /\ 1 < 3 /\ [5; -4; 3]%Z !! 1 = Some (-4)%Z /\ (-4 < 0)%Z /\
  Knapsack.knapsack01 7 [5; -4; 3]%Z Knapsack.val2 3 [] [] = None.
Proof.
  split; [lia|]. split; [lia|]. split; [reflexivity|]. split; [lia|].
  apply (knapsack01_negative_weight 7 [5; -4; 3]%Z Knapsack.val2 3 1 (-4));
    [lia|lia|reflexivity|lia].
Defined.
